(** * douban-archive-migrator: the pipeline core, embedded and verified

    The four scripts of the repository are embedded one module each:
    [Crawl] (douban_crawl.py), [Translate] (douban_translate.py),
    [Search] (search.py) and [ImportData] (import_data.py).  [Py] holds the
    pieces of the Python runtime the scripts rely on (strings as sequences
    of code points, [str.strip], [re.split] on a character class, truthiness,
    exceptions). *)

From Stdlib Require Import ZArith NArith List Ascii String Bool Lia.
From Stdlib Require Import SpecFloat DecimalString.
From stdpp Require Import gmap list.

Import ListNotations.
Local Open Scope Z_scope.

(* ===================================================================== *)
(** * Python runtime                                                      *)
(* ===================================================================== *)

Module Py.

(** A Python [str] is a sequence of Unicode code points. *)
Abbreviation char := N (only parsing).
Abbreviation str := (list N) (only parsing).

(** An ASCII literal as a [str]. *)
Definition lit (s : string) : str :=
  List.map N_of_ascii (list_ascii_of_string s).

(** Truthiness of a [str]: the empty string is falsy. *)
Definition nonempty (s : str) : bool :=
  match s with [] => false | _ :: _ => true end.

Definition in_range (lo hi c : N) : bool := ((lo <=? c) && (c <=? hi))%N.

(** The characters [str.strip()] removes: those for which [str.isspace]
    holds (CPython's [_PyUnicode_IsWhitespace]). *)
Definition isspace (c : char) : bool :=
  in_range 0x09 0x0D c || in_range 0x1C 0x20 c
  || (c =? 0x85)%N || (c =? 0xA0)%N || (c =? 0x1680)%N
  || in_range 0x2000 0x200A c
  || (c =? 0x2028)%N || (c =? 0x2029)%N || (c =? 0x202F)%N
  || (c =? 0x205F)%N || (c =? 0x3000)%N.

Fixpoint lstrip (s : str) : str :=
  match s with
  | c :: s' => if isspace c then lstrip s' else s
  | [] => []
  end.

Definition rstrip (s : str) : str := rev (lstrip (rev s)).

(** [s.strip()] *)
Definition strip (s : str) : str := rstrip (lstrip s).

(** [re.split(r"[...]", s)] for a character class [sep]: every separator
    character ends a segment, so adjacent separators give empty segments. *)
Fixpoint split_on (sep : char -> bool) (s : str) : list str :=
  match s with
  | [] => [[]]
  | c :: s' =>
      if sep c then [] :: split_on sep s'
      else match split_on sep s' with
           | p :: ps => (c :: p) :: ps
           | [] => [[c]]
           end
  end.

(** [re.split(r"[...]+", s)]: a maximal run of separator characters is one
    delimiter.  [in_run] tells that the previous character was a
    separator, whose segment boundary has been emitted already. *)
Fixpoint split_runs_from (sep : char -> bool) (in_run : bool) (s : str)
  : list str :=
  match s with
  | [] => [[]]
  | c :: s' =>
      if sep c then
        if in_run then split_runs_from sep true s'
        else [] :: split_runs_from sep true s'
      else match split_runs_from sep false s' with
           | p :: ps => (c :: p) :: ps
           | [] => [[c]]
           end
  end.

Definition split_runs (sep : char -> bool) (s : str) : list str :=
  split_runs_from sep false s.

(** [[p.strip() for p in parts if p.strip()]] *)
Definition stripped_nonempty (parts : list str) : list str :=
  List.map strip (List.filter (fun p => nonempty (strip p)) parts).

(** [s.startswith(p)], returning what follows the prefix. *)
Fixpoint strip_prefix (p s : str) : option str :=
  match p with
  | [] => Some s
  | a :: p' =>
      match s with
      | b :: s' => if (a =? b)%N then strip_prefix p' s' else None
      | [] => None
      end
  end.

(** [sep.join(l)] *)
Fixpoint join (sep : str) (l : list str) : str :=
  match l with
  | [] => []
  | [x] => x
  | x :: l' => x ++ sep ++ join sep l'
  end.

(** [a or b or ""] over values that are a [str] or [None]: the first
    truthy operand, the empty string when there is none. *)
Fixpoint first_truthy (l : list (option str)) : str :=
  match l with
  | [] => []
  | Some s :: l' => if nonempty s then s else first_truthy l'
  | None :: l' => first_truthy l'
  end.

(** [str(n)] for an [int]. *)
Definition str_of_int (n : Z) : str :=
  lit (NilZero.string_of_int (Z.to_int n)).

(** Exceptions (subclasses of [Exception]) and results. *)
Inductive exn : Type :=
| APIError            (* raised by the completion client *)
| JSONDecodeError
| AttributeError
| PageError           (* raised by the browser driver, timeouts included *)
| RuntimeError (msg : string)
| ValueError
| UnicodeEncodeError
| OSError
| TerminalError.      (* raised by print or input *)

Inductive res (A : Type) : Type :=
| Ok (a : A)
| Raise (e : exn).
Arguments Ok {A} a.
Arguments Raise {A} e.

(** Computations over a state [S] that return or raise. *)
Definition M (S A : Type) : Type := S -> res A * S.

Definition ret {S A} (a : A) : M S A := fun s => (Ok a, s).

Definition raise {S A} (e : exn) : M S A := fun s => (Raise e, s).

Definition bind {S A B} (m : M S A) (k : A -> M S B) : M S B :=
  fun s =>
    match m s with
    | (Ok a, s') => k a s'
    | (Raise e, s') => (Raise e, s')
    end.

(** [try: m except Exception as e: h e]; what [m] did to the state before
    it raised stays done. *)
Definition try_except {S A} (m : M S A) (h : exn -> M S A) : M S A :=
  fun s =>
    match m s with
    | (Ok a, s') => (Ok a, s')
    | (Raise e, s') => h e s'
    end.

Definition lift {S A} (r : res A) : M S A := fun s => (r, s).

Declare Scope py_scope.
Delimit Scope py_scope with py.
Notation "'let!' x ':=' c 'in' k" := (bind c (fun x => k))
  (at level 10, x name, c at level 100, k at level 200) : py_scope.

End Py.

(* ===================================================================== *)
(** * douban_crawl.py                                                     *)
(* ===================================================================== *)

Module Crawl.
Import Py.

Definition RATING : str := Eval cbv in lit "rating".
Definition DASH_T : str := Eval cbv in lit "-t".

(** An element of the parsed page, as far as ratings go: its class tokens
    ([tag.get("class", [])]) and its child elements in document order. *)
#[local] Unset Elimination Schemes.
Inductive tag : Type :=
| Tag (classes : list str) (children : list tag).
#[local] Set Elimination Schemes.

Definition tag_classes (t : tag) : list str :=
  match t with Tag classes _ => classes end.

Definition tag_children (t : tag) : list tag :=
  match t with Tag _ children => children end.

(** [RATING in token] *)
Fixpoint contains_rating (token : str) : bool :=
  match strip_prefix RATING token with
  | Some _ => true
  | None =>
      match token with
      | [] => false
      | _ :: token' => contains_rating token'
      end
  end.

(** Whether the selector [[class*="rating"]] selects an element with these
    class tokens.  The selector looks for [rating] in the value of the
    attribute, which is the tokens joined by single spaces; [rating] has no
    space, so it lies in the value exactly when it lies in a token. *)
Definition selects_rating (classes : list str) : bool :=
  List.existsb contains_rating classes.

(** The first result of [f] over a list, in list order. *)
Definition first_some {A B : Type} (f : A -> option B)
  : list A -> option B :=
  fix go (l : list A) : option B :=
    match l with
    | [] => None
    | x :: l' =>
        match f x with
        | Some b => Some b
        | None => go l'
        end
    end.

(** The class list of the first element that the selector selects among
    [t] and the elements below it, in document order: [t] itself comes
    before its children, and a child with all that is below it before the
    next child. *)
Fixpoint first_selected (t : tag) : option (list str) :=
  match t with
  | Tag classes children =>
      if selects_rating classes then Some classes
      else first_some first_selected children
  end.

(** [it.select_one('[class*="rating"]')], then [.get("class", [])]: the
    search is among the elements below [it], not [it] itself. *)
Definition select_one_rating (it : tag) : option (list str) :=
  first_some first_selected (tag_children it).

Section Rating.

(** The decimal-digit table of the runtime: [decimal c = Some d] when [c]
    is a decimal digit (what [\d] matches in a [str] pattern) of value
    [d].  [int] reads a digit string through the same table. *)
Variable decimal : char -> option N.

(** The interpreter's limit on the number of digits [int] converts,
    [sys.get_int_max_str_digits()]: 4300 unless it was set otherwise, and 0
    when there is no limit (as in an interpreter that predates it). *)
Variable max_str_digits : N.

Definition is_digit (c : char) : bool :=
  match decimal c with Some _ => true | None => false end.

(** [(\d+)-t] at the head of [s]: the group is tried longest first, a
    shorter one only when no longer one is followed by [-t]. *)
Fixpoint match_group (s : str) : option str :=
  match s with
  | c :: s' =>
      if is_digit c then
        match match_group s' with
        | Some g => Some (c :: g)
        | None =>
            match strip_prefix DASH_T s' with
            | Some _ => Some [c]
            | None => None
            end
        end
      else None
  | [] => None
  end.

(** [rating(\d+)-t] at the head of [s]; the result is [m.group(1)]. *)
Definition match_here (s : str) : option str :=
  match strip_prefix RATING s with
  | Some rest => match_group rest
  | None => None
  end.

(** [re.search(r"rating(\d+)-t", c)]: the leftmost position that matches. *)
Fixpoint re_search (s : str) : option str :=
  match match_here s with
  | Some g => Some g
  | None =>
      match s with
      | [] => None
      | _ :: s' => re_search s'
      end
  end.

(** The value of a string of decimal digits, most significant first;
    [None] when a character is no digit. *)
Fixpoint int_from (acc : Z) (s : str) : option Z :=
  match s with
  | [] => Some acc
  | c :: s' =>
      match decimal c with
      | Some d => int_from (10 * acc + Z.of_N d) s'
      | None => None
      end
  end.

(** [int] refuses a string of more digits than the limit; a string of at
    most 640 digits is never refused. *)
Definition over_limit (s : str) : bool :=
  let digits := N.of_nat (length s) in
  ((640 <? digits) && (0 <? max_str_digits) && (max_str_digits <? digits))%N.

(** [int(g)] for a captured group [g], a string of decimal digits: its
    value (of arbitrary size), or [None] for the [ValueError] of a group
    over the limit. *)
Definition py_int (s : str) : option Z :=
  match s with
  | [] => None
  | _ :: _ => if over_limit s then None else int_from 0 s
  end.

Fixpoint extract_rating_from_classes (classes : list str) : option Z :=
  match classes with
  | [] => None
  | c :: cs =>
      match re_search c with
      | Some g =>
          match py_int g with
          | Some n => Some n
          | None => extract_rating_from_classes cs   (* except ValueError: pass *)
          end
      | None => extract_rating_from_classes cs
      end
  end.

(** Lines 107-112 of [parse_book_collect_page] (and 155-160 of
    [parse_movie_collect_page]).  [rating_span] is the class list of the
    element [it.select_one('[class*="rating"]')] returns, when there is
    one; [item_classes] is [it.get("class", [])]. *)
Definition item_rating (rating_span : option (list str))
           (item_classes : list str) : option Z :=
  let rating :=
    match rating_span with
    | Some cls => extract_rating_from_classes cls
    | None => None
    end in
  match rating with
  | None => extract_rating_from_classes item_classes
  | Some r => Some r
  end.

(** ** The rating element of an item *)

(** [it.select_one('[class*="rating"]')] followed by lines 108-112, for an
    item [it] of the page. *)
Definition rating_of_item (it : tag) : option Z :=
  item_rating (select_one_rating it) (tag_classes it).

End Rating.

(** The ASCII digits, which every decimal-digit table contains. *)
Definition ascii_decimal (c : char) : option N :=
  if in_range 48 57 c then Some (c - 48)%N else None.

(** The limit of an interpreter that was not told otherwise. *)
Definition default_max_str_digits : N := 4300.

(** The separators of [split_people]: the character class
    [[、/,，；;]] of the source. *)
Definition is_people_sep (c : char) : bool :=
  (c =? 0x3001)%N || (c =? 0x2F)%N || (c =? 0x2C)%N
  || (c =? 0xFF0C)%N || (c =? 0xFF1B)%N || (c =? 0x3B)%N.

Definition split_people (text : str) : list str :=
  if nonempty text then stripped_nonempty (split_runs is_people_sep text)
  else [].

End Crawl.

(* ===================================================================== *)
(** * douban_translate.py                                                 *)
(* ===================================================================== *)

Module Translate.
Import Py.
Local Open Scope py_scope.

(** What [json.loads] returns. An object keeps its members in document
    order; a key given twice is read at its last occurrence, as the
    [dict] built by [json.loads] holds it. *)
#[local] Unset Elimination Schemes.
Inductive json : Type :=
| JNull
| JBool (b : bool)
| JInt (z : Z)
| JFloat (f : spec_float)
| JStr (s : str)
| JArr (l : list json)
| JObj (members : list (str * json)).
#[local] Set Elimination Schemes.

Definition truthy (j : json) : bool :=
  match j with
  | JNull => false
  | JBool b => b
  | JInt z => negb (z =? 0)
  | JFloat (S754_zero _) => false
  | JFloat _ => true
  | JStr s => nonempty s
  | JArr l => match l with [] => false | _ => true end
  | JObj m => match m with [] => false | _ => true end
  end.

Definition str_eqb (a b : str) : bool := bool_decide (a = b).

(** [d.get(k)] on the [dict] of an object. *)
Definition dict_get (k : str) (members : list (str * json)) : option json :=
  match List.find (fun kv => str_eqb (fst kv) k) (rev members) with
  | Some kv => Some (snd kv)
  | None => None
  end.

(** [data.get(k)]: only a [dict] has [get]. *)
Definition data_get (data : json) (k : str) : res (option json) :=
  match data with
  | JObj members => Ok (dict_get k members)
  | _ => Raise AttributeError
  end.

(** [(v or "").strip()]: only a [str] has [strip]. *)
Definition or_empty_strip (v : option json) : res str :=
  match v with
  | None => Ok (strip [])
  | Some j =>
      if truthy j then
        match j with
        | JStr s => Ok (strip s)
        | _ => Raise AttributeError
        end
      else Ok (strip [])
  end.

(** Lines 133-134: [people_en] when [raw_people_en] is a list, the initial
    [[]] otherwise. *)
Definition people_of_json (raw : option json) : list str :=
  match raw with
  | Some (JArr l) =>
      List.flat_map (fun p => match p with
                              | JStr s => [strip s]
                              | _ => []
                              end) l
  | _ => []
  end.

Definition TITLE_EN : str := Eval cbv in lit "title_en".
Definition COMMENT_EN : str := Eval cbv in lit "comment_en".
Definition PEOPLE_EN : str := Eval cbv in lit "people_en".
Definition BOOK : str := Eval cbv in lit "book".
Definition MOVIE : str := Eval cbv in lit "movie".
Definition WORK : str := Eval cbv in lit "work".
Definition SLASH_SEP : str := Eval cbv in lit " / ".

(** A chat completion, by its system prompt and user content. *)
Inductive request : Type :=
| ReviewRequest (text : str)                     (* REVIEW_SYSTEM_PROMPT *)
| StructuredRequest (category title_zh comment_zh : str)
                    (people : list str)          (* STRUCTURED_SYSTEM_PROMPT *)
| PersonRequest (name : str).                    (* PERSON_SYSTEM_PROMPT *)

(** The dictionary [translate_title_and_comment] returns.  The handler of
    [translate_all] builds one without the key [people_en]. *)
Record trans : Type := MkTrans {
  title_en : str;
  comment_en : str;
  people_en : option (list str)
}.

(** An entry of the raw file; an absent key or [null] is [None]. *)
Record raw_item : Type := MkRaw {
  r_category : option str;
  r_title_zh : option str;
  r_subject_url : option str;
  r_rating : option Z;
  r_comment_zh : option str;
  r_authors_zh : option (list str);
  r_directors_zh : option (list str)
}.

(** An entry of the translated file. *)
Record out_item : Type := MkOut {
  category : str;
  title : str;
  comment : str;
  rating : option Z;
  subject_url : str;
  author : option str;
  director : option str
}.

(** A code point that UTF-8 has no encoding for: a surrogate. *)
Definition is_surrogate (c : char) : bool := in_range 0xD800 0xDFFF c.

(** Whether [s.encode("utf-8")] returns. *)
Definition encodable (s : str) : bool :=
  List.forallb (fun c => negb (is_surrogate c)) s.

Definition field_encodable (f : option str) : bool :=
  match f with Some s => encodable s | None => true end.

(** Whether the text [json.dumps(..., ensure_ascii=False)] gives for a
    record can be encoded.  The keys are ASCII and the dump writes every
    character of a field that is no quote, backslash or control character
    as it is, so the text has a surrogate exactly when a field has one. *)
Definition record_encodable (out : out_item) : bool :=
  encodable (category out) && encodable (title out)
  && encodable (comment out) && encodable (subject_url out)
  && field_encodable (author out) && field_encodable (director out).

(** The separators of [detect_english_from_title]: [[／/|]]. *)
Definition is_title_sep (c : char) : bool :=
  (c =? 0xFF0F)%N || (c =? 0x2F)%N || (c =? 0x7C)%N.

Definition is_ascii_letter (c : char) : bool :=
  in_range 65 90 c || in_range 97 122 c.

Definition detect_english_from_title (raw_title : str) : option str :=
  if nonempty raw_title then
    List.find (List.existsb is_ascii_letter)
              (stripped_nonempty (split_on is_title_sep raw_title))
  else None.

Section Translator.

(** The completion service: [complete r s] is the text
    [resp.choices[0].message.content] of the answer to [r], or the
    exception the call raised, and the service's next state. *)
Variable St : Type.
Variable complete : request -> M St str.

(** [json.loads]; [None] when it raises [JSONDecodeError]. *)
Variable json_loads : str -> option json.

Definition translate_text (text : str) : M St str :=
  if nonempty (strip text) then
    let! content := complete (ReviewRequest text) in
    ret (strip content)
  else ret [].

Fixpoint translate_people_list (people : list str) : M St (list str) :=
  match people with
  | [] => ret []
  | p :: ps =>
      let name := strip p in
      if nonempty name then
        let! en_name :=
          try_except
            (let! content := complete (PersonRequest name) in
             ret (strip content))
            (fun _ => ret name) in
        let! translated := translate_people_list ps in
        ret (en_name :: translated)
      else translate_people_list ps
  end.

(** The structured request: [payload] under [STRUCTURED_SYSTEM_PROMPT]. *)
Definition payload (title_zh comment_zh category : str) (people : list str)
  : request :=
  StructuredRequest (if nonempty category then category else WORK)
                    title_zh comment_zh people.

(** The body of the [try] of [translate_title_and_comment]. *)
Definition structured_attempt (title_zh comment_zh category : str)
           (people : list str) : M St trans :=
  let! content := complete (payload title_zh comment_zh category people) in
  let content := strip content in
  let! data := lift (match json_loads content with
                     | Some d => Ok d
                     | None => Raise JSONDecodeError
                     end) in
  let! raw_title := lift (data_get data TITLE_EN) in
  let! title_en := lift (or_empty_strip raw_title) in
  let! raw_comment := lift (data_get data COMMENT_EN) in
  let! comment_en := lift (or_empty_strip raw_comment) in
  let! raw_people_en := lift (data_get data PEOPLE_EN) in
  ret (MkTrans title_en comment_en (Some (people_of_json raw_people_en))).

(** The body of the [except], after the warning it prints, which is not
    part of the model: the terminal is taken to accept it. *)
Definition free_text_fallback (title_zh comment_zh : str) : M St trans :=
  let! title_en := translate_text title_zh in
  let! comment_en := translate_text comment_zh in
  ret (MkTrans title_en comment_en (Some [])).

Definition translate_title_and_comment (title_zh comment_zh category : str)
           (people : list str) : M St trans :=
  try_except (structured_attempt title_zh comment_zh category people)
             (fun _ => free_text_fallback title_zh comment_zh).

Definition or_empty (v : option str) : str :=
  match v with Some s => s | None => [] end.

(** [people_en if people_en else translate_people_list(people)] *)
Definition names_of (people_en people : list str) : M St (list str) :=
  match people_en with
  | _ :: _ => ret people_en
  | [] => translate_people_list people
  end.

(** The locals of a turn of the loop of [translate_all]. *)
Definition item_title_zh (item : raw_item) : str :=
  strip (or_empty (r_title_zh item)).

Definition item_comment_zh (item : raw_item) : str :=
  strip (or_empty (r_comment_zh item)).

Definition item_category (item : raw_item) : str :=
  strip (or_empty (r_category item)).

Definition item_people (item : raw_item) : list str :=
  if str_eqb (item_category item) BOOK then
    match r_authors_zh item with Some l => l | None => [] end
  else if str_eqb (item_category item) MOVIE then
    match r_directors_zh item with Some l => l | None => [] end
  else [].

(** Lines 160-164: the call of [translate_title_and_comment] and its
    handler (but for the line the handler prints). *)
Definition translate_or_empty (item : raw_item) : M St trans :=
  try_except
    (translate_title_and_comment (item_title_zh item) (item_comment_zh item)
                                 (item_category item) (item_people item))
    (fun _ => ret (MkTrans [] [] None)).

(** Lines 168-170: [people_en], a list whatever [trans] holds. *)
Definition people_en_list (t : trans) : list str :=
  match people_en t with Some l => l | None => [] end.

(** One turn of the loop of [translate_all], up to [translated.append(out)]. *)
Definition translate_item (item : raw_item) : M St out_item :=
  let title_zh := item_title_zh item in
  let category := item_category item in
  let people := item_people item in
  let source_url := or_empty (r_subject_url item) in
  let detected_en :=
    if str_eqb category MOVIE then detect_english_from_title title_zh
    else None in
  let! trans := translate_or_empty item in
  let title_en_final :=
    match detected_en with
    | Some d => if nonempty d then d else title_en trans
    | None => title_en trans
    end in
  let comment_en_final := comment_en trans in
  let people_en := people_en_list trans in
  let rating_en := r_rating item in
  if str_eqb category BOOK then
    let! names := names_of people_en people in
    ret (MkOut category title_en_final comment_en_final rating_en source_url
               (Some (join SLASH_SEP names)) None)
  else if str_eqb category MOVIE then
    let! names := names_of people_en people in
    ret (MkOut category title_en_final comment_en_final rating_en source_url
               None (Some (join SLASH_SEP names)))
  else
    ret (MkOut category title_en_final comment_en_final rating_en source_url
               None None).

(** ** The file of translated records *)

(** The interpreter's limit on the digits of an [int] it converts to or
    from text (see [Crawl.over_limit]). *)
Variable max_str_digits : N.

(** The file system, as far as [save_path] goes.  [open_w fs] is
    [open(save_path, "w", encoding="utf-8")]: whether it returned (it raises
    [OSError] otherwise) and the file system afterwards, in which, when it
    returned, the file exists and is empty.  [write_close translated fs] is
    the encoded text of the records written to the open file and the file
    closed: whether that returned, and the file system afterwards. *)
Variable Fs : Type.
Variable open_w : Fs -> bool * Fs.
Variable write_close : list out_item -> Fs -> bool * Fs.

(** [json.dumps] of a record raises [ValueError] when its rating has more
    digits than the interpreter converts. *)
Definition dumpable (out : out_item) : bool :=
  match rating out with
  | Some r => negb (Crawl.over_limit max_str_digits (str_of_int (Z.abs r)))
  | None => true
  end.

(** Lines 189-192: [save_path.write_text(json.dumps(translated, ...),
    encoding="utf-8")].  The text is built first; then the file is opened,
    which empties it; then the text is encoded, and only then written. *)
Definition write_text (translated : list out_item) : M (St * Fs) unit :=
  fun s =>
    let '(st, fs) := s in
    if negb (List.forallb dumpable translated)
    then (Raise ValueError, (st, fs))
    else
      let '(opened, fs1) := open_w fs in
      if negb opened then (Raise OSError, (st, fs1))
      else if negb (List.forallb record_encodable translated)
      then (Raise UnicodeEncodeError, (st, fs1))
      else
        let '(written, fs2) := write_close translated fs1 in
        if written then (Ok tt, (st, fs2)) else (Raise OSError, (st, fs2)).

(** A computation on the service, in a state that has the file system
    too. *)
Definition on_service {A : Type} (m : M St A) : M (St * Fs) A :=
  fun s =>
    let '(st, fs) := s in
    let '(r, st') := m st in
    (r, (st', fs)).

(** The loop of [translate_all] from the list [translated] built so far:
    each record is appended and the whole list written to the file before
    the next item is looked at.  (The progress bar and the pause are not
    part of the model.) *)
Fixpoint translate_from (translated : list out_item) (items : list raw_item)
  : M (St * Fs) (list out_item) :=
  match items with
  | [] => ret translated
  | item :: rest =>
      let! out := on_service (translate_item item) in
      let translated := translated ++ [out] in
      let! _ := write_text translated in
      translate_from translated rest
  end.

Definition translate_all (items : list raw_item)
  : M (St * Fs) (list out_item) :=
  translate_from [] items.

End Translator.

End Translate.

(* ===================================================================== *)
(** * search.py                                                           *)
(* ===================================================================== *)

Module Search.
Import Py.

(** An entry of the translated file as the Resolver reads it with
    [item.get]; an absent key or [null] is [None]. *)
Record item : Type := MkItem {
  subject_url : option str;
  title : option str;
  title_en : option str;
  author : option str;
  director : option str
}.

(** One call of [search_goodreads] or [search_imdb], kept for the record:
    the item's [subject_url], the two arguments and what came back. *)
Record query : Type := MkQuery {
  q_src : str;
  q_title : str;
  q_people : str;
  q_target : option str
}.

Section Resolver.

(** The destination sites: [search title people w] is what
    [search_goodreads(title, author, delay)] (or [search_imdb]) returns,
    an URL or [None], and the state the site is left in. *)
Variable W : Type.
Variable search_goodreads : str -> str -> W -> option str * W.
Variable search_imdb : str -> str -> W -> option str * W.

(** The state of a run: the mapping being built, the sites, and the
    searches issued so far, oldest first. *)
Definition run_state : Type := gmap str str * W * list query.

(** One turn of the loop shared by [build_goodreads_mapping] and
    [build_imdb_mapping], which differ in the field read for the people
    and in the search called. *)
Definition resolve_item (people_of : item -> option str)
           (search : str -> str -> W -> option str * W)
           (overwrite : bool) (s : run_state) (it : item) : run_state :=
  let '(mapping, w, log) := s in
  match subject_url it with
  | None => s                                           (* if not src *)
  | Some src =>
      if negb (nonempty src) then s                     (* if not src *)
      else if bool_decide (is_Some (mapping !! src)) && negb overwrite
      then s
      else
        let title := first_truthy [title it; title_en it] in
        let people := first_truthy [people_of it] in
        let '(target, w') := search title people w in
        let mapping' :=
          match target with
          | Some t => if nonempty t then <[src := t]> mapping else mapping
          | None => mapping
          end in
        (mapping', w', log ++ [MkQuery src title people target])
  end.

Definition build_goodreads_mapping (items : list item)
           (existing : gmap str str) (overwrite : bool) (w : W)
  : run_state :=
  fold_left (resolve_item author search_goodreads overwrite) items
            (existing, w, []).

Definition build_imdb_mapping (items : list item)
           (existing : gmap str str) (overwrite : bool) (w : W)
  : run_state :=
  fold_left (resolve_item director search_imdb overwrite) items
            (existing, w, []).

End Resolver.

End Search.

(* ===================================================================== *)
(** * import_data.py                                                      *)
(* ===================================================================== *)

Module ImportData.
Import Py.
Local Open Scope py_scope.

(** An entry of the translated file as the Publisher reads it. *)
Record item : Type := MkItem {
  subject_url : option str;
  comment : option str;
  comment_en : option str;
  rating : option Z;
  title : option str;
  title_en : option str;
  title_zh : option str
}.

(** A row of a mapping file. *)
Record row : Type := MkRow {
  row_subject_url : option str;
  row_source : option str;
  row_target_url : option str;
  row_target : option str
}.

(** [a or b] on two values that are a [str] or [None]. *)
Definition py_or (a b : option str) : option str :=
  match a with
  | Some s => if nonempty s then a else b
  | None => b
  end.

Definition is_truthy (a : option str) : bool :=
  match a with Some s => nonempty s | None => false end.

(** [load_mapping] on the rows of the file (the entries that are a [dict]). *)
Fixpoint load_mapping_from (mapping : gmap str str) (rows : list row)
  : gmap str str :=
  match rows with
  | [] => mapping
  | entry :: rest =>
      let src := py_or (row_subject_url entry) (row_source entry) in
      let dst := py_or (row_target_url entry) (row_target entry) in
      match src, dst with
      | Some s, Some d =>
          if nonempty s && nonempty d
          then load_mapping_from (<[s := d]> mapping) rest
          else load_mapping_from mapping rest
      | _, _ => load_mapping_from mapping rest
      end
  end.

Definition load_mapping (rows : list row) : gmap str str :=
  load_mapping_from ∅ rows.

Definition get_target_url (mapping : gmap str str) (it : item) : option str :=
  match subject_url it with
  | Some u => if nonempty u then mapping !! u else None
  | None => None
  end.

Definition convert_rating_for_goodreads (rating : option Z) : option Z :=
  match rating with
  | None => None
  | Some r => Some (Z.max 1 (Z.min 5 r))
  end.

Definition convert_rating_for_imdb (rating : option Z) : option Z :=
  match rating with
  | None => None
  | Some r => Some (Z.max 1 (Z.min 5 r) * 2)
  end.

(** A line for the terminal: the announcement of a record, as printed, or
    the warning [[WARN] fail <target_url>: <e>] about a posting that
    raised [e]. *)
Inductive line : Type :=
| Announced (text : str)
| Warned (target_url : str) (e : exn).

(** What is asked of the page, of the browser and of the terminal. *)
Inductive action : Type :=
| Goto (url : str)
| Click (selector : str)
| Fill (selector text : str)
| WaitForTimeout (ms : Z)
| Launch (user_data_dir : str) (headless : bool)
| NewPage
| Close
| Input (prompt : str)
| Print (l : line).

(** What a (record, destination) pair ends as: the branch taken through
    the loop body of [process_goodreads] / [process_imdb]. *)
Inductive outcome : Type :=
| Posted
| SkippedNoMapping
| SkippedNoComment
| Failed (e : exn).

Section Publisher.

(** The browser and the terminal: [perform a pg] tells whether the call
    returned ([true]) or raised ([false], a timeout included), and their
    state afterwards. *)
Variable Pg : Type.
Variable perform : action -> Pg -> bool * Pg.

(** The state of browser and terminal, and the calls made so far, oldest
    first, each with whether it returned. *)
Definition session : Type := Pg * list (action * bool).

Definition page_try (a : action) : M session bool :=
  fun s =>
    let '(pg, log) := s in
    let '(ok, pg') := perform a pg in
    (Ok ok, (pg', log ++ [(a, ok)])).

(** A call outside any [try]: its exception propagates. *)
Definition page_do (a : action) : M session unit :=
  let! ok := page_try a in
  if ok then ret tt else raise PageError.

(** [print] or [input], outside any [try]. *)
Definition terminal_do (a : action) : M session unit :=
  let! ok := page_try a in
  if ok then ret tt else raise TerminalError.

Fixpoint click_first_available (selectors : list str) : M session bool :=
  match selectors with
  | [] => ret false
  | sel :: rest =>
      let! ok := page_try (Click sel) in
      if ok then ret true else click_first_available rest
  end.

Fixpoint fill_first_available (selectors : list str) (text : str)
  : M session bool :=
  match selectors with
  | [] => ret false
  | sel :: rest =>
      let! ok := page_try (Fill sel text) in
      if ok then ret true else fill_first_available rest text
  end.

Definition open_goodreads_editor (target_url : str) : M session unit :=
  let! _ := page_do (Goto target_url) in
  let! _ := click_first_available
              [lit "a[href*='/review/new']";
               lit "a.writeReviewLink";
               lit "button[data-analytics-id='new_review']";
               lit "a[data-analytics-id='new_review']"] in
  ret tt.

(** [if rating:] *)
Definition rating_given (rating : option Z) : option Z :=
  match rating with
  | Some r => if r =? 0 then None else Some r
  | None => None
  end.

Definition post_goodreads_review (target_url : str) (rating : option Z)
           (comment : str) : M session unit :=
  let! _ := open_goodreads_editor target_url in
  let! _ :=
    match rating_given rating with
    | Some r =>
        let n := str_of_int r in
        click_first_available
          [lit "#rating_star_" ++ n;
           lit "input[name=" ++ [34%N] ++ lit "rating" ++ [34%N]
             ++ lit "][value=" ++ [34%N] ++ n ++ [34%N] ++ lit "]";
           lit "input[name=" ++ [34%N] ++ lit "review[rating]" ++ [34%N]
             ++ lit "][value=" ++ [34%N] ++ n ++ [34%N] ++ lit "]";
           lit "label[for=" ++ [34%N] ++ lit "review_rating_" ++ n
             ++ [34%N] ++ lit "]"]
    | None => ret false
    end in
  let! filled :=
    fill_first_available
      [lit "#review_review_text";
       lit "textarea[name='review[review]']";
       lit "textarea#review_text";
       lit "textarea[id*='review']"] comment in
  if negb filled then raise (RuntimeError "找不到 Goodreads 评论输入框，需手动调整选择器")
  else
    let! clicked :=
      click_first_available
        [lit "#review_submit";
         lit "input[type='submit'][value*='Save']";
         lit "button[type='submit']";
         lit "input[name='commit']";
         lit "button[name='commit']"] in
    if negb clicked then raise (RuntimeError "找不到 Goodreads 提交按钮，需手动调整选择器")
    else page_do (WaitForTimeout 2000).

Definition post_imdb_review (target_url : str) (rating : option Z)
           (comment : str) : M session unit :=
  let! _ := page_do (Goto target_url) in
  let! _ :=
    match rating_given rating with
    | Some r =>
        let n := str_of_int r in
        click_first_available
          [lit "button[aria-label='" ++ n ++ lit "']";
           lit "input[name='rating'][value='" ++ n ++ lit "']";
           lit "span.star-rating-icon"]
    | None => ret false
    end in
  let! filled :=
    fill_first_available
      [lit "textarea"; lit "textarea[name*='review']"] comment in
  if negb filled then raise (RuntimeError "找不到 IMDb 评论输入框，需手动调整选择器")
  else
    let! clicked :=
      click_first_available
        [lit "button[type='submit']"; lit "input[type='submit']"] in
    if negb clicked then raise (RuntimeError "找不到 IMDb 提交按钮，需手动调整选择器")
    else page_do (WaitForTimeout 1500).

(** [item.get("title") or item.get("title_en") or item.get("title_zh")] *)
Definition title_display (it : item) : option str :=
  py_or (py_or (title it) (title_en it)) (title_zh it).

(** The line [f"{label} {title_display} -> {target_url}"]. *)
Definition announce (label : str) (it : item) (target_url : str) : str :=
  label ++ lit " "
  ++ match title_display it with Some t => t | None => lit "None" end
  ++ lit " -> " ++ target_url.

(** One turn of the loop shared by [process_goodreads] and
    [process_imdb], which differ in the label of the announcement, in the
    rating conversion and in the posting routine. *)
Definition process_item
           (label : str)
           (convert : option Z -> option Z)
           (post : str -> option Z -> str -> M session unit)
           (mapping : gmap str str) (it : item) : M session outcome :=
  match get_target_url mapping it with
  | None => ret SkippedNoMapping                 (* if not target_url *)
  | Some target_url =>
      if negb (nonempty target_url) then ret SkippedNoMapping
      else
        let comment :=
          strip (first_truthy [comment it; comment_en it]) in
        if negb (nonempty comment) then ret SkippedNoComment
        else
          let rating := convert (rating it) in
          let! _ :=
            terminal_do (Print (Announced (announce label it target_url))) in
          try_except
            (let! _ := post target_url rating comment in ret Posted)
            (fun e =>
               let! _ := terminal_do (Print (Warned target_url e)) in
               ret (Failed e))
  end.

Definition process_goodreads_item :=
  process_item (lit "[GOODREADS]") convert_rating_for_goodreads
               post_goodreads_review.

Definition process_imdb_item :=
  process_item (lit "[IMDb]") convert_rating_for_imdb post_imdb_review.

(** The loop: the records in list order.  What a turn ended as is not
    kept. *)
Fixpoint process_items (step : item -> M session outcome)
         (items : list item) : M session unit :=
  match items with
  | [] => ret tt
  | it :: rest =>
      let! _ := step it in
      process_items step rest
  end.

(** [f"[{label}] 请在弹出的浏览器中登录后按回车继续..."] *)
Definition login_prompt (label : str) : str :=
  lit "[" ++ label ++ lit "] "
  ++ [0x8BF7; 0x5728; 0x5F39; 0x51FA; 0x7684; 0x6D4F; 0x89C8; 0x5668; 0x4E2D;
      0x767B; 0x5F55; 0x540E; 0x6309; 0x56DE; 0x8F66; 0x7EE7; 0x7EED;
      0x2E; 0x2E; 0x2E]%N.

(** [prompt_login]: when [WAIT_FOR_LOGIN] is set the home page is opened,
    whatever that call does, and the operator is asked for a key press. *)
Definition prompt_login (wait_for_login : bool) (home_url label : str)
  : M session unit :=
  if wait_for_login then
    let! _ := page_try (Goto home_url) in
    terminal_do (Input (login_prompt label))
  else ret tt.

(** [headless] and [wait_for_login] are the module's [HEADLESS] and
    [WAIT_FOR_LOGIN]. *)
Definition process_goodreads (headless wait_for_login : bool)
           (items : list item) (mapping : gmap str str) : M session unit :=
  let! _ := page_do (Launch (lit ".pw_goodreads_profile") headless) in
  let! _ := page_do NewPage in
  let! _ := prompt_login wait_for_login (lit "https://www.goodreads.com/")
                         (lit "Goodreads") in
  let! _ := process_items (process_goodreads_item mapping) items in
  page_do Close.

Definition process_imdb (headless wait_for_login : bool)
           (items : list item) (mapping : gmap str str) : M session unit :=
  let! _ := page_do (Launch (lit ".pw_imdb_profile") headless) in
  let! _ := page_do NewPage in
  let! _ := prompt_login wait_for_login (lit "https://www.imdb.com/")
                         (lit "IMDb") in
  let! _ := process_items (process_imdb_item mapping) items in
  page_do Close.

End Publisher.

End ImportData.

(* ===================================================================== *)
(** * The specification's notions                                         *)
(* ===================================================================== *)

Module Spec.
Import Py.

(** ** Rating tokens *)

(** [s] begins with [rating], a non-empty group [g] of decimal digits, and
    [-t]. *)
Definition matches_at (decimal : char -> option N) (s g : str) : Prop :=
  g <> [] /\ Forall (fun c => Crawl.is_digit decimal c = true) g
  /\ exists post, s = Crawl.RATING ++ g ++ Crawl.DASH_T ++ post.

(** A class token matches the pattern when it does so at some position. *)
Definition token_matches (decimal : char -> option N) (c : str) : Prop :=
  exists pre rest g, c = pre ++ rest /\ matches_at decimal rest g.

(** The integer a string of decimal digits denotes, by positional weight. *)
Fixpoint digits_value (decimal : char -> option N) (g : str) : Z :=
  match g with
  | [] => 0
  | c :: g' =>
      Z.of_N (match decimal c with Some d => d | None => 0%N end)
      * 10 ^ Z.of_nat (length g') + digits_value decimal g'
  end.

(** The group the pattern captures in a token [c]: the digits between
    [rating] and [-t] at the leftmost place where the pattern matches,
    as many of them as can be. *)
Definition captured (decimal : char -> option N) (c g : str) : Prop :=
  exists pre post,
    c = pre ++ Crawl.RATING ++ g ++ Crawl.DASH_T ++ post
    /\ g <> [] /\ Forall (fun d => Crawl.is_digit decimal d = true) g
    /\ (forall pre' rest' g',
           c = pre' ++ rest' -> (length pre' < length pre)%nat ->
           ~ matches_at decimal rest' g')
    /\ (forall g',
           matches_at decimal (Crawl.RATING ++ g ++ Crawl.DASH_T ++ post) g' ->
           (length g' <= length g)%nat).

(** A group the interpreter converts: there is no limit, or the group has
    at most 640 digits, or no more than the limit. *)
Definition within_limit (limit : N) (g : str) : Prop :=
  (limit = 0 \/ N.of_nat (length g) <= 640 \/ N.of_nat (length g) <= limit)%N.

(** The token [c] reads as [n]: the pattern captures a group in it that
    the interpreter converts, and [n] is the integer the group denotes. *)
Definition reads (decimal : char -> option N) (limit : N) (c : str) (n : Z)
  : Prop :=
  exists g, captured decimal c g /\ within_limit limit g
            /\ n = digits_value decimal g.

(** [r] is the reading of the first token of [classes] that reads as an
    integer, null when none does. *)
Definition first_reading (decimal : char -> option N) (limit : N)
           (classes : list str) (r : option Z) : Prop :=
  match r with
  | None => forall c n, In c classes -> ~ reads decimal limit c n
  | Some n =>
      exists before c after,
        classes = before ++ c :: after
        /\ (forall c' n', In c' before -> ~ reads decimal limit c' n')
        /\ reads decimal limit c n
  end.

(** The elements below [t] in document order. *)
Fixpoint descendants (t : Crawl.tag) : list Crawl.tag :=
  match t with
  | Crawl.Tag _ children =>
      List.flat_map (fun child => child :: descendants child) children
  end.

(** An element has a rating class when [rating] lies in one of its class
    tokens. *)
Definition rating_bearing (e : Crawl.tag) : Prop :=
  exists token a b, In token (Crawl.tag_classes e)
                    /\ token = a ++ Crawl.RATING ++ b.

(** [e] is an innermost rating-bearing element of the item [it]: it lies
    below [it], has a rating class, and nothing below it has one. *)
Definition innermost_rating (it e : Crawl.tag) : Prop :=
  In e (descendants it) /\ rating_bearing e
  /\ forall d, In d (descendants e) -> ~ rating_bearing d.

(** ** Person lists *)

(** Split at every separator character, trim each segment, drop the empty
    ones, keep the order. *)
Definition split_trim_drop (sep : char -> bool) (text : str) : list str :=
  List.filter nonempty (List.map strip (split_on sep text)).

(** The separators the specification lists: full-width slash, half-width
    slash, comma, Chinese comma, Chinese enumeration comma, full-width and
    half-width semicolons. *)
Definition is_listed_sep (c : char) : bool :=
  (c =? 0xFF0F)%N || (c =? 0x2F)%N || (c =? 0x2C)%N || (c =? 0xFF0C)%N
  || (c =? 0x3001)%N || (c =? 0xFF1B)%N || (c =? 0x3B)%N.

(** ** Rating scales *)

Definition clamp (r lo hi : Z) : Z :=
  if r <? lo then lo else if hi <? r then hi else r.

(** ** Candidate locators *)

(** What a step over an ordered candidate list may leave behind: [tried] is
    the calls it made, each with whether the candidate matched.  Either it
    succeeded, and then the candidates before the first match were tried in
    list order and failed, the match was tried last, and nothing after it
    was tried; or it failed, and then every candidate was tried in list
    order and none matched. *)
Definition first_match_trace {A : Type} (call : str -> A)
           (selectors : list str) (result : bool) (tried : list (A * bool))
  : Prop :=
  (result = true
   /\ exists before sel after,
       selectors = before ++ sel :: after
       /\ tried = List.map (fun c => (call c, false)) before
                  ++ [(call sel, true)])
  \/ (result = false
      /\ tried = List.map (fun c => (call c, false)) selectors).

(** The calls of [tried], made one after the other on the page from the
    state [pg], each gave the outcome that [tried] has for it, and left the
    page in the state [pg']. *)
Fixpoint replays {A Pg : Type} (perform : A -> Pg -> bool * Pg) (pg : Pg)
         (tried : list (A * bool)) (pg' : Pg) : Prop :=
  match tried with
  | [] => pg' = pg
  | (a, ok) :: rest =>
      fst (perform a pg) = ok /\ replays perform (snd (perform a pg)) rest pg'
  end.

(** ** Resolver *)

(** The mapping after a search for [src] came back with [target]. *)
Definition stored (src : str) (target : option str) (mapping : gmap str str)
  : gmap str str :=
  match target with
  | Some t => if nonempty t then <[src := t]> mapping else mapping
  | None => mapping
  end.

(** ** Translator *)

Section Translation.

Variable St : Type.
Variable complete : Translate.request -> M St str.
Variable json_loads : str -> option Translate.json.

(** An invalid response as the specification has it: the call raises
    ("transport error"), or
    its content "fails to parse as a JSON object with the expected keys",
    which are [title_en], [comment_en] and [people_en].  The last argument
    is the service's state afterwards. *)
Definition has_expected_keys (data : Translate.json) : Prop :=
  exists members,
    data = Translate.JObj members
    /\ Forall (fun k => Translate.dict_get k members <> None)
              [Translate.TITLE_EN; Translate.COMMENT_EN; Translate.PEOPLE_EN].

Inductive invalid_response (req : Translate.request) (st : St)
  : St -> Prop :=
| transport_error e st1 :
    complete req st = (Raise e, st1) ->
    invalid_response req st st1
| unexpected_content content st1 :
    complete req st = (Ok content, st1) ->
    (forall data, json_loads (strip content) = Some data ->
                  ~ has_expected_keys data) ->
    invalid_response req st st1.

(** What the code falls back on: the call raises, its content is not JSON,
    the JSON is not an object, or the title or the comment of the object is
    a non-empty value that is not a string.  The last argument is the
    service's state afterwards. *)
Inductive structured_call_fails (req : Translate.request) (st : St)
  : St -> Prop :=
| call_raises e st1 :
    complete req st = (Raise e, st1) ->
    structured_call_fails req st st1
| content_not_json content st1 :
    complete req st = (Ok content, st1) ->
    json_loads (strip content) = None ->
    structured_call_fails req st st1
| json_not_object content st1 data :
    complete req st = (Ok content, st1) ->
    json_loads (strip content) = Some data ->
    (forall members, data <> Translate.JObj members) ->
    structured_call_fails req st st1
| field_not_text content st1 members k v :
    complete req st = (Ok content, st1) ->
    json_loads (strip content) = Some (Translate.JObj members) ->
    k = Translate.TITLE_EN \/ k = Translate.COMMENT_EN ->
    Translate.dict_get k members = Some v ->
    Translate.truthy v = true ->
    (forall text, v <> Translate.JStr text) ->
    structured_call_fails req st st1.

(** Per-name translation: every entry that is not blank is asked for on its
    own, in order; the answer is kept trimmed, and when the call raises the
    trimmed source name stands in.  Blank entries give nothing. *)
Inductive per_name : list str -> St -> list str -> St -> Prop :=
| per_name_done st : per_name [] st [] st
| per_name_blank p ps st outs st' :
    strip p = [] ->
    per_name ps st outs st' ->
    per_name (p :: ps) st outs st'
| per_name_translated p ps st content st1 outs st' :
    strip p <> [] ->
    complete (Translate.PersonRequest (strip p)) st = (Ok content, st1) ->
    per_name ps st1 outs st' ->
    per_name (p :: ps) st (strip content :: outs) st'
| per_name_kept p ps st e st1 outs st' :
    strip p <> [] ->
    complete (Translate.PersonRequest (strip p)) st = (Raise e, st1) ->
    per_name ps st1 outs st' ->
    per_name (p :: ps) st (strip p :: outs) st'.

(** The records of a list of items: each the result of the turn of its
    item, taken in order, the service going from one turn to the next. *)
Inductive translated_by
  : list Translate.raw_item -> St -> list Translate.out_item -> St -> Prop :=
| translated_none st : translated_by [] st [] st
| translated_next item items st out st1 outs st' :
    Translate.translate_item St complete json_loads item st = (Ok out, st1) ->
    translated_by items st1 outs st' ->
    translated_by (item :: items) st (out :: outs) st'.

End Translation.

(** A record that the write of the file accepts. *)
Definition writable (limit : N) (out : Translate.out_item) : Prop :=
  Translate.dumpable limit out = true
  /\ Translate.record_encodable out = true.

(** A file system that refuses nothing. *)
Definition never_fails {Fs : Type} (open_w : Fs -> bool * Fs)
           (write_close : list Translate.out_item -> Fs -> bool * Fs) : Prop :=
  (forall fs, fst (open_w fs) = true)
  /\ (forall translated fs, fst (write_close translated fs) = true).

(** What a record carries over from its item. *)
Definition carried (item : Translate.raw_item) (out : Translate.out_item)
  : Prop :=
  Translate.category out = Translate.item_category item
  /\ Translate.subject_url out
     = match Translate.r_subject_url item with Some u => u | None => [] end
  /\ Translate.rating out = Translate.r_rating item.

(** The people field a record of the given category is written with. *)
Definition people_field (out : Translate.out_item) : option str :=
  if Translate.str_eqb (Translate.category out) Translate.BOOK
  then Translate.author out else Translate.director out.

(** ** Publisher *)

(** The mapping entry for a record's [subject_url], if any. *)
Definition entry_for (mapping : gmap str str) (it : ImportData.item)
  : option str :=
  match ImportData.subject_url it with
  | Some u => mapping !! u
  | None => None
  end.

(** The record's comment text, trimmed. *)
Definition comment_text (it : ImportData.item) : str :=
  strip (first_truthy [ImportData.comment it; ImportData.comment_en it]).

End Spec.

(* ===================================================================== *)
(** * Sample inputs                                                       *)
(* ===================================================================== *)

Module Samples.
Import Py.

(** 张三 / 李四，王五 *)
Definition zhang_li_wang : str :=
  [0x5F20; 0x4E09; 0x20; 0x2F; 0x20; 0x674E; 0x56DB; 0xFF0C; 0x738B; 0x4E94]%N.
Definition zhang_san : str := [0x5F20; 0x4E09]%N.
Definition li_si : str := [0x674E; 0x56DB]%N.
Definition wang_wu : str := [0x738B; 0x4E94]%N.

(** The class token [rating99...9-t] with 4301 nines. *)
Definition nines : str := repeat 57%N 4301.
Definition long_token : str := Crawl.RATING ++ nines ++ Crawl.DASH_T.

(** An item whose star sits in a wrapper that has a rating class itself:
    [<li class="item"><div class="rating-box"><span class="rating4-t">
    </span></div></li>]. *)
Definition star_span : Crawl.tag := Crawl.Tag [lit "rating4-t"] [].
Definition star_wrapper : Crawl.tag := Crawl.Tag [lit "rating-box"] [star_span].
Definition item_with_wrapper : Crawl.tag := Crawl.Tag [lit "item"] [star_wrapper].

(** 张三／李四, with a full-width slash *)
Definition zhang_fullwidth_li : str :=
  [0x5F20; 0x4E09; 0xFF0F; 0x674E; 0x56DB]%N.

(** A page on which exactly the locator [c] is found; its state counts the
    calls made. *)
Definition page_only_c (a : ImportData.action) (pg : nat) : bool * nat :=
  (match a with
   | ImportData.Click sel => bool_decide (sel = lit "c")
   | ImportData.Fill sel _ => bool_decide (sel = lit "c")
   | _ => true
   end, S pg).

Definition four_candidates : list str := [lit "a"; lit "b"; lit "c"; lit "d"].

(** A mapping file with one row, and two records: one without a row, one
    with a row and a blank comment. *)
Definition one_row : list ImportData.row :=
  [ImportData.MkRow (Some (lit "douban/1")) None None (Some (lit "goodreads/1"))].

Definition record_unmapped : ImportData.item :=
  ImportData.MkItem (Some (lit "douban/2")) (Some (lit "fine")) None (Some 4)
                    (Some (lit "Book")) None None.

Definition record_blank_comment : ImportData.item :=
  ImportData.MkItem (Some (lit "douban/1")) (Some (lit "  ")) None (Some 4)
                    (Some (lit "Book")) None None.

(** The answer
    [{"title_en": "Book", "comment_en": "Great read", "people_en": ["Zhang San"]}]
    and the object [json.loads] reads from it. *)
Definition quoted (text : string) : str := [34%N] ++ lit text ++ [34%N].

Definition answer_text : str :=
  lit "{" ++ quoted "title_en" ++ lit ": " ++ quoted "Book" ++ lit ", "
  ++ quoted "comment_en" ++ lit ": " ++ quoted "Great read" ++ lit ", "
  ++ quoted "people_en" ++ lit ": [" ++ quoted "Zhang San" ++ lit "]}".

Definition answer_value : Translate.json :=
  Translate.JObj
    [(Translate.TITLE_EN, Translate.JStr (lit "Book"));
     (Translate.COMMENT_EN, Translate.JStr (lit "Great read"));
     (Translate.PEOPLE_EN, Translate.JArr [Translate.JStr (lit "Zhang San")])].

(** [json.loads] as far as the samples need it: it reads [answer_text] and
    rejects the prose the other service answers with. *)
Definition loads_sample (text : str) : option Translate.json :=
  if Translate.str_eqb text answer_text then Some answer_value else None.

(** A service that answers the structured request with [answer_text] and
    fails on any other request; its state counts the calls. *)
Definition service_structured (r : Translate.request) : M nat str :=
  fun n =>
    match r with
    | Translate.StructuredRequest _ _ _ _ => (Ok answer_text, S n)
    | _ => (Raise APIError, S n)
    end.

(** A service that answers every structured request in prose, translates
    free text, and fails on names. *)
Definition service_prose (r : Translate.request) : M nat str :=
  fun n =>
    match r with
    | Translate.StructuredRequest _ _ _ _ => (Ok (lit "Sorry, no JSON."), S n)
    | Translate.ReviewRequest _ => (Ok (lit " A fine book. "), S n)
    | Translate.PersonRequest _ => (Raise APIError, S n)
    end.

(** A book (书) by 张三 and 李四, rated 4, without a comment; and the same
    with the comment 好书. *)
Definition book_without_comment : Translate.raw_item :=
  Translate.MkRaw (Some Translate.BOOK) (Some [0x4E66%N])
                  (Some (lit "douban/1")) (Some 4) (Some [])
                  (Some [zhang_san; li_si]) None.

Definition book_with_comment : Translate.raw_item :=
  Translate.MkRaw (Some Translate.BOOK) (Some [0x4E66%N])
                  (Some (lit "douban/1")) (Some 4) (Some [0x597D; 0x4E66]%N)
                  (Some [zhang_san; li_si]) None.

(** A service that answers the structured request with the empty object
    and translates free text; and one whose structured answer has the
    title [\ud800], an escape that [json.loads] reads as the surrogate it
    names. *)
Definition empty_object_text : str := lit "{}".

Definition surrogate_text : str :=
  lit "{" ++ quoted "title_en" ++ lit ": " ++ [34%N; 92%N] ++ lit "ud800"
  ++ [34%N] ++ lit "}".

Definition loads_more (text : str) : option Translate.json :=
  if Translate.str_eqb text empty_object_text then Some (Translate.JObj [])
  else if Translate.str_eqb text surrogate_text
       then Some (Translate.JObj
                    [(Translate.TITLE_EN, Translate.JStr [0xD800%N])])
       else loads_sample text.

Definition service_empty_object (r : Translate.request) : M nat str :=
  fun n =>
    match r with
    | Translate.StructuredRequest _ _ _ _ => (Ok empty_object_text, S n)
    | Translate.ReviewRequest _ => (Ok (lit " A fine book. "), S n)
    | Translate.PersonRequest _ => (Raise APIError, S n)
    end.

Definition service_surrogate (r : Translate.request) : M nat str :=
  fun n =>
    match r with
    | Translate.StructuredRequest _ _ _ _ => (Ok surrogate_text, S n)
    | _ => (Raise APIError, S n)
    end.

(** A file system that refuses nothing; its state counts the writes. *)
Definition disk_open (writes : nat) : bool * nat := (true, writes).

Definition disk_write (translated : list Translate.out_item) (writes : nat)
  : bool * nat :=
  (true, S writes).

(** The book of before, with the comment, its people given as [" 张三 "]
    and [" "]. *)
Definition book_untidy_people : Translate.raw_item :=
  Translate.MkRaw (Some Translate.BOOK) (Some [0x4E66%N])
                  (Some (lit "douban/1")) (Some 4) (Some [0x597D; 0x4E66]%N)
                  (Some [32%N :: zhang_san ++ [32%N]; [32%N]]) None.

(** A destination site whose search always proposes the same new URL, and
    one whose search finds nothing; their state counts the searches. *)
Definition site_always_new (title people : str) (w : nat) : option str * nat :=
  (Some (lit "site/new"), S w).

Definition site_finds_nothing (title people : str) (w : nat)
  : option str * nat :=
  (None, S w).

Definition translated_1 : Search.item :=
  Search.MkItem (Some (lit "douban/1")) (Some (lit "Title One")) None
                (Some (lit "Author")) (Some (lit "Director")).

Definition translated_2 : Search.item :=
  Search.MkItem (Some (lit "douban/2")) None (Some (lit "Title Two"))
                None None.

Definition existing_one : gmap str str :=
  {[ lit "douban/1" := lit "site/old" ]}.

End Samples.

(* ===================================================================== *)
(** * douban_crawl.py: pages, pagination and directors                    *)
(* ===================================================================== *)

Module CrawlPages.
Import Py.

(** What a call gives: a value, or the exception it raises. *)
Inductive attempt (E A : Type) : Type :=
| Returned (a : A)
| Raised (e : E).
Arguments Returned {E A} a.
Arguments Raised {E A} e.

(** The one exception the page parsers raise by themselves. *)
Inductive index_error : Type := IndexError.

(** [text.split("/", 1)[0]]: what precedes the first slash. *)
Fixpoint before_slash (s : str) : str :=
  match s with
  | c :: s' => if (c =? 0x2F)%N then [] else c :: before_slash s'
  | [] => []
  end.

(** The first item of [s.split()], for [s] that starts with no white
    space. *)
Fixpoint take_word (s : str) : str :=
  match s with
  | c :: s' => if isspace c then [] else c :: take_word s'
  | [] => []
  end.

(** [s.split()[0]]; [None] is the [IndexError] of an [s] without a word. *)
Definition first_word (s : str) : option str :=
  match lstrip s with
  | [] => None
  | c :: w => Some (take_word (c :: w))
  end.

(** [s.find(tok)]; [None] stands for -1. *)
Fixpoint find_from (tok s : str) (i : nat) : option nat :=
  match strip_prefix tok s with
  | Some _ => Some i
  | None =>
      match s with
      | [] => None
      | _ :: s' => find_from tok s' (S i)
      end
  end.

Definition find (tok s : str) : option nat := find_from tok s 0.

(** ** Directors *)

(** 导演 *)
Definition DAOYAN : str := [0x5BFC; 0x6F14]%N.
Definition DIRECTOR : str := Eval cbv in lit "director".

(** The [stop_tokens] of [extract_directors_from_detail]: 主演 演员 类型 片长
    又名 首播 上映 语言 编剧 国家 地区 季数 集数 Starring Cast. *)
Definition stop_tokens : list str :=
  [[0x4E3B; 0x6F14]; [0x6F14; 0x5458]; [0x7C7B; 0x578B]; [0x7247; 0x957F];
   [0x53C8; 0x540D]; [0x9996; 0x64AD]; [0x4E0A; 0x6620]; [0x8BED; 0x8A00];
   [0x7F16; 0x5267]; [0x56FD; 0x5BB6]; [0x5730; 0x533A]; [0x5B63; 0x6570];
   [0x96C6; 0x6570]]%N
  ++ [lit "Starring"; lit "Cast"].

(** A lower-case ASCII letter [p] of the pattern against [c] under
    [re.IGNORECASE]: [c] is [p], its capital, or one of the non-ASCII
    letters that fold to it (İ and ı for i, ſ for s, the Kelvin sign for
    k). *)
Definition ci_letter (p c : char) : bool :=
  (c =? p)%N || (c =? p - 32)%N
  || ((p =? 0x69)%N && ((c =? 0x130)%N || (c =? 0x131)%N))
  || ((p =? 0x73)%N && (c =? 0x17F)%N)
  || ((p =? 0x6B)%N && (c =? 0x212A)%N).

Fixpoint match_ci (pat s : str) : option str :=
  match pat with
  | [] => Some s
  | p :: pat' =>
      match s with
      | c :: s' => if ci_letter p c then match_ci pat' s' else None
      | [] => None
      end
  end.

(** [[:：]\s*] at the head of [s]; what follows the match. *)
Definition colon_and_space (s : str) : option str :=
  match s with
  | c :: s' =>
      if (c =? 0x3A)%N || (c =? 0xFF1A)%N then Some (lstrip s') else None
  | [] => None
  end.

(** [(导演|Director(?:s)?)[:：]\s*] at the head of [s], case ignored; what
    follows the match.  The optional [s] is tried first, then left out. *)
Definition match_label (s : str) : option str :=
  match strip_prefix DAOYAN s with
  | Some r => colon_and_space r
  | None =>
      match match_ci DIRECTOR s with
      | Some r =>
          match r with
          | c :: r' =>
              if ci_letter 0x73 c then
                match colon_and_space r' with
                | Some rest => Some rest
                | None => colon_and_space r
                end
              else colon_and_space r
          | [] => None
          end
      | None => None
      end
  end.

(** [re.search] of the label: [info_text[m.end():]] for the leftmost
    match. *)
Fixpoint label_search (s : str) : option str :=
  match match_label s with
  | Some rest => Some rest
  | None =>
      match s with
      | [] => None
      | _ :: s' => label_search s'
      end
  end.

(** The loop over [stop_tokens]. *)
Definition stop_index (rest : str) : nat :=
  fold_left (fun stop_idx tok =>
               match find tok rest with
               | Some idx => if (idx <? stop_idx)%nat then idx else stop_idx
               | None => stop_idx
               end)
            stop_tokens (length rest).

(** The second tier of [extract_directors_from_detail], on the text of the
    [#info] block. *)
Definition directors_from_info (info_text : str) : list str :=
  match label_search info_text with
  | Some rest =>
      let segment := firstn (stop_index rest) rest in
      let segment := before_slash segment in
      Crawl.split_people segment
  | None => []
  end.

(** [extract_directors_from_detail].  [directed_by] is the text of the
    elements [soup.select('a[rel="v:directedBy"]')] finds, [info_text] the
    text of [soup.select_one("#info")] when there is one. *)
Definition extract_directors_from_detail (directed_by : list str)
           (info_text : option str) : list str :=
  match directed_by with
  | _ :: _ => directed_by
  | [] =>
      match info_text with
      | Some text => directors_from_info text
      | None => []
      end
  end.

(** ** Listing pages *)

(** What the parsers ask of one item element.  [e_link] is the title link
    ([h2 a] for a book; [li.title a], else [a.nbg], else [a] for a movie):
    its text and its [href] attribute.  [e_rating_classes] is the class list
    of the first descendant whose class attribute contains [rating];
    [e_classes] the element's own.  [e_comment], [e_pub] and [e_date] are
    the text of [.comment], of [.pub], and of the date element ([.pubtime],
    else [.date], for a book; [.date] for a movie), each as
    [get_text(strip=True)] gives it ([get_text(" ", strip=True)] for
    [.pub]). *)
Record element : Type := MkElement {
  e_link : option (str * option str);
  e_rating_classes : option (list str);
  e_classes : list str;
  e_comment : option str;
  e_pub : option str;
  e_date : option str
}.

(** The dictionaries the parsers build. *)
Record book : Type := MkBook {
  b_category : str;
  b_title_zh : str;
  b_subject_url : str;
  b_rating : option Z;
  b_comment_zh : str;
  b_comment_date : str;
  b_authors_zh : list str
}.

Record movie : Type := MkMovie {
  m_category : str;
  m_title_zh : str;
  m_subject_url : str;
  m_rating : option Z;
  m_comment_zh : str;
  m_comment_date : str;
  m_directors_zh : list str
}.

Definition text_or_empty (t : option str) : str :=
  match t with Some s => s | None => [] end.

Section Parsers.

Variable decimal : char -> option N.
Variable max_str_digits : N.

(** One turn of the loop of [parse_book_collect_page]: [None] when the
    element is passed over. *)
Definition parse_book_item (it : element)
  : attempt index_error (option book) :=
  match e_link it with
  | None => Returned None
  | Some (title, href_attr) =>
      let href := strip (text_or_empty href_attr) in
      let rating := Crawl.item_rating decimal max_str_digits
                                      (e_rating_classes it) (e_classes it) in
      let comment := text_or_empty (e_comment it) in
      let authors :=
        match e_pub it with
        | Some pub_text => Crawl.split_people (before_slash pub_text)
        | None => []
        end in
      match e_date it with
      | None =>
          Returned (Some (MkBook Translate.BOOK title href rating comment []
                                 authors))
      | Some raw_date =>
          match first_word raw_date with
          | Some date_text =>
              Returned (Some (MkBook Translate.BOOK title href rating comment
                                     date_text authors))
          | None => Raised IndexError
          end
      end
  end.

(** [parse_book_collect_page] on the elements [soup.select(".subject-item")]
    finds. *)
Fixpoint parse_book_collect_page (items : list element)
  : attempt index_error (list book) :=
  match items with
  | [] => Returned []
  | it :: rest =>
      match parse_book_item it with
      | Raised e => Raised e
      | Returned o =>
          match parse_book_collect_page rest with
          | Raised e => Raised e
          | Returned result =>
              Returned (match o with Some b => b :: result | None => result end)
          end
      end
  end.

Definition parse_movie_item (it : element) : option movie :=
  match e_link it with
  | None => None
  | Some (title, href_attr) =>
      let href := strip (text_or_empty href_attr) in
      let rating := Crawl.item_rating decimal max_str_digits
                                      (e_rating_classes it) (e_classes it) in
      let comment := text_or_empty (e_comment it) in
      let date_text := text_or_empty (e_date it) in
      Some (MkMovie Translate.MOVIE title href rating comment date_text [])
  end.

(** [parse_movie_collect_page] on the elements [soup.select(".item")]
    finds. *)
Definition parse_movie_collect_page (items : list element) : list movie :=
  List.flat_map (fun it => match parse_movie_item it with
                           | Some m => [m]
                           | None => []
                           end) items.

End Parsers.

(** ** Pagination and enrichment *)

Section Crawler.

(** The source site: [fetch_html url net] is the page text, or [None] on a
    status other than 200 or an exception, and the site afterwards. *)
Variable Net : Type.
Variable fetch_html : str -> Net -> option str * Net.

(** The site and the requests made so far, oldest first, each with what
    came back. *)
Definition crawl_state : Type := Net * list (str * option str).

Definition fetch_logged (url : str) (s : crawl_state)
  : option str * crawl_state :=
  let '(net, log) := s in
  let '(html, net') := fetch_html url net in
  (html, (net', log ++ [(url, html)])).

Definition page_url (base_url : str) (per_page page_idx : Z) : str :=
  base_url ++ lit "?start=" ++ str_of_int (page_idx * per_page)
           ++ lit "&sort=time&rating=all&filter=all&mode=grid".

Section Pagination.

Variables (A E : Type).
Variable parser : str -> attempt E (list A).

(** The loop of [crawl_collect_list] from page [page_idx] on, with
    [remaining] turns left. *)
Fixpoint crawl_from (base_url : str) (per_page : Z) (remaining : nat)
         (page_idx : Z) (all_items : list A) (s : crawl_state)
  : attempt E (list A) * crawl_state :=
  match remaining with
  | O => (Returned all_items, s)
  | S n =>
      let '(html, s') := fetch_logged (page_url base_url per_page page_idx) s in
      match html with
      | None => (Returned all_items, s')
      | Some h =>
          if negb (nonempty h) then (Returned all_items, s')
          else
            match parser h with
            | Raised e => (Raised e, s')
            | Returned [] => (Returned all_items, s')
            | Returned (i :: items) =>
                crawl_from base_url per_page n (page_idx + 1)
                           (all_items ++ i :: items) s'
            end
      end
  end.

Definition crawl_collect_list (base_url : str) (max_pages per_page : Z)
           (s : crawl_state) : attempt E (list A) * crawl_state :=
  crawl_from base_url per_page (Z.to_nat max_pages) 0 [] s.

End Pagination.

(** The two queries [extract_directors_from_detail] makes on a detail
    page. *)
Variable directed_by_of : str -> list str.
Variable info_text_of : str -> option str.

Definition set_directors (item : movie) (dirs : list str) : movie :=
  MkMovie (m_category item) (m_title_zh item) (m_subject_url item)
          (m_rating item) (m_comment_zh item) (m_comment_date item) dirs.

(** One turn of the loop of [enrich_movie_directors]. *)
Definition enrich_item (item : movie) (s : crawl_state)
  : movie * crawl_state :=
  let url := m_subject_url item in
  if negb (nonempty url) then (item, s)
  else
    let '(html, s') := fetch_logged url s in
    match html with
    | None => (item, s')
    | Some h =>
        if negb (nonempty h) then (item, s')
        else
          (set_directors item
             (extract_directors_from_detail (directed_by_of h) (info_text_of h)),
           s')
    end.

Fixpoint enrich_movie_directors (movies : list movie) (s : crawl_state)
  : list movie * crawl_state :=
  match movies with
  | [] => ([], s)
  | item :: rest =>
      let '(item', s1) := enrich_item item s in
      let '(rest', s2) := enrich_movie_directors rest s1 in
      (item' :: rest', s2)
  end.

End Crawler.

End CrawlPages.

(* ===================================================================== *)
(** * search.py: the site searches and the mapping file                   *)
(* ===================================================================== *)

Module SearchSite.
Import Py.

(** [href.split("?")[0]]: what precedes the first question mark. *)
Fixpoint before_query (s : str) : str :=
  match s with
  | c :: s' => if (c =? 0x3F)%N then [] else c :: before_query s'
  | [] => []
  end.

(** [s.replace(" ", "+")] *)
Definition spaces_to_plus (s : str) : str :=
  List.map (fun c => if (c =? 0x20)%N then 0x2B%N else c) s.

(** [q]: the parts that are not empty, joined by [+], spaces replaced. *)
Definition search_query (title people : str) : str :=
  spaces_to_plus (join (lit "+") (List.filter nonempty [title; people])).

Definition GOODREADS : str := Eval cbv in lit "https://www.goodreads.com".
Definition IMDB : str := Eval cbv in lit "https://www.imdb.com".

Definition goodreads_search_url (title author : str) : str :=
  GOODREADS ++ lit "/search?q=" ++ search_query title author.

Definition imdb_search_url (title director : str) : str :=
  IMDB ++ lit "/find/?q=" ++ search_query title director ++ lit "&s=tt&ttype=ft".

(** [href.startswith("/")] *)
Definition is_relative (href : str) : bool :=
  match href with
  | c :: _ => (c =? 0x2F)%N
  | [] => false
  end.

Section Site.

(** A destination site: [fetch_html url w] is the page text, or [None] on a
    status other than 200 or an exception, and the site afterwards. *)
Variable W : Type.
Variable fetch_html : str -> W -> option str * W.

(** [soup.select_one(selector)] on a page text: [None] when nothing
    matches, else the [href] attribute of the first match, if it has one. *)
Variable select_one : str -> str -> option (option str).

(** [a.get("href")] when [a and a.get("href")] holds. *)
Definition truthy_href (a : option (option str)) : option str :=
  match a with
  | Some (Some href) => if nonempty href then Some href else None
  | _ => None
  end.

Definition search_goodreads (title author : str) (w : W) : option str * W :=
  let '(html, w') := fetch_html (goodreads_search_url title author) w in
  match html with
  | None => (None, w')
  | Some h =>
      if negb (nonempty h) then (None, w')
      else
        let a :=
          match select_one (lit "a.bookTitle") h with
          | Some e => Some e
          | None => select_one (lit ".bookTitle") h
          end in
        match truthy_href a with
        | Some href =>
            if is_relative href then (Some (GOODREADS ++ href), w')
            else (Some href, w')
        | None => (None, w')
        end
  end.

Definition search_imdb (title director : str) (w : W) : option str * W :=
  let '(html, w') := fetch_html (imdb_search_url title director) w in
  match html with
  | None => (None, w')
  | Some h =>
      if negb (nonempty h) then (None, w')
      else
        match truthy_href (select_one (lit "td.result_text a") h) with
        | Some href =>
            if is_relative href then (Some (IMDB ++ before_query href), w')
            else (Some (before_query href), w')
        | None => (None, w')
        end
  end.

End Site.

(** The rows [save_mapping] writes, one per entry of the mapping.  The
    file has them in the order of the [dict]; a map keeps no order, and what
    is proved of these rows is proved of them in every order. *)
Definition save_rows (mapping : gmap str str) : list ImportData.row :=
  List.map (fun kv => ImportData.MkRow (Some (fst kv)) None (Some (snd kv)) None)
           (map_to_list mapping).

(** [load_mapping] of search.py reads the rows as [load_mapping] of
    import_data.py does (it only prints no warning for a missing file). *)
Definition load_mapping (rows : list ImportData.row) : gmap str str :=
  ImportData.load_mapping rows.

End SearchSite.

(* ===================================================================== *)
(** * Further notions used to state what the code does                    *)
(* ===================================================================== *)

Module Notions.
Import Py.

(** [t] occurs in [s] as a contiguous part. *)
Definition infix (t s : str) : Prop := exists a b, s = a ++ t ++ b.

(** A name as the splitters return it: not empty, trimmed, free of the
    separators. *)
Definition clean_name (sep : char -> bool) (p : str) : Prop :=
  p <> [] /\ strip p = p /\ Forall (fun c => sep c = false) p.

(** ** Pagination *)

Section Pages.

Variables (A E : Type).
Variable parser : str -> CrawlPages.attempt E (list A).

(** A page that keeps the crawl going: fetched, not empty, parsed into at
    least one item. *)
Definition page_goes_on (h : str) : Prop :=
  h <> [] /\ exists i items, parser h = CrawlPages.Returned (i :: items).

(** A response that ends the crawl quietly: a failed fetch, an empty page
    text, or a page without items. *)
Definition page_ends (r : option str) : Prop :=
  r = None \/ r = Some []
  \/ exists h, r = Some h /\ parser h = CrawlPages.Returned [].

Definition page_items (h : str) : list A :=
  match parser h with
  | CrawlPages.Returned items => items
  | CrawlPages.Raised _ => []
  end.

End Pages.

(** A response that gives [enrich_movie_directors] nothing to read. *)
Definition no_page (r : option str) : Prop := r = None \/ r = Some [].

(** Two movie records that agree on everything but the directors. *)
Definition same_but_directors (m m' : CrawlPages.movie) : Prop :=
  CrawlPages.set_directors m (CrawlPages.m_directors_zh m') = m'.

(** ** Listing pages *)

(** The title of an element that has a title link. *)
Definition linked_title (it : CrawlPages.element) : option str :=
  match CrawlPages.e_link it with
  | Some (title, _) => Some title
  | None => None
  end.

(** Whether an element has a title link. *)
Definition has_link (it : CrawlPages.element) : bool :=
  match CrawlPages.e_link it with Some _ => true | None => false end.

(** [w] is the first word of [raw]: [raw] is white space, then [w], which
    holds none and is not empty, then a white-space character or the end of
    the text. *)
Definition first_word_of (raw w : str) : Prop :=
  w <> [] /\ Forall (fun c => isspace c = false) w
  /\ exists a rest,
      raw = a ++ w ++ rest /\ Forall (fun c => isspace c = true) a
      /\ match rest with [] => True | c :: _ => isspace c = true end.

(** [x] is what precedes the first slash of [text]: all of it when it has
    no slash. *)
Definition up_to_slash (text x : str) : Prop :=
  Forall (fun c => c <> 0x2F%N) x
  /\ (text = x \/ exists y, text = x ++ 0x2F%N :: y).

(** What the record [b] of a book page holds, for the item [it] it was read
    from. *)
Definition book_of (decimal : char -> option N) (limit : N)
           (it : CrawlPages.element) (b : CrawlPages.book) : Prop :=
  exists title href,
    CrawlPages.e_link it = Some (title, href)
    /\ CrawlPages.b_category b = Translate.BOOK
    /\ CrawlPages.b_title_zh b = title
    /\ CrawlPages.b_subject_url b
       = strip (match href with Some h => h | None => [] end)
    /\ Spec.first_reading decimal limit
         (match CrawlPages.e_rating_classes it with
          | Some classes => classes
          | None => []
          end ++ CrawlPages.e_classes it)
         (CrawlPages.b_rating b)
    /\ CrawlPages.b_comment_zh b
       = match CrawlPages.e_comment it with Some c => c | None => [] end
    /\ match CrawlPages.e_date it with
       | Some raw => first_word_of raw (CrawlPages.b_comment_date b)
       | None => CrawlPages.b_comment_date b = []
       end
    /\ match CrawlPages.e_pub it with
       | Some pub =>
           exists x, up_to_slash pub x
                     /\ CrawlPages.b_authors_zh b = Crawl.split_people x
       | None => CrawlPages.b_authors_zh b = []
       end.

(** An element with a title link whose date element holds no word. *)
Definition blank_date (it : CrawlPages.element) : Prop :=
  CrawlPages.e_link it <> None
  /\ exists raw, CrawlPages.e_date it = Some raw
                 /\ Forall (fun c => isspace c = true) raw.

(** 导演: 张艺谋 主演: 某某 *)
Definition info_zhang_yimou : str :=
  [0x5BFC; 0x6F14; 0x3A; 0x20; 0x5F20; 0x827A; 0x8C0B; 0x20;
   0x4E3B; 0x6F14; 0x3A; 0x20; 0x67D0; 0x67D0]%N.

Definition zhang_yimou : str := [0x5F20; 0x827A; 0x8C0B]%N.

(** ** Mappings *)

(** No empty key and no empty target. *)
Definition well_formed (mapping : gmap str str) : Prop :=
  forall k v, mapping !! k = Some v -> k <> [] /\ v <> [].

(** What a search brought for the mapping: its target when it is a
    non-empty string. *)
Definition found (q : Search.query) : option str :=
  match Search.q_target q with
  | Some t => if nonempty t then Some t else None
  | None => None
  end.

(** The target of the last search for [k] that found something. *)
Fixpoint last_found (k : str) (log : list Search.query) : option str :=
  match log with
  | [] => None
  | q :: log' =>
      match last_found k log' with
      | Some t => Some t
      | None => if bool_decide (Search.q_src q = k) then found q else None
      end
  end.

(** The entry a row of a mapping file stands for, if it stands for one. *)
Definition row_entry (r : ImportData.row) : option (str * str) :=
  match ImportData.py_or (ImportData.row_subject_url r) (ImportData.row_source r),
        ImportData.py_or (ImportData.row_target_url r) (ImportData.row_target r)
  with
  | Some s, Some d => if nonempty s && nonempty d then Some (s, d) else None
  | _, _ => None
  end.

(** The target of the last row that stands for an entry of key [k]. *)
Fixpoint last_entry (k : str) (rows : list ImportData.row) : option str :=
  match rows with
  | [] => None
  | r :: rest =>
      match last_entry k rest with
      | Some v => Some v
      | None =>
          match row_entry r with
          | Some (s, d) => if bool_decide (s = k) then Some d else None
          | None => None
          end
      end
  end.

(** The search a turn of the Resolver issues for an item. *)
Definition query_of (people_of : Search.item -> option str)
           (it : Search.item) (q : Search.query) : Prop :=
  Search.subject_url it = Some (Search.q_src q)
  /\ Search.q_src q <> []
  /\ Search.q_title q
     = first_truthy [Search.title it; Search.title_en it]
  /\ Search.q_people q = first_truthy [people_of it].

(** The searches [log] are for items of [items], in list order, at most one
    for each. *)
Inductive searched (people_of : Search.item -> option str)
  : list Search.item -> list Search.query -> Prop :=
| searched_done : searched people_of [] []
| searched_skip it items log :
    searched people_of items log ->
    searched people_of (it :: items) log
| searched_query it items q log :
    query_of people_of it q ->
    searched people_of items log ->
    searched people_of (it :: items) (q :: log).

(** ** Posting a review *)

(** The candidate locators of the comment box and of the submit button. *)
Definition goodreads_comment_boxes : list str :=
  [lit "#review_review_text"; lit "textarea[name='review[review]']";
   lit "textarea#review_text"; lit "textarea[id*='review']"].

Definition goodreads_submit_buttons : list str :=
  [lit "#review_submit"; lit "input[type='submit'][value*='Save']";
   lit "button[type='submit']"; lit "input[name='commit']";
   lit "button[name='commit']"].

Definition imdb_comment_boxes : list str :=
  [lit "textarea"; lit "textarea[name*='review']"].

Definition imdb_submit_buttons : list str :=
  [lit "button[type='submit']"; lit "input[type='submit']"].

(** The message of the [RuntimeError] raised when no comment box of the
    first destination is found. *)
Definition no_box_goodreads : string :=
  "找不到 Goodreads 评论输入框，需手动调整选择器".

(** How a posting ends on a page where [ok] tells which calls succeed:
    with the navigation, the comment box, the submit button and the final
    wait, in that order, each deciding. *)
Definition post_decision (ok : ImportData.action -> bool) (target comment : str)
           (boxes buttons : list str) (wait : Z) (no_box no_button : string)
  : res unit :=
  if negb (ok (ImportData.Goto target)) then Raise PageError
  else if negb (existsb (fun sel => ok (ImportData.Fill sel comment)) boxes)
  then Raise (RuntimeError no_box)
  else if negb (existsb (fun sel => ok (ImportData.Click sel)) buttons)
  then Raise (RuntimeError no_button)
  else if negb (ok (ImportData.WaitForTimeout wait)) then Raise PageError
  else Ok tt.

(** ** A run of the Publisher *)

Definition call_log : Type := list (ImportData.action * bool).

(** What a computation may leave behind: how it ended, and the calls it
    made. *)
Definition ending (A : Type) : Type := res A -> call_log -> Prop.

Definition nothing : ending unit := fun r new => r = Ok tt /\ new = [].

(** A call outside any [try]: it is made once; the computation goes on when
    it returned and ends with [e] when it raised. *)
Definition outside (a : ImportData.action) (e : exn) : ending unit :=
  fun r new =>
    (r = Ok tt /\ new = [(a, true)]) \/ (r = Raise e /\ new = [(a, false)]).

(** A call in a [try] whose handler passes: it is made once, and the
    computation goes on whatever it did. *)
Definition inside (a : ImportData.action) : ending unit :=
  fun r new => r = Ok tt /\ exists ok, new = [(a, ok)].

(** [P] and then [Q], unless [P] ended with an exception, which then ends
    the whole. *)
Definition and_then {A B : Type} (P : ending A) (Q : ending B) : ending B :=
  fun r new =>
    (exists e, r = Raise e /\ P (Raise e) new)
    \/ (exists x new1 new2,
           P (Ok x) new1 /\ Q r new2 /\ new = new1 ++ new2).

(** A call on the page. *)
Definition page_call (c : ImportData.action * bool) : Prop :=
  match fst c with
  | ImportData.Goto _ | ImportData.Click _ | ImportData.Fill _ _
  | ImportData.WaitForTimeout _ => True
  | _ => False
  end.

(** The calls of a posting: the navigation to the target, then calls on the
    page only. *)
Definition posting_calls (target : str) (new : call_log) : Prop :=
  exists ok rest,
    new = (ImportData.Goto target, ok) :: rest /\ Forall page_call rest.

(** The target and the comment of a record that has both. *)
Definition postable (mapping : gmap str str) (it : ImportData.item)
  : option (str * str) :=
  match ImportData.get_target_url mapping it with
  | Some target =>
      if nonempty target && nonempty (Spec.comment_text it)
      then Some (target, Spec.comment_text it)
      else None
  | None => None
  end.

(** The turn of a record.  A record without target or comment is passed
    over and nothing is asked.  Any other record is announced; a posting
    follows, and when the posting raised, a warning.  The turn ends with an
    exception only when one of the two prints raised. *)
Definition record_ending (label : str) (mapping : gmap str str)
           (it : ImportData.item) : ending ImportData.outcome :=
  fun r new =>
    match postable mapping it with
    | None =>
        (r = Ok ImportData.SkippedNoMapping
         \/ r = Ok ImportData.SkippedNoComment) /\ new = []
    | Some (target, _) =>
        let said :=
          ImportData.Print
            (ImportData.Announced (ImportData.announce label it target)) in
        (r = Raise TerminalError /\ new = [(said, false)])
        \/ exists body,
            posting_calls target body
            /\ ((r = Ok ImportData.Posted /\ new = (said, true) :: body)
                \/ exists e ok,
                    new = (said, true) :: body
                          ++ [(ImportData.Print (ImportData.Warned target e),
                               ok)]
                    /\ r = if ok then Ok (ImportData.Failed e)
                           else Raise TerminalError)
    end.

(** The loop: the turns of the records, in list order. *)
Fixpoint loop_ending (label : str) (mapping : gmap str str)
         (items : list ImportData.item) : ending unit :=
  match items with
  | [] => nothing
  | it :: rest =>
      and_then (record_ending label mapping it)
               (loop_ending label mapping rest)
  end.

(** A run: the browser is launched, a page opened, the operator waited
    for when that is asked, the records are taken, the browser is
    closed. *)
Definition run_ending (profile home name label : str)
           (headless wait_for_login : bool) (mapping : gmap str str)
           (items : list ImportData.item) : ending unit :=
  and_then (outside (ImportData.Launch profile headless) PageError)
    (and_then (outside ImportData.NewPage PageError)
       (and_then
          (if wait_for_login
           then and_then (inside (ImportData.Goto home))
                         (outside (ImportData.Input
                                     (ImportData.login_prompt name))
                                  TerminalError)
           else nothing)
          (and_then (loop_ending label mapping items)
                    (outside ImportData.Close PageError)))).

(** The computation [m], from any state, makes calls that the browser or
    the terminal answered as recorded, each in the state the call before
    left, and leaves them and its result as [P] says. *)
Definition runs {Pg A : Type} (perform : ImportData.action -> Pg -> bool * Pg)
           (m : M (ImportData.session Pg) A) (P : ending A) : Prop :=
  forall pg log,
  exists r pg' new,
    m (pg, log) = (r, (pg', log ++ new))
    /\ Spec.replays perform pg new pg' /\ P r new.

(** Calls on the page only, however the computation ends. *)
Definition on_page {A : Type} : ending A :=
  fun _ new => Forall page_call new.

(** The announcements that were printed, and those a list of records
    calls for. *)
Definition announced (new : call_log) : list str :=
  omap (fun c => match c with
                 | (ImportData.Print (ImportData.Announced text), true) =>
                     Some text
                 | _ => None
                 end) new.

Definition announcements (label : str) (mapping : gmap str str)
           (items : list ImportData.item) : list str :=
  omap (fun it => match postable mapping it with
                  | Some (target, _) =>
                      Some (ImportData.announce label it target)
                  | None => None
                  end) items.

(** ** The answer of the structured call *)

(** How a member of the answer is read: absent or falsy as the empty text,
    a text as that text trimmed. *)
Definition reads_as (v : option Translate.json) (s : str) : Prop :=
  (v = None /\ s = [])
  \/ (exists j, v = Some j /\ Translate.truthy j = false /\ s = [])
  \/ (exists text, v = Some (Translate.JStr text) /\ text <> []
                   /\ s = strip text).

End Notions.

(* ===================================================================== *)
(** * Further sample inputs                                               *)
(* ===================================================================== *)

Module MoreSamples.
Import Py.

(** A source site that answers no request; its state counts them. *)
Definition net_down (url : str) (n : nat) : option str * nat := (None, S n).

Definition no_anchor (html : str) : list str := [].
Definition no_info (html : str) : option str := None.

(** 英雄 / Hero *)
Definition hero_title : str := [0x82F1; 0x96C4]%N ++ lit " / Hero".

Definition movie_hero : CrawlPages.movie :=
  CrawlPages.MkMovie Translate.MOVIE hero_title (lit "douban/m1") (Some 5)
                     [] (lit "2020-01-02") [].

Definition raw_movie_hero : Translate.raw_item :=
  Translate.MkRaw (Some Translate.MOVIE) (Some hero_title)
                  (Some (lit "douban/m1")) (Some 5) (Some []) None
                  (Some [Samples.zhang_san]).

(** An item of a book page: 书, by 张三, with a publisher after the slash;
    and the same item with a date element that holds no text. *)
Definition book_element : CrawlPages.element :=
  CrawlPages.MkElement
    (Some ([0x4E66%N], Some (lit " douban/1 ")))
    (Some [lit "rating4-t"]) [lit "subject-item"]
    (Some [0x597D%N])
    (Some (Samples.zhang_san ++ 0x2F%N :: lit " Press / 2020"))
    (Some (lit "2020-01-02 read")).

Definition book_element_blank_date : CrawlPages.element :=
  CrawlPages.MkElement
    (Some ([0x4E66%N], Some (lit " douban/1 ")))
    (Some [lit "rating4-t"]) [lit "subject-item"]
    (Some [0x597D%N]) None (Some []).

Definition book_parsed : CrawlPages.book :=
  CrawlPages.MkBook Translate.BOOK [0x4E66%N] (lit "douban/1") (Some 4)
                    [0x597D%N] (lit "2020-01-02") [Samples.zhang_san].

(** A completion service that fails on every request. *)
Definition service_down (r : Translate.request) : M nat str :=
  fun n => (Raise APIError, S n).

(** A page on which nothing works, and one on which only the navigation
    does. *)
Definition page_offline (a : ImportData.action) (pg : nat) : bool * nat :=
  (false, S pg).

Definition page_blank (a : ImportData.action) (pg : nat) : bool * nat :=
  (match a with ImportData.Goto _ => true | _ => false end, S pg).

(** A mapping file with two rows for the same key and one row without a
    target. *)
Definition rows_twice : list ImportData.row :=
  [ImportData.MkRow (Some (lit "douban/1")) None (Some (lit "site/a")) None;
   ImportData.MkRow None (Some (lit "douban/1")) None (Some (lit "site/b"));
   ImportData.MkRow (Some (lit "douban/2")) None None None].

End MoreSamples.

(* ===================================================================== *)
(** * Facts about the Python runtime                                      *)
(* ===================================================================== *)

Module PyFacts.
Import Py.

Lemma nonempty_true (s : str) : s <> [] -> nonempty s = true.
Proof. destruct s; [contradiction | reflexivity]. Qed.

Lemma nonempty_false (s : str) : nonempty s = false <-> s = [].
Proof. destruct s; split; (reflexivity || discriminate). Qed.

Lemma strip_prefix_app (p s r : str) :
  strip_prefix p s = Some r <-> s = p ++ r.
Proof.
  revert s; induction p as [|a p IH]; intros s; simpl.
  - split; congruence.
  - destruct s as [|b s]; [split; discriminate|].
    destruct (N.eqb_spec a b) as [->|Hne].
    + rewrite IH. split; [intros ->; reflexivity | congruence].
    + split; [discriminate | congruence].
Qed.

Lemma lstrip_suffix (s : str) : exists sp, s = sp ++ lstrip s.
Proof.
  induction s as [|c s [sp IH]]; simpl.
  - exists []; reflexivity.
  - destruct (isspace c).
    + exists (c :: sp). simpl. congruence.
    + exists []. reflexivity.
Qed.

Lemma lstrip_head (s : str) c t : lstrip s = c :: t -> isspace c = false.
Proof.
  induction s as [|a s IH]; simpl; [discriminate|].
  destruct (isspace a) eqn:E; [exact IH|].
  intros [= <- _]. exact E.
Qed.

Lemma lstrip_snoc (s : str) c :
  isspace c = false -> lstrip (s ++ [c]) = lstrip s ++ [c].
Proof.
  intros Hc. induction s as [|a s IH]; simpl.
  - rewrite Hc. reflexivity.
  - destruct (isspace a); [exact IH | reflexivity].
Qed.

Lemma rstrip_prefix (s : str) : exists sp, s = rstrip s ++ sp.
Proof.
  unfold rstrip. destruct (lstrip_suffix (rev s)) as [sp H].
  exists (rev sp).
  rewrite <- rev_app_distr, <- H. symmetry. apply rev_involutive.
Qed.

Lemma rstrip_cons (s : str) c :
  isspace c = false -> rstrip (c :: s) = c :: rstrip s.
Proof.
  intros Hc. unfold rstrip. simpl.
  rewrite lstrip_snoc by exact Hc.
  rewrite rev_app_distr. reflexivity.
Qed.

Lemma rstrip_last (s : str) t c : rstrip s = t ++ [c] -> isspace c = false.
Proof.
  unfold rstrip. intros H.
  apply (f_equal (@rev N)) in H.
  rewrite rev_involutive, rev_app_distr in H. simpl in H.
  eapply lstrip_head; exact H.
Qed.

(** What [strip] returns has no white space at either end. *)
Lemma strip_head (s : str) c t : strip s = c :: t -> isspace c = false.
Proof.
  unfold strip. destruct (lstrip s) as [|a u] eqn:E.
  - discriminate.
  - pose proof (lstrip_head _ _ _ E) as Ha.
    rewrite rstrip_cons by exact Ha. intros [= <- _]. exact Ha.
Qed.

Lemma strip_last (s : str) t c : strip s = t ++ [c] -> isspace c = false.
Proof. unfold strip. apply rstrip_last. Qed.

(** [strip] returns a contiguous part of its argument. *)
Lemma strip_infix (s : str) : exists a b, s = a ++ strip s ++ b.
Proof.
  unfold strip.
  destruct (lstrip_suffix s) as [a Ha].
  destruct (rstrip_prefix (lstrip s)) as [b Hb].
  exists a, b. rewrite <- Hb. exact Ha.
Qed.

Lemma strip_nil : strip [] = [].
Proof. reflexivity. Qed.

Lemma lstrip_fixed (s : str) c t :
  s = c :: t -> isspace c = false -> lstrip s = s.
Proof. intros -> H. simpl. rewrite H. reflexivity. Qed.

(** Trimming a trimmed string changes nothing. *)
Lemma strip_idem (s : str) : strip (strip s) = strip s.
Proof.
  destruct (strip s) as [|c t] eqn:E; [reflexivity|].
  pose proof (strip_head _ _ _ E) as Hc.
  unfold strip at 1. simpl. rewrite Hc.
  destruct (@exists_last _ (c :: t)) as (u & d & Hu); [discriminate|].
  rewrite Hu in *.
  pose proof (strip_last _ _ _ E) as Hd.
  unfold rstrip. rewrite rev_app_distr. simpl. rewrite Hd.
  simpl. rewrite rev_involutive. reflexivity.
Qed.

Lemma stripped_nonempty_cons (x : str) (l : list str) :
  stripped_nonempty (x :: l)
  = (if nonempty (strip x) then [strip x] else []) ++ stripped_nonempty l.
Proof.
  unfold stripped_nonempty. simpl.
  destruct (nonempty (strip x)); reflexivity.
Qed.

Lemma stripped_nonempty_nil_cons (l : list str) :
  stripped_nonempty ([] :: l) = stripped_nonempty l.
Proof. rewrite stripped_nonempty_cons. reflexivity. Qed.

Lemma split_on_cons_shape (sep : char -> bool) (s : str) :
  exists p ps, split_on sep s = p :: ps.
Proof.
  induction s as [|c s (p & ps & IH)]; simpl; [eauto|].
  destruct (sep c); [eauto|]. rewrite IH. eauto.
Qed.

(** With or without the [+], the segments that survive trimming are the
    same. *)
Lemma split_runs_from_split_on (sep : char -> bool) (s : str) :
  (exists p ps ps',
      split_runs_from sep false s = p :: ps
      /\ split_on sep s = p :: ps'
      /\ stripped_nonempty ps = stripped_nonempty ps')
  /\ stripped_nonempty (split_runs_from sep true s)
     = stripped_nonempty (split_on sep s).
Proof.
  induction s as [|c s [(p & ps & ps' & H1 & H2 & H3) IH2]]; simpl.
  - split; [exists [], [], []; auto | reflexivity].
  - destruct (sep c).
    + rewrite !stripped_nonempty_nil_cons.
      split; [exists [], (split_runs_from sep true s), (split_on sep s); auto
             | exact IH2].
    + rewrite H1, H2. split.
      * exists (c :: p), ps, ps'. auto.
      * rewrite !stripped_nonempty_cons, H3. reflexivity.
Qed.

Lemma split_runs_split_on (sep : char -> bool) (s : str) :
  stripped_nonempty (split_runs sep s) = stripped_nonempty (split_on sep s).
Proof.
  unfold split_runs.
  destruct (split_runs_from_split_on sep s) as [(p & ps & ps' & H1 & H2 & H3) _].
  rewrite H1, H2, !stripped_nonempty_cons, H3. reflexivity.
Qed.

(** Every segment is free of separators. *)
Lemma split_on_no_sep (sep : char -> bool) (s : str) :
  Forall (Forall (fun c => sep c = false)) (split_on sep s).
Proof.
  induction s as [|c s IH]; simpl.
  - repeat constructor.
  - destruct (sep c) eqn:E.
    + constructor; [constructor | exact IH].
    + destruct (split_on sep s) as [|p ps]; [repeat constructor; exact E|].
      inversion IH; subst. constructor; [constructor; assumption | assumption].
Qed.

(** The segments, put end to end, are the text without its separators:
    nothing else is lost and the order is kept. *)
Lemma split_on_concat (sep : char -> bool) (s : str) :
  List.concat (split_on sep s) = List.filter (fun c => negb (sep c)) s.
Proof.
  induction s as [|c s IH]; simpl; [reflexivity|].
  destruct (sep c); simpl; [exact IH|].
  destruct (split_on_cons_shape sep s) as (p & ps & E).
  rewrite E in *. simpl in *. rewrite IH. reflexivity.
Qed.

Lemma stripped_nonempty_filter_map (l : list str) :
  stripped_nonempty l = List.filter nonempty (List.map strip l).
Proof.
  unfold stripped_nonempty. induction l as [|x l IH]; simpl; [reflexivity|].
  destruct (nonempty (strip x)); simpl; rewrite IH; reflexivity.
Qed.

End PyFacts.

(* ===================================================================== *)
(** * douban_crawl.py: rating extraction and person lists                 *)
(* ===================================================================== *)

Module CrawlFacts.
Import Py Crawl Spec Samples PyFacts.

Section Rating.

Variable decimal : char -> option N.
Variable limit : N.

Let digit (c : char) : Prop := is_digit decimal c = true.

Lemma match_group_sound (s g : str) :
  match_group decimal s = Some g ->
  g <> [] /\ Forall digit g /\ exists post, s = g ++ DASH_T ++ post.
Proof.
  revert g. induction s as [|c s IH]; cbn [match_group]; intros g;
    [discriminate|].
  destruct (is_digit decimal c) eqn:Hc; [|discriminate].
  destruct (match_group decimal s) as [g0|].
  - intros [= <-]. destruct (IH g0 eq_refl) as (_ & Hd & post & ->).
    split; [discriminate|]. split; [constructor; assumption|].
    exists post. reflexivity.
  - destruct (strip_prefix DASH_T s) as [post|] eqn:P; [|discriminate].
    intros [= <-]. apply strip_prefix_app in P. subst s.
    split; [discriminate|]. split; [repeat constructor; exact Hc|].
    exists post. reflexivity.
Qed.

(** Whenever some digit group followed by [-t] starts [s], the matcher
    finds one, and none longer exists. *)
Lemma match_group_complete (g post : str) :
  g <> [] -> Forall digit g ->
  exists g', match_group decimal (g ++ DASH_T ++ post) = Some g'
             /\ (length g <= length g')%nat.
Proof.
  induction g as [|c g IH]; intros Hne Hd; [contradiction|].
  inversion Hd as [|? ? Hc Hd']; subst.
  change ((c :: g) ++ DASH_T ++ post) with (c :: g ++ DASH_T ++ post).
  cbn [match_group].
  unfold digit in Hc. rewrite Hc.
  destruct g as [|c' g].
  - change ([] ++ DASH_T ++ post) with (DASH_T ++ post).
    destruct (match_group decimal (DASH_T ++ post)) as [g0|].
    + exists (c :: g0). split; [reflexivity | simpl; lia].
    + assert (P : strip_prefix DASH_T (DASH_T ++ post) = Some post)
        by (apply strip_prefix_app; reflexivity).
      rewrite P. exists [c]. split; [reflexivity | simpl; lia].
  - destruct IH as (g' & -> & Hlen); [discriminate | assumption |].
    exists (c :: g'). split; [reflexivity | simpl in *; lia].
Qed.

Lemma match_here_sound (s g : str) :
  match_here decimal s = Some g -> matches_at decimal s g.
Proof.
  unfold match_here, matches_at.
  destruct (strip_prefix RATING s) as [rest|] eqn:P; [|discriminate].
  apply strip_prefix_app in P. subst s. intros H.
  destruct (match_group_sound _ _ H) as (Hne & Hd & post & ->).
  repeat split; [assumption .. | exists post; reflexivity].
Qed.

Lemma match_here_complete (s g : str) :
  matches_at decimal s g ->
  exists g', match_here decimal s = Some g' /\ (length g <= length g')%nat.
Proof.
  intros (Hne & Hd & post & ->). unfold match_here.
  assert (P : strip_prefix RATING (RATING ++ g ++ DASH_T ++ post)
              = Some (g ++ DASH_T ++ post))
    by (apply strip_prefix_app; reflexivity).
  rewrite P.
  destruct (match_group_complete g post Hne Hd) as (g' & Hg & Hlen).
  exists g'. split; [exact Hg | exact Hlen].
Qed.

(** The search returns the group of the leftmost position that matches. *)
Lemma re_search_some (s g : str) :
  re_search decimal s = Some g ->
  exists pre rest,
    s = pre ++ rest /\ match_here decimal rest = Some g
    /\ forall pre' rest', s = pre' ++ rest' ->
                          (length pre' < length pre)%nat ->
                          match_here decimal rest' = None.
Proof.
  induction s as [|c s IH].
  - discriminate.
  - cbn [re_search].
    destruct (match_here decimal (c :: s)) as [g0|] eqn:E.
    + intros [= <-]. exists [], (c :: s). repeat split; [assumption|].
      simpl. intros; lia.
    + intros H. destruct (IH H) as (pre & rest & -> & Hm & Hleft).
      exists (c :: pre), rest. repeat split; [assumption|].
      intros [|c' pre'] rest' Heq Hlen.
      * simpl in Heq. subst rest'. exact E.
      * simpl in Heq. injection Heq as -> Heq.
        apply (Hleft pre' rest' Heq). simpl in Hlen. lia.
Qed.

Lemma re_search_none (s : str) :
  re_search decimal s = None <->
  forall pre rest, s = pre ++ rest -> match_here decimal rest = None.
Proof.
  induction s as [|c s IH].
  - split; [|reflexivity].
    intros _ pre rest Heq. symmetry in Heq.
    apply app_eq_nil in Heq as [_ ->]. reflexivity.
  - cbn [re_search]. split.
    + destruct (match_here decimal (c :: s)) eqn:E; [discriminate|].
      intros H [|c' pre] rest Heq.
      * simpl in Heq. subst rest. exact E.
      * simpl in Heq. injection Heq as -> Heq.
        apply (proj1 IH H pre rest Heq).
    + intros H. rewrite (H [] (c :: s) eq_refl).
      apply IH. intros pre rest ->. apply (H (c :: pre) rest). reflexivity.
Qed.

Lemma re_search_none_iff (c : str) :
  re_search decimal c = None <-> ~ token_matches decimal c.
Proof.
  rewrite re_search_none. split.
  - intros H (pre & rest & g & Heq & Hm).
    destruct (match_here_complete _ _ Hm) as (g' & Hg' & _).
    rewrite (H pre rest Heq) in Hg'. discriminate.
  - intros H pre rest Heq.
    destruct (match_here decimal rest) as [g|] eqn:E; [|reflexivity].
    exfalso. apply H. exists pre, rest, g. split; [assumption|].
    apply match_here_sound. exact E.
Qed.

(** The captured group sits between [rating] and [-t] at the leftmost place
    where the pattern matches, and is the longest group that does so there. *)
Lemma re_search_leftmost_longest (c g : str) :
  re_search decimal c = Some g ->
  exists pre post,
    c = pre ++ RATING ++ g ++ DASH_T ++ post
    /\ g <> [] /\ Forall digit g
    /\ (forall pre' rest' g',
           c = pre' ++ rest' -> (length pre' < length pre)%nat ->
           ~ matches_at decimal rest' g')
    /\ (forall g',
           matches_at decimal (RATING ++ g ++ DASH_T ++ post) g' ->
           (length g' <= length g)%nat).
Proof.
  intros H. destruct (re_search_some _ _ H) as (pre & rest & -> & Hm & Hleft).
  destruct (match_here_sound _ _ Hm) as (Hne & Hd & post & ->).
  exists pre, post. repeat split; try assumption.
  - intros pre' rest' g' Heq Hlen Hg'.
    destruct (match_here_complete _ _ Hg') as (g2 & Hg2 & _).
    rewrite (Hleft pre' rest' Heq Hlen) in Hg2. discriminate.
  - intros g' Hg'.
    destruct (match_here_complete _ _ Hg') as (g2 & Hg2 & Hlen).
    rewrite Hm in Hg2. injection Hg2 as <-. exact Hlen.
Qed.

Lemma int_from_digits (g : str) (acc : Z) :
  Forall digit g ->
  int_from decimal acc g
  = Some (acc * 10 ^ Z.of_nat (length g) + digits_value decimal g).
Proof.
  revert acc. induction g as [|c g IH]; intros acc Hd; simpl int_from.
  - simpl. f_equal. lia.
  - inversion Hd as [|? ? Hc Hd']; subst.
    unfold digit, is_digit in Hc.
    cbn [digits_value length].
    destruct (decimal c) as [d|]; [|discriminate].
    rewrite IH by assumption. f_equal.
    rewrite Nat2Z.inj_succ, Z.pow_succ_r by lia. ring.
Qed.

Lemma over_limit_within (g : str) :
  over_limit limit g = false <-> within_limit limit g.
Proof.
  unfold over_limit, within_limit. cbv zeta.
  rewrite !andb_false_iff, !N.ltb_ge. split.
  - intros [[H|H]|H]; [right; left; exact H | left; lia | right; right; exact H].
  - intros [H|[H|H]]; [left; right; lia | left; left; exact H | right; exact H].
Qed.

(** [int] on a captured group: its value, unless the group is over the
    limit, which is the one way into the handler of [ValueError]. *)
Lemma py_int_group (g : str) :
  g <> [] -> Forall digit g ->
  py_int decimal limit g
  = if over_limit limit g then None else Some (digits_value decimal g).
Proof.
  intros Hne Hd. unfold py_int. destruct g as [|c g]; [contradiction|].
  destruct (over_limit limit (c :: g)); [reflexivity|].
  rewrite int_from_digits by assumption. f_equal; lia.
Qed.

Lemma re_search_int (c g : str) :
  re_search decimal c = Some g ->
  py_int decimal limit g
  = if over_limit limit g then None else Some (digits_value decimal g).
Proof.
  intros H. destruct (re_search_some _ _ H) as (pre & rest & _ & Hm & _).
  destruct (match_here_sound _ _ Hm) as (Hne & Hd & _).
  apply py_int_group; assumption.
Qed.

(** A token has one captured group at most, and it is the one the search
    returns. *)
Lemma captured_unique (c g g0 : str) :
  captured decimal c g -> captured decimal c g0 -> g = g0.
Proof.
  intros (pre & post & Hc & Hne & Hd & Hleft & Hlong)
         (pre0 & post0 & Hc0 & Hne0 & Hd0 & Hleft0 & Hlong0).
  assert (Hm : matches_at decimal (RATING ++ g ++ DASH_T ++ post) g)
    by (split; [exact Hne|]; split; [exact Hd|]; exists post; reflexivity).
  assert (Hm0 : matches_at decimal (RATING ++ g0 ++ DASH_T ++ post0) g0)
    by (split; [exact Hne0|]; split; [exact Hd0|]; exists post0; reflexivity).
  assert (Hlen : length pre = length pre0).
  { destruct (Nat.lt_trichotomy (length pre) (length pre0)) as [H|[H|H]];
      [|exact H|].
    - exfalso. exact (Hleft0 pre _ g Hc H Hm).
    - exfalso. exact (Hleft pre0 _ g0 Hc0 H Hm0). }
  rewrite Hc0 in Hc.
  apply app_inj_1 in Hc as [_ Hrest]; [|symmetry; exact Hlen].
  rewrite Hrest in Hm0.
  pose proof (Hlong g0 Hm0) as H1.
  rewrite <- Hrest in Hm. pose proof (Hlong0 g Hm) as H2.
  apply app_inv_head in Hrest.
  apply app_inj_1 in Hrest as [Hg _]; [symmetry; exact Hg | lia].
Qed.

Lemma re_search_captured (c g : str) :
  re_search decimal c = Some g <-> captured decimal c g.
Proof.
  split.
  - intros H.
    destruct (re_search_leftmost_longest _ _ H)
      as (pre & post & Heq & Hne & Hd & Hleft & Hlong).
    exists pre, post. repeat split; assumption.
  - intros Hc.
    destruct (re_search decimal c) as [g0|] eqn:E.
    + f_equal. apply (captured_unique c); [|exact Hc].
      destruct (re_search_leftmost_longest _ _ E)
        as (pre & post & Heq & Hne & Hd & Hleft & Hlong).
      exists pre, post. repeat split; assumption.
    + exfalso. apply (proj1 (re_search_none_iff c) E).
      destruct Hc as (pre & post & Heq & Hne & Hd & _).
      exists pre, (RATING ++ g ++ DASH_T ++ post), g.
      split; [exact Heq|]. split; [exact Hne|]. split; [exact Hd|].
      exists post. reflexivity.
Qed.

(** What a token contributes to the scan: the integer it reads as, or
    nothing. *)
Lemma token_reading (c : str) :
  match re_search decimal c with
  | Some g =>
      match py_int decimal limit g with
      | Some n => reads decimal limit c n
      | None => forall n, ~ reads decimal limit c n
      end
  | None => forall n, ~ reads decimal limit c n
  end.
Proof.
  destruct (re_search decimal c) as [g|] eqn:E.
  - rewrite (re_search_int _ _ E).
    apply re_search_captured in E.
    destruct (over_limit limit g) eqn:Eo.
    + intros n (g' & Hc & Hw & _).
      rewrite (captured_unique _ _ _ Hc E) in Hw.
      apply over_limit_within in Hw. congruence.
    + exists g. split; [exact E|]. split; [|reflexivity].
      apply over_limit_within, Eo.
  - intros n (g & Hc & _). apply re_search_captured in Hc. congruence.
Qed.

Lemma extract_first_reading (classes : list str) :
  first_reading decimal limit classes
                (extract_rating_from_classes decimal limit classes).
Proof.
  induction classes as [|c cs IH]; cbn [extract_rating_from_classes].
  - intros c n [].
  - pose proof (token_reading c) as Hc.
    assert (Hskip : (forall n, ~ reads decimal limit c n) ->
                    first_reading decimal limit (c :: cs)
                      (extract_rating_from_classes decimal limit cs)).
    { intros Hno.
      destruct (extract_rating_from_classes decimal limit cs) as [n|].
      - destruct IH as (before & c0 & after & -> & Hb & Hr).
        exists (c :: before), c0, after. split; [reflexivity|].
        split; [|exact Hr].
        intros c' n' [<-|Hin]; [apply Hno | apply Hb; exact Hin].
      - intros c' n' [<-|Hin]; [apply Hno | apply IH; exact Hin]. }
    destruct (re_search decimal c) as [g|]; [|apply Hskip, Hc].
    destruct (py_int decimal limit g) as [n|]; [|apply Hskip, Hc].
    exists [], c, cs. split; [reflexivity|]. split; [intros ? ? []|exact Hc].
Qed.

Lemma extract_app (a b : list str) :
  extract_rating_from_classes decimal limit (a ++ b)
  = match extract_rating_from_classes decimal limit a with
    | Some r => Some r
    | None => extract_rating_from_classes decimal limit b
    end.
Proof.
  induction a as [|c a IH]; cbn [app extract_rating_from_classes];
    [reflexivity|].
  destruct (re_search decimal c) as [g|]; [|exact IH].
  destruct (py_int decimal limit g); [reflexivity | exact IH].
Qed.

(** The rating of an item is the first reading among the classes of the
    selected element followed by the item's own. *)
Lemma item_rating_app (span : option (list str)) (own : list str) :
  item_rating decimal limit span own
  = extract_rating_from_classes decimal limit
      (match span with Some classes => classes | None => [] end ++ own).
Proof.
  unfold item_rating. rewrite extract_app. destruct span; reflexivity.
Qed.

(** ** Document order *)

Lemma tag_induction (P : tag -> Prop) :
  (forall classes children,
      Forall P children -> P (Tag classes children)) ->
  forall t, P t.
Proof.
  intros step. fix IH 1. intros [classes children]. apply step.
  induction children as [|x l IHl]; constructor; [apply IH | exact IHl].
Qed.

Lemma contains_rating_spec (token : str) :
  contains_rating token = true <-> exists a b, token = a ++ RATING ++ b.
Proof.
  induction token as [|c token IH].
  - split; [discriminate|]. intros (a & b & H).
    destruct a; discriminate H.
  - cbn [contains_rating].
    destruct (strip_prefix RATING (c :: token)) as [r|] eqn:E.
    + split; [|reflexivity]. intros _.
      apply strip_prefix_app in E. exists [], r. exact E.
    + rewrite IH. split.
      * intros (a & b & ->). exists (c :: a), b. reflexivity.
      * intros ([|c' a] & b & H).
        -- exfalso. cbn [app] in H.
           assert (P : strip_prefix RATING (c :: token) = Some b)
             by (apply strip_prefix_app; exact H).
           congruence.
        -- injection H as _ H. exists a, b. exact H.
Qed.

Lemma selects_rating_spec (e : tag) :
  selects_rating (tag_classes e) = true <-> rating_bearing e.
Proof.
  unfold selects_rating, rating_bearing. rewrite existsb_exists. split.
  - intros (token & Hin & Hc). apply contains_rating_spec in Hc as (a & b & H).
    exists token, a, b. split; assumption.
  - intros (token & a & b & Hin & H). exists token. split; [exact Hin|].
    apply contains_rating_spec. exists a, b. exact H.
Qed.

Let selected (e : tag) : bool := selects_rating (tag_classes e).

Lemma find_app_first (A : Type) (f : A -> bool) (l k : list A) :
  List.find f (l ++ k)
  = match List.find f l with Some x => Some x | None => List.find f k end.
Proof.
  induction l as [|x l IH]; cbn [app List.find]; [reflexivity|].
  destruct (f x); [reflexivity | exact IH].
Qed.

Lemma first_some_document_order (children : list tag) :
  Forall (fun t => first_selected t
                   = option_map tag_classes
                       (List.find selected (t :: descendants t))) children ->
  first_some first_selected children
  = option_map tag_classes
      (List.find selected
         (List.flat_map (fun child => child :: descendants child) children)).
Proof.
  induction 1 as [|t l Ht _ IH]; [reflexivity|].
  cbn [first_some List.flat_map]. rewrite find_app_first, Ht.
  destruct (List.find selected (t :: descendants t)); [reflexivity | exact IH].
Qed.

Lemma first_selected_document_order (t : tag) :
  first_selected t
  = option_map tag_classes (List.find selected (t :: descendants t)).
Proof.
  induction t as [classes children IH] using tag_induction.
  cbn [first_selected List.find]. unfold selected at 1. cbn [tag_classes].
  destruct (selects_rating classes); [reflexivity|].
  cbn [descendants]. apply first_some_document_order, IH.
Qed.

(** [select_one] gives the first element below the item, in document
    order, that the selector selects. *)
Lemma select_one_document_order (it : tag) :
  select_one_rating it
  = option_map tag_classes (List.find selected (descendants it)).
Proof.
  destruct it as [classes children]. unfold select_one_rating.
  cbn [tag_children descendants]. apply first_some_document_order.
  apply Forall_forall. intros t _. apply first_selected_document_order.
Qed.

End Rating.

Lemma digits_value_nonneg (decimal : char -> option N) (g : str) :
  0 <= digits_value decimal g.
Proof.
  induction g as [|c g IH]; cbn [digits_value]; [lia|].
  assert (0 <= 10 ^ Z.of_nat (length g)) by (apply Z.pow_nonneg; lia).
  nia.
Qed.

Lemma digits_value_nines (n : nat) :
  3 < digits_value ascii_decimal (repeat 57%N (S n)).
Proof.
  cbn [repeat digits_value].
  pose proof (digits_value_nonneg ascii_decimal (repeat 57%N n)) as H.
  assert (H1 : 1 <= 10 ^ Z.of_nat (length (repeat 57%N n))).
  { change 1 with (10 ^ 0). apply Z.pow_le_mono_r; lia. }
  change (Z.of_N match ascii_decimal 57 with Some d => d | None => 0%N end)
    with 9.
  lia.
Qed.

(** C3 (amended). Rating extraction returns the integer read from the first
    class token that reads as one, and null when none does.  A token reads
    as an integer when it matches [rating<digits>-t] and the interpreter
    converts the captured group (the whole group of digits between [rating]
    and [-t] at the leftmost place where the token matches): a group over
    the interpreter's limit on digits, 4300 by default, is refused by [int]
    and the token is passed over.  So when no group is over the limit the
    result is null exactly when no token matches, and else the exact
    integer of the first matching token; [["rating4-t"]] gives 4 and
    [["rating45-t"]] gives 45.  Per item, the element consulted first is
    the first one below the item, in document order, that has [rating] in
    its class attribute, whether or not an element below it has it too; the
    item's own classes are consulted when there is no such element or its
    classes gave null. *)
Theorem rating_extraction_exact
        (decimal : char -> option N) (limit : N) (classes : list str) :
  first_reading decimal limit classes
                (extract_rating_from_classes decimal limit classes)
  /\ ((forall c g, In c classes -> captured decimal c g ->
                   within_limit limit g) ->
      (extract_rating_from_classes decimal limit classes = None <->
       forall c, In c classes -> ~ token_matches decimal c)
      /\ forall before c after g,
          classes = before ++ c :: after ->
          (forall c', In c' before -> ~ token_matches decimal c') ->
          captured decimal c g ->
          extract_rating_from_classes decimal limit classes
          = Some (digits_value decimal g))
  /\ extract_rating_from_classes ascii_decimal default_max_str_digits
                                 [lit "rating4-t"] = Some 4
  /\ extract_rating_from_classes ascii_decimal default_max_str_digits
                                 [lit "rating45-t"] = Some 45
  /\ (forall it : tag,
         let first :=
           List.find (fun e => selects_rating (tag_classes e))
                     (descendants it) in
         select_one_rating it = option_map tag_classes first
         /\ first_reading decimal limit
              (match first with Some e => tag_classes e | None => [] end
               ++ tag_classes it)
              (rating_of_item decimal limit it)).
Proof.
  split; [apply extract_first_reading|].
  split; [|split; [reflexivity|]; split; [reflexivity|]].
  - intros Hlim.
    assert (Hreads : forall c, In c classes ->
              ((exists n, reads decimal limit c n) <-> token_matches decimal c)).
    { intros c Hin. split.
      - intros (n & g & (pre & post & Heq & Hne & Hd & _) & _).
        exists pre, (RATING ++ g ++ DASH_T ++ post), g.
        split; [exact Heq|]. split; [exact Hne|]. split; [exact Hd|].
        exists post. reflexivity.
      - intros Hm.
        destruct (re_search decimal c) as [g|] eqn:E.
        + apply re_search_captured in E.
          exists (digits_value decimal g), g.
          split; [exact E|]. split; [exact (Hlim c g Hin E) | reflexivity].
        + exfalso. exact (proj1 (re_search_none_iff decimal c) E Hm). }
    pose proof (extract_first_reading decimal limit classes) as Hfirst.
    split.
    + split.
      * intros E c Hin Hm. rewrite E in Hfirst.
        apply (Hreads c Hin) in Hm as [n Hn]. exact (Hfirst c n Hin Hn).
      * intros Hno.
        destruct (extract_rating_from_classes decimal limit classes) as [n|];
          [|reflexivity].
        exfalso. destruct Hfirst as (before & c & after & -> & _ & Hr).
        assert (Hin : In c (before ++ c :: after))
          by (apply in_or_app; right; left; reflexivity).
        apply (Hno c Hin). apply (Hreads c Hin). exists n. exact Hr.
    + intros before c after g -> Hb Hc.
      assert (Hin : In c (before ++ c :: after))
        by (apply in_or_app; right; left; reflexivity).
      rewrite extract_app.
      assert (Eb : extract_rating_from_classes decimal limit before = None).
      { pose proof (extract_first_reading decimal limit before) as Hf.
        destruct (extract_rating_from_classes decimal limit before) as [n|];
          [|reflexivity].
        exfalso. destruct Hf as (b1 & c1 & a1 & -> & _ & Hr).
        assert (Hin1 : In c1 (b1 ++ c1 :: a1))
          by (apply in_or_app; right; left; reflexivity).
        apply (Hb c1 Hin1). apply Hreads; [|exists n; exact Hr].
        apply in_or_app. left. exact Hin1. }
      rewrite Eb. cbn [extract_rating_from_classes].
      pose proof (proj2 (re_search_captured decimal c g) Hc) as Es.
      rewrite Es, (re_search_int decimal limit _ _ Es).
      pose proof (Hlim c g Hin Hc) as Hw.
      apply over_limit_within in Hw. rewrite Hw. reflexivity.
  - intros it. cbv zeta. split; [apply select_one_document_order|].
    unfold rating_of_item. rewrite item_rating_app.
    rewrite select_one_document_order.
    destruct (List.find (fun e => selects_rating (tag_classes e))
                        (descendants it));
      apply extract_first_reading.
Qed.

Lemma rating_extraction_exact_witness :
  extract_rating_from_classes ascii_decimal default_max_str_digits
                              [lit "x"; lit "rating45-t"]
  = Some 45.
Proof.
  destruct (rating_extraction_exact ascii_decimal default_max_str_digits
              [lit "x"; lit "rating45-t"]) as (_ & H & _).
  assert (Hg : forall c g,
             In c [lit "x"; lit "rating45-t"] ->
             captured ascii_decimal c g -> g = lit "45").
  { intros c g Hin Hc.
    apply (re_search_captured ascii_decimal) in Hc.
    destruct Hin as [<-|[<-|[]]]; vm_compute in Hc; [discriminate Hc|].
    injection Hc as <-. reflexivity. }
  destruct H as [_ H].
  - intros c g Hin Hc. rewrite (Hg c g Hin Hc). right. left. vm_compute.
    discriminate.
  - rewrite (H [lit "x"] (lit "rating45-t") [] (lit "45") eq_refl).
    + reflexivity.
    + intros c' [<-|[]].
      apply (re_search_none_iff ascii_decimal). reflexivity.
    + apply (re_search_captured ascii_decimal). reflexivity.
Defined.

(** C3 as stated fails in two places.  A first matching token whose group
    has 4301 digits is passed over, and the integer of a later token is
    returned.  And in an item whose star sits in a wrapper that has a
    rating class of its own, the wrapper comes first in document order and
    is the element consulted: the innermost rating-bearing element, which
    reads 4, is never looked at, and the item gets no rating. *)
Lemma rating_overlong_and_wrapper :
  (token_matches ascii_decimal long_token
   /\ captured ascii_decimal long_token nines
   /\ 3 < digits_value ascii_decimal nines
   /\ extract_rating_from_classes ascii_decimal default_max_str_digits
                                  [long_token; lit "rating3-t"] = Some 3
   /\ extract_rating_from_classes ascii_decimal default_max_str_digits
                                  [long_token] = None)
  /\ (innermost_rating item_with_wrapper star_span
      /\ extract_rating_from_classes ascii_decimal default_max_str_digits
                                     (tag_classes star_span) = Some 4
      /\ select_one_rating item_with_wrapper = Some (tag_classes star_wrapper)
      /\ rating_of_item ascii_decimal default_max_str_digits
                        item_with_wrapper = None).
Proof.
  assert (Hc : captured ascii_decimal long_token nines)
    by (apply re_search_captured; vm_compute; reflexivity).
  split.
  - split.
    { destruct Hc as (pre & post & Heq & Hne & Hd & _).
      exists pre, (RATING ++ nines ++ DASH_T ++ post), nines.
      split; [exact Heq|]. split; [exact Hne|]. split; [exact Hd|].
      exists post. reflexivity. }
    split; [exact Hc|].
    split.
    { exact (digits_value_nines 4300). }
    split; vm_compute; reflexivity.
  - split.
    { split; [right; left; reflexivity|].
      split.
      - exists (lit "rating4-t"), [], (lit "4-t").
        split; [left; reflexivity | reflexivity].
      - intros d []. }
    repeat split; vm_compute; reflexivity.
Qed.

(** ** Person lists *)

Lemma split_people_split_on (text : str) :
  split_people text = stripped_nonempty (split_on is_people_sep text).
Proof.
  unfold split_people. destruct text as [|c text]; [reflexivity|].
  cbn [nonempty]. apply split_runs_split_on.
Qed.

Lemma stripped_nonempty_elems (sep : char -> bool) (text : str) :
  Forall (fun p => p <> [] /\ strip p = p
                   /\ Forall (fun c => sep c = false) p)
         (stripped_nonempty (split_on sep text)).
Proof.
  pose proof (split_on_no_sep sep text) as Hs.
  induction Hs as [|q l Hq _ IH].
  - constructor.
  - rewrite stripped_nonempty_cons.
    destruct (nonempty (strip q)) eqn:E; [|exact IH].
    constructor; [|exact IH].
    split; [intros Hn; rewrite Hn in E; discriminate|].
    split; [apply strip_idem|].
    destruct (strip_infix q) as (a & b & Hab).
    rewrite Hab in Hq.
    apply Forall_app in Hq as [_ Hq]. apply Forall_app in Hq as [Hq _].
    exact Hq.
Qed.

(** C4 (amended). Person-list splitting splits at each of [、] [/] [,]
    [，] [；] [;] (the full-width slash is not a separator), trims each
    segment, drops the empty ones and keeps the order; every name returned
    is non-empty, trimmed and free of separators, and
    ["张三 / 李四，王五"] gives [["张三"; "李四"; "王五"]]. *)
Theorem split_people_six_separators (text : str) :
  split_people text = split_trim_drop is_people_sep text
  /\ Forall (fun p => p <> [] /\ strip p = p
                      /\ Forall (fun c => is_people_sep c = false) p)
            (split_people text)
  /\ (forall c, is_people_sep c = true <->
                (c = 0x3001 \/ c = 0x2F \/ c = 0x2C \/ c = 0xFF0C
                 \/ c = 0xFF1B \/ c = 0x3B)%N)
  /\ split_people zhang_li_wang = [zhang_san; li_si; wang_wu].
Proof.
  rewrite split_people_split_on.
  split; [apply stripped_nonempty_filter_map|].
  split; [apply stripped_nonempty_elems|].
  split; [|reflexivity].
  intros c. unfold is_people_sep.
  rewrite !orb_true_iff, !N.eqb_eq. tauto.
Qed.

(** C4 as stated fails: a full-width slash does not split. *)
Lemma split_people_fullwidth_slash :
  split_people zhang_fullwidth_li = [zhang_fullwidth_li]
  /\ split_trim_drop is_listed_sep zhang_fullwidth_li = [zhang_san; li_si]
  /\ split_people zhang_fullwidth_li
     <> split_trim_drop is_listed_sep zhang_fullwidth_li.
Proof.
  split; [reflexivity|]. split; [reflexivity|]. discriminate.
Qed.

End CrawlFacts.


(* ===================================================================== *)
(** * import_data.py: rating scales, candidate locators, skipped records  *)
(* ===================================================================== *)

Module ImportFacts.
Import Py ImportData Spec Samples PyFacts.

Lemma clamp_max_min (r : Z) : Z.max 1 (Z.min 5 r) = clamp r 1 5.
Proof.
  unfold clamp.
  destruct (Z.ltb_spec r 1); [lia|]. destruct (Z.ltb_spec 5 r); lia.
Qed.

(** C6. Destination A keeps the rating, clamped to 1..5 (unchanged when in
    range); destination B is that clamped rating times two (3 gives 6, 7
    clamps to 5 and gives 10); null stays null, and every integer has a
    result. *)
Theorem rating_conversion_clamps (rating : option Z) :
  convert_rating_for_goodreads rating = option_map (fun r => clamp r 1 5) rating
  /\ convert_rating_for_imdb rating
     = option_map (fun r => clamp r 1 5 * 2) rating
  /\ (forall r, rating = Some r ->
        exists a, convert_rating_for_goodreads rating = Some a
                  /\ convert_rating_for_imdb rating = Some (2 * a)
                  /\ 1 <= a <= 5
                  /\ (1 <= r <= 5 -> a = r)
                  /\ (r < 1 -> a = 1) /\ (5 < r -> a = 5))
  /\ (rating = None ->
      convert_rating_for_goodreads rating = None
      /\ convert_rating_for_imdb rating = None)
  /\ convert_rating_for_imdb (Some 3) = Some 6
  /\ convert_rating_for_imdb (Some 7) = Some 10
  /\ convert_rating_for_goodreads (Some 7) = Some 5
  /\ convert_rating_for_imdb None = None.
Proof.
  split; [destruct rating; simpl; [rewrite clamp_max_min|]; reflexivity|].
  split; [destruct rating; simpl; [rewrite clamp_max_min|]; reflexivity|].
  split.
  - intros r ->. exists (Z.max 1 (Z.min 5 r)). simpl.
    split; [reflexivity|]. split; [f_equal; lia|]. lia.
  - split; [intros ->; split; reflexivity|].
    repeat split; reflexivity.
Qed.

Lemma rating_conversion_clamps_witness :
  convert_rating_for_goodreads (Some 4) = Some 4
  /\ convert_rating_for_imdb (Some 4) = Some 8
  /\ convert_rating_for_goodreads (Some (-2)) = Some 1
  /\ convert_rating_for_imdb (Some (-2)) = Some 2.
Proof.
  destruct (rating_conversion_clamps (Some 4)) as (_ & _ & H4 & _).
  destruct (H4 4 eq_refl) as (a & Ha & Hb & _ & Hin & _).
  rewrite Ha, Hb, (Hin ltac:(lia)).
  destruct (rating_conversion_clamps (Some (-2))) as (_ & _ & H2 & _).
  destruct (H2 (-2) eq_refl) as (b & Hc & Hd & _ & _ & Hlow & _).
  rewrite Hc, Hd, (Hlow ltac:(lia)).
  repeat split; reflexivity.
Defined.

Section Publisher.

Variable Pg : Type.
Variable perform : action -> Pg -> bool * Pg.

Lemma first_available_trace (call : str -> action)
      (loop : list str -> M (session Pg) bool) :
  (forall s, loop [] s = (Ok false, s)) ->
  (forall sel rest pg log,
      loop (sel :: rest) (pg, log)
      = let '(ok, pg') := perform (call sel) pg in
        if ok then (Ok true, (pg', log ++ [(call sel, true)]))
        else loop rest (pg', log ++ [(call sel, false)])) ->
  forall selectors pg log,
  exists result pg' tried,
    loop selectors (pg, log) = (Ok result, (pg', log ++ tried))
    /\ first_match_trace call selectors result tried
    /\ replays perform pg tried pg'.
Proof.
  intros Hnil Hcons selectors.
  induction selectors as [|sel rest IH]; intros pg log.
  - exists false, pg, []. rewrite Hnil, app_nil_r.
    split; [reflexivity|]. split; [right; split; reflexivity | reflexivity].
  - rewrite Hcons. destruct (perform (call sel) pg) as [[|] pg1] eqn:Ep.
    + exists true, pg1, [(call sel, true)]. split; [reflexivity|].
      split.
      * left. split; [reflexivity|]. exists [], sel, rest. split; reflexivity.
      * cbn [replays]. rewrite Ep. split; reflexivity.
    + destruct (IH pg1 (log ++ [(call sel, false)]))
        as (result & pg' & tried & -> & Htr & Hre).
      exists result, pg', ((call sel, false) :: tried).
      split; [rewrite <- app_assoc; reflexivity|].
      split.
      * destruct Htr as [(-> & before & m & after & -> & ->) | (-> & ->)].
        -- left. split; [reflexivity|].
           exists (sel :: before), m, after. split; reflexivity.
        -- right. split; reflexivity.
      * cbn [replays]. rewrite Ep. split; [reflexivity | exact Hre].
Qed.

(** On a page where what matches does not depend on what was done before,
    the step succeeds exactly when some candidate matches. *)
Lemma first_available_result (call : str -> action)
      (loop : list str -> M (session Pg) bool) (matches : action -> bool) :
  (forall s, loop [] s = (Ok false, s)) ->
  (forall sel rest pg log,
      loop (sel :: rest) (pg, log)
      = let '(ok, pg') := perform (call sel) pg in
        if ok then (Ok true, (pg', log ++ [(call sel, true)]))
        else loop rest (pg', log ++ [(call sel, false)])) ->
  (forall a pg, fst (perform a pg) = matches a) ->
  forall selectors s,
    fst (loop selectors s)
    = Ok (List.existsb (fun sel => matches (call sel)) selectors).
Proof.
  intros Hnil Hcons Hm selectors.
  induction selectors as [|sel rest IH]; intros [pg log].
  - rewrite Hnil. reflexivity.
  - rewrite Hcons. cbn [List.existsb]. rewrite <- (Hm (call sel) pg).
    destruct (perform (call sel) pg) as [[|] pg1]; cbn [fst orb];
      [reflexivity | apply IH].
Qed.

Lemma click_first_available_cons (sel : str) (rest : list str) pg log :
  click_first_available Pg perform (sel :: rest) (pg, log)
  = let '(ok, pg') := perform (Click sel) pg in
    if ok then (Ok true, (pg', log ++ [(Click sel, true)]))
    else click_first_available Pg perform rest (pg', log ++ [(Click sel, false)]).
Proof.
  cbn [click_first_available]. unfold bind, page_try.
  destruct (perform (Click sel) pg) as [[|] pg1]; reflexivity.
Qed.

Lemma fill_first_available_cons (text sel : str) (rest : list str) pg log :
  fill_first_available Pg perform (sel :: rest) text (pg, log)
  = let '(ok, pg') := perform (Fill sel text) pg in
    if ok then (Ok true, (pg', log ++ [(Fill sel text, true)]))
    else fill_first_available Pg perform rest text
           (pg', log ++ [(Fill sel text, false)]).
Proof.
  cbn [fill_first_available]. unfold bind, page_try.
  destruct (perform (Fill sel text) pg) as [[|] pg1]; reflexivity.
Qed.

(** A mapping read from a file has no empty key and no empty target. *)
Lemma load_mapping_from_nonempty (rows : list row) (acc : gmap str str) :
  (forall k v, acc !! k = Some v -> k <> [] /\ v <> []) ->
  forall k v, load_mapping_from acc rows !! k = Some v -> k <> [] /\ v <> [].
Proof.
  revert acc. induction rows as [|entry rest IH]; intros acc Hacc; [exact Hacc|].
  cbn [load_mapping_from].
  destruct (py_or (row_subject_url entry) (row_source entry)) as [src|];
    [|apply IH, Hacc].
  destruct (py_or (row_target_url entry) (row_target entry)) as [dst|];
    [|apply IH, Hacc].
  destruct (nonempty src) eqn:Es; [|apply IH, Hacc].
  destruct (nonempty dst) eqn:Ed; [|apply IH, Hacc].
  apply IH. intros k v. rewrite lookup_insert.
  case_decide as Hk; [|apply Hacc].
  intros [= <-]. subst k. split; intros ->; discriminate.
Qed.

Lemma load_mapping_nonempty (rows : list row) (k v : str) :
  load_mapping rows !! k = Some v -> k <> [] /\ v <> [].
Proof.
  apply load_mapping_from_nonempty. intros k' v'.
  rewrite lookup_empty. discriminate.
Qed.

(** The two [continue]s of the loop body, for any mapping. *)
Lemma process_item_skips
      (label : str) (convert : option Z -> option Z)
      (post : str -> option Z -> str -> M (session Pg) unit)
      (mapping : gmap str str) (it : item) (s : session Pg) :
  (get_target_url mapping it = None ->
   process_item Pg perform label convert post mapping it s
   = (Ok SkippedNoMapping, s))
  /\ (forall t, get_target_url mapping it = Some t -> t <> [] ->
                comment_text it = [] ->
                process_item Pg perform label convert post mapping it s
                = (Ok SkippedNoComment, s)).
Proof.
  unfold process_item, comment_text. split.
  - intros ->. reflexivity.
  - intros t -> Ht Hc. rewrite (nonempty_true _ Ht), Hc. reflexivity.
Qed.

End Publisher.

(** C8. The click step and the fill step try the candidates in list order:
    the calls they make are the candidates up to and including the first
    that matches, each made on the page as the call before left it and
    recorded with the answer the page gave.  They stop at that first match
    and report success, trying no later candidate, and report failure
    exactly when every candidate was tried and none matched; neither
    raises.  On a page where what matches does not depend on what was done
    before, the step succeeds exactly when some candidate of the list
    matches. *)
Theorem first_available_in_order
        (Pg : Type) (perform : action -> Pg -> bool * Pg)
        (selectors : list str) (text : str) (pg : Pg)
        (log : list (action * bool)) :
  (exists result pg' tried,
      click_first_available Pg perform selectors (pg, log)
      = (Ok result, (pg', log ++ tried))
      /\ first_match_trace Click selectors result tried
      /\ replays perform pg tried pg')
  /\ (exists result pg' tried,
         fill_first_available Pg perform selectors text (pg, log)
         = (Ok result, (pg', log ++ tried))
         /\ first_match_trace (fun sel => Fill sel text) selectors result tried
         /\ replays perform pg tried pg')
  /\ (forall matches : action -> bool,
         (forall a p, fst (perform a p) = matches a) ->
         fst (click_first_available Pg perform selectors (pg, log))
         = Ok (List.existsb (fun sel => matches (Click sel)) selectors)
         /\ fst (fill_first_available Pg perform selectors text (pg, log))
            = Ok (List.existsb (fun sel => matches (Fill sel text)) selectors)).
Proof.
  split; [|split].
  - apply (first_available_trace Pg perform Click
             (click_first_available Pg perform)).
    + reflexivity.
    + intros. apply click_first_available_cons.
  - apply (first_available_trace Pg perform (fun sel => Fill sel text)
             (fun l => fill_first_available Pg perform l text)).
    + reflexivity.
    + intros. apply fill_first_available_cons.
  - intros matches Hm. split.
    + apply (first_available_result Pg perform Click
               (click_first_available Pg perform) matches).
      * reflexivity.
      * intros. apply click_first_available_cons.
      * exact Hm.
    + apply (first_available_result Pg perform (fun sel => Fill sel text)
               (fun l => fill_first_available Pg perform l text) matches).
      * reflexivity.
      * intros. apply fill_first_available_cons.
      * exact Hm.
Qed.

(** Only the third of four candidates matches: the step succeeds with the
    third and the fourth is never tried. *)
Lemma first_available_in_order_witness :
  click_first_available nat page_only_c four_candidates (0%nat, [])
  = (Ok true, (3%nat, [(Click (lit "a"), false); (Click (lit "b"), false);
                       (Click (lit "c"), true)]))
  /\ fst (fill_first_available nat page_only_c four_candidates (lit "hi")
                               (0%nat, []))
     = Ok true.
Proof.
  split; [reflexivity|].
  destruct (first_available_in_order nat page_only_c four_candidates
              (lit "hi") 0%nat []) as (_ & _ & H).
  destruct (H (fun a => fst (page_only_c a 0%nat))) as [_ ->].
  - intros a p. destruct a; reflexivity.
  - reflexivity.
Defined.

(** C7. With the mapping read from the mapping file, a record whose
    [subject_url] has no entry ends as skipped(noMapping), and a record that
    has an entry but whose trimmed comment text is empty ends as
    skipped(noComment); in both cases, for either destination, the page is
    left untouched and no call is made on it. *)
Theorem publisher_skips_without_action
        (Pg : Type) (perform : action -> Pg -> bool * Pg)
        (rows : list row) (it : item) (s : session Pg) :
  (entry_for (load_mapping rows) it = None ->
   process_goodreads_item Pg perform (load_mapping rows) it s
   = (Ok SkippedNoMapping, s)
   /\ process_imdb_item Pg perform (load_mapping rows) it s
      = (Ok SkippedNoMapping, s))
  /\ (is_Some (entry_for (load_mapping rows) it) ->
      comment_text it = [] ->
      process_goodreads_item Pg perform (load_mapping rows) it s
      = (Ok SkippedNoComment, s)
      /\ process_imdb_item Pg perform (load_mapping rows) it s
         = (Ok SkippedNoComment, s)).
Proof.
  unfold process_goodreads_item, process_imdb_item, entry_for. split.
  - intros H.
    assert (G : get_target_url (load_mapping rows) it = None).
    { unfold get_target_url. destruct (subject_url it) as [u|]; [|reflexivity].
      destruct (nonempty u); [exact H | reflexivity]. }
    split; apply process_item_skips; exact G.
  - intros [t Ht] Hc.
    destruct (subject_url it) as [u|] eqn:Eu; [|discriminate].
    destruct (load_mapping_nonempty rows u t Ht) as [Hu Hne].
    assert (G : get_target_url (load_mapping rows) it = Some t).
    { unfold get_target_url. rewrite Eu, (nonempty_true _ Hu). exact Ht. }
    split; eapply process_item_skips; eauto.
Qed.

Lemma publisher_skips_without_action_witness :
  (process_goodreads_item nat page_only_c (load_mapping one_row)
                          record_unmapped (0%nat, [])
   = (Ok SkippedNoMapping, (0%nat, []))
   /\ process_imdb_item nat page_only_c (load_mapping one_row)
                        record_unmapped (0%nat, [])
      = (Ok SkippedNoMapping, (0%nat, [])))
  /\ (process_goodreads_item nat page_only_c (load_mapping one_row)
                             record_blank_comment (0%nat, [])
      = (Ok SkippedNoComment, (0%nat, []))
      /\ process_imdb_item nat page_only_c (load_mapping one_row)
                           record_blank_comment (0%nat, [])
         = (Ok SkippedNoComment, (0%nat, []))).
Proof.
  split.
  - apply (publisher_skips_without_action nat page_only_c one_row
             record_unmapped (0%nat, [])).
    vm_compute. reflexivity.
  - apply (publisher_skips_without_action nat page_only_c one_row
             record_blank_comment (0%nat, [])).
    + vm_compute. eexists. reflexivity.
    + vm_compute. reflexivity.
Defined.

End ImportFacts.


(* ===================================================================== *)
(** * search.py: what a resolution run does to the mapping                *)
(* ===================================================================== *)

Module SearchFacts.
Import Py Search Spec Samples.

Section Resolver.

Variable W : Type.
Variable people_of : item -> option str.
Variable search : str -> str -> W -> option str * W.
Variable overwrite : bool.

Let step := resolve_item W people_of search overwrite.

(** A turn of the loop either changes nothing and searches nothing, or
    issues exactly one search, for an item whose key is free or may be
    overwritten. *)
Lemma resolve_item_cases (mapping : gmap str str) (w : W) (log : list query)
      (it : item) :
  step (mapping, w, log) it = (mapping, w, log)
  \/ exists src ttl ppl target w',
      subject_url it = Some src
      /\ (mapping !! src = None \/ overwrite = true)
      /\ search ttl ppl w = (target, w')
      /\ step (mapping, w, log) it
         = (stored src target mapping, w', log ++ [MkQuery src ttl ppl target]).
Proof.
  unfold step, resolve_item.
  destruct (subject_url it) as [src|]; [|left; reflexivity].
  destruct (nonempty src); cbn [negb]; [|left; reflexivity].
  destruct (bool_decide (is_Some (mapping !! src)) && negb overwrite) eqn:E;
    [left; reflexivity|].
  right.
  destruct (search (first_truthy [title it; title_en it])
                   (first_truthy [people_of it]) w) as [target w'] eqn:Es.
  exists src, (first_truthy [title it; title_en it]),
    (first_truthy [people_of it]), target, w'.
  split; [reflexivity|]. split; [|split; [exact Es | reflexivity]].
  apply andb_false_iff in E as [E|E].
  - left. apply bool_decide_eq_false in E.
    destruct (mapping !! src); [exfalso; apply E; eauto | reflexivity].
  - right. destruct overwrite; [reflexivity | discriminate].
Qed.

Lemma stored_is_Some (src k : str) (target : option str)
      (mapping : gmap str str) :
  is_Some (mapping !! k) -> is_Some (stored src target mapping !! k).
Proof.
  intros H. unfold stored. destruct target as [t|]; [|exact H].
  destruct (nonempty t); [|exact H].
  rewrite lookup_insert. case_decide; [eauto | exact H].
Qed.

Lemma stored_other (src k : str) (target : option str)
      (mapping : gmap str str) :
  src <> k -> stored src target mapping !! k = mapping !! k.
Proof.
  intros H. unfold stored. destruct target as [t|]; [|reflexivity].
  destruct (nonempty t); [|reflexivity]. apply lookup_insert_ne, H.
Qed.

(** No key is ever removed. *)
Lemma fold_keeps_keys (items : list item) (s : run_state W) (k : str) :
  is_Some (s.1.1 !! k) -> is_Some ((fold_left step items s).1.1 !! k).
Proof.
  revert s. induction items as [|it items IH]; intros [[m w] log] H; [exact H|].
  cbn [fold_left]. apply IH.
  destruct (resolve_item_cases m w log it)
    as [-> | (src & ttl & ppl & target & w' & _ & _ & _ & ->)]; [exact H|].
  apply stored_is_Some, H.
Qed.

(** The searches of a run are added to the record, in order. *)
Lemma fold_log_extends (items : list item) (s : run_state W) :
  exists new, (fold_left step items s).2 = s.2 ++ new.
Proof.
  revert s. induction items as [|it items IH]; intros [[m w] log].
  - exists []. symmetry. apply app_nil_r.
  - cbn [fold_left].
    destruct (resolve_item_cases m w log it)
      as [-> | (src & ttl & ppl & target & w' & _ & _ & _ & ->)]; [apply IH|].
    destruct (IH (stored src target m, w', log ++ [MkQuery src ttl ppl target]))
      as [new ->].
    exists (MkQuery src ttl ppl target :: new). cbn [snd].
    rewrite <- app_assoc. reflexivity.
Qed.

(** An entry changes only through a search, for its key, that found
    something. *)
Lemma fold_unchanged_without_result (items : list item) (m : gmap str str)
      (w : W) (log : list query) (k : str) :
  exists new,
    (fold_left step items (m, w, log)).2 = log ++ new
    /\ (Forall (fun q => q_src q = k -> q_target q = None) new ->
        (fold_left step items (m, w, log)).1.1 !! k = m !! k).
Proof.
  revert m w log. induction items as [|it items IH]; intros m w log.
  - exists []. split; [symmetry; apply app_nil_r | reflexivity].
  - cbn [fold_left].
    destruct (resolve_item_cases m w log it)
      as [-> | (src & ttl & ppl & target & w' & _ & _ & _ & ->)]; [apply IH|].
    destruct (IH (stored src target m) w' (log ++ [MkQuery src ttl ppl target]))
      as (new & -> & Hnew).
    exists (MkQuery src ttl ppl target :: new).
    split; [rewrite <- app_assoc; reflexivity|].
    intros Hall. inversion Hall as [|? ? Hq Hrest]; subst.
    rewrite (Hnew Hrest). cbn in Hq.
    destruct (decide (src = k)) as [Heq|Hne]; [|apply stored_other, Hne].
    rewrite (Hq Heq). reflexivity.
Qed.

Hypothesis keep : overwrite = false.

(** Without the overwrite flag an entry is never searched for again and
    keeps its value. *)
Lemma fold_keeps_entry (items : list item) (m : gmap str str) (w : W)
      (log : list query) (k v : str) :
  m !! k = Some v ->
  (fold_left step items (m, w, log)).1.1 !! k = Some v
  /\ exists new,
      (fold_left step items (m, w, log)).2 = log ++ new
      /\ Forall (fun q => q_src q <> k) new.
Proof.
  revert m w log. induction items as [|it items IH]; intros m w log Hk.
  - split; [exact Hk|]. exists []. split; [symmetry; apply app_nil_r | constructor].
  - cbn [fold_left].
    destruct (resolve_item_cases m w log it)
      as [-> | (src & ttl & ppl & target & w' & _ & Hfree & _ & ->)];
      [apply IH, Hk|].
    destruct Hfree as [Hfree|Hov]; [|congruence].
    assert (Hne : src <> k) by congruence.
    destruct (IH (stored src target m) w' (log ++ [MkQuery src ttl ppl target]))
      as (Hv & new & -> & Hnew).
    { rewrite stored_other by exact Hne. exact Hk. }
    split; [exact Hv|].
    exists (MkQuery src ttl ppl target :: new).
    split; [rewrite <- app_assoc; reflexivity|].
    constructor; [exact Hne | exact Hnew].
Qed.

End Resolver.

(** C5. When an item's [subject_url] already has an entry and the overwrite
    flag is off, a run issues no search for that key and returns the
    mapping with the entry's value unchanged, whatever the searches would
    have returned; this holds for both destinations. *)
Theorem resolver_keeps_existing_entry
        (W : Type) (search_goodreads search_imdb : str -> str -> W -> option str * W)
        (items : list item) (existing : gmap str str) (w : W)
        (it : item) (src v : str) :
  In it items -> subject_url it = Some src -> existing !! src = Some v ->
  ((build_goodreads_mapping W search_goodreads items existing false w).1.1 !! src
   = Some v
   /\ Forall (fun q => q_src q <> src)
             (build_goodreads_mapping W search_goodreads items existing false w).2)
  /\ ((build_imdb_mapping W search_imdb items existing false w).1.1 !! src
      = Some v
      /\ Forall (fun q => q_src q <> src)
                (build_imdb_mapping W search_imdb items existing false w).2).
Proof.
  intros _ _ Hv. unfold build_goodreads_mapping, build_imdb_mapping. split.
  - destruct (fold_keeps_entry W author search_goodreads false eq_refl
                items existing w [] src v Hv) as (H1 & new & -> & H2).
    split; assumption.
  - destruct (fold_keeps_entry W director search_imdb false eq_refl
                items existing w [] src v Hv) as (H1 & new & -> & H2).
    split; assumption.
Qed.

Lemma resolver_keeps_existing_entry_witness :
  (build_goodreads_mapping nat site_always_new [translated_1; translated_2]
                           existing_one false 0%nat).1.1 !! lit "douban/1"
  = Some (lit "site/old")
  /\ Forall (fun q => q_src q <> lit "douban/1")
            (build_goodreads_mapping nat site_always_new
                                     [translated_1; translated_2]
                                     existing_one false 0%nat).2.
Proof.
  apply (resolver_keeps_existing_entry nat site_always_new site_always_new
           [translated_1; translated_2] existing_one 0%nat
           translated_1 (lit "douban/1") (lit "site/old")).
  - left. reflexivity.
  - reflexivity.
  - vm_compute. reflexivity.
Defined.

(** C10. A run never removes a key: the keys of the existing mapping are
    keys of the returned one.  An entry whose key was searched only without
    result (null) keeps its previous value, with the overwrite flag on or
    off; in particular a turn of the loop whose search returns null leaves
    the whole mapping as it was.  This holds for both destinations. *)
Theorem resolver_never_removes
        (W : Type) (search_goodreads search_imdb : str -> str -> W -> option str * W)
        (items : list item) (existing : gmap str str) (overwrite : bool) (w : W) :
  let goodreads :=
    build_goodreads_mapping W search_goodreads items existing overwrite w in
  let imdb := build_imdb_mapping W search_imdb items existing overwrite w in
  dom existing ⊆ dom goodreads.1.1
  /\ dom existing ⊆ dom imdb.1.1
  /\ (forall src,
         Forall (fun q => q_src q = src -> q_target q = None) goodreads.2 ->
         goodreads.1.1 !! src = existing !! src)
  /\ (forall src,
         Forall (fun q => q_src q = src -> q_target q = None) imdb.2 ->
         imdb.1.1 !! src = existing !! src)
  /\ (forall people_of search it log w',
         search (first_truthy [title it; title_en it])
                (first_truthy [people_of it]) w = (None, w') ->
         (resolve_item W people_of search overwrite (existing, w, log) it).1.1
         = existing).
Proof.
  cbn zeta. unfold build_goodreads_mapping, build_imdb_mapping.
  split; [|split; [|split; [|split]]].
  - intros k Hk. apply elem_of_dom. apply elem_of_dom in Hk.
    apply fold_keeps_keys. exact Hk.
  - intros k Hk. apply elem_of_dom. apply elem_of_dom in Hk.
    apply fold_keeps_keys. exact Hk.
  - intros src.
    destruct (fold_unchanged_without_result W author search_goodreads overwrite
                items existing w [] src) as (new & -> & H).
    exact H.
  - intros src.
    destruct (fold_unchanged_without_result W director search_imdb overwrite
                items existing w [] src) as (new & -> & H).
    exact H.
  - intros people_of search it log w' Hs. unfold resolve_item.
    destruct (subject_url it) as [src|]; [|reflexivity].
    destruct (negb (nonempty src)); [reflexivity|].
    destruct (bool_decide (is_Some (existing !! src)) && negb overwrite);
      [reflexivity|].
    rewrite Hs. reflexivity.
Qed.

Lemma resolver_never_removes_witness :
  (build_goodreads_mapping nat site_finds_nothing [translated_1; translated_2]
                           existing_one true 0%nat).1.1 !! lit "douban/1"
  = existing_one !! lit "douban/1"
  /\ (resolve_item nat author site_finds_nothing true
                   (existing_one, 0%nat, []) translated_1).1.1
     = existing_one.
Proof.
  destruct (resolver_never_removes nat site_finds_nothing site_finds_nothing
              [translated_1; translated_2] existing_one true 0%nat)
    as (_ & _ & Hrun & _ & Hstep).
  split.
  - apply Hrun. vm_compute. repeat constructor.
  - apply (Hstep author site_finds_nothing translated_1 [] 1%nat). reflexivity.
Defined.

End SearchFacts.


(* ===================================================================== *)
(** * douban_translate.py: degradation and the people list                *)
(* ===================================================================== *)

Module TranslateFacts.
Import Py Translate Spec Samples PyFacts.

Ltac run_monad :=
  unfold bind, try_except, ret, raise, lift in *; cbn beta iota in *.

Section Translator.

Variable St : Type.
Variable complete : request -> M St str.
Variable json_loads : str -> option json.

(** The free-text path asks nothing for a blank text and returns the empty
    string. *)
Lemma translate_text_blank (text : str) (st : St) :
  strip text = [] -> translate_text St complete text st = (Ok [], st).
Proof. intros H. unfold translate_text. rewrite H. reflexivity. Qed.

Lemma translate_people_list_per_name (people : list str) (st : St) :
  exists outs st',
    translate_people_list St complete people st = (Ok outs, st')
    /\ per_name St complete people st outs st'.
Proof.
  revert st. induction people as [|p ps IH]; intros st.
  - exists [], st. split; [reflexivity | constructor].
  - cbn [translate_people_list].
    destruct (nonempty (strip p)) eqn:E.
    + assert (Hp : strip p <> []) by (intros Hn; rewrite Hn in E; discriminate).
      run_monad.
      destruct (complete (PersonRequest (strip p)) st) as [[content|e] st1] eqn:Ec;
        destruct (IH st1) as (outs & st' & Hrun & Hrel); rewrite Hrun.
      * exists (strip content :: outs), st'. split; [reflexivity|].
        eapply per_name_translated; eauto.
      * exists (strip p :: outs), st'. split; [reflexivity|].
        eapply per_name_kept; eauto.
    + apply nonempty_false in E.
      destruct (IH st) as (outs & st' & Hrun & Hrel).
      exists outs, st'. split; [exact Hrun|].
      apply per_name_blank; assumption.
Qed.

(** One name comes back for every entry that is not blank. *)
Lemma per_name_length (people outs : list str) (st st' : St) :
  per_name St complete people st outs st' ->
  length outs = length (stripped_nonempty people).
Proof.
  induction 1 as [st|p ps st outs st' Hp _ IH
                  |p ps st content st1 outs st' Hp _ _ IH
                  |p ps st e st1 outs st' Hp _ _ IH];
    rewrite ?stripped_nonempty_cons.
  - reflexivity.
  - rewrite Hp. exact IH.
  - rewrite (nonempty_true _ Hp). simpl. f_equal. exact IH.
  - rewrite (nonempty_true _ Hp). simpl. f_equal. exact IH.
Qed.

Lemma names_of_returns (people_en people : list str) (st : St) :
  exists names st',
    names_of St complete people_en people st = (Ok names, st')
    /\ (forall n l, people_en = n :: l -> names = people_en /\ st' = st)
    /\ (people_en = [] -> per_name St complete people st names st').
Proof.
  destruct people_en as [|n l]; cbn [names_of].
  - destruct (translate_people_list_per_name people st) as (outs & st' & H1 & H2).
    exists outs, st'. split; [exact H1|]. split; [discriminate | intros _; exact H2].
  - exists (n :: l), st. split; [reflexivity|].
    split; [intros ? ? _; split; reflexivity | discriminate].
Qed.

(** The handler of [translate_all] turns any exception into empty fields. *)
Lemma translate_or_empty_returns (item : raw_item) (st : St) :
  exists t st1, translate_or_empty St complete json_loads item st = (Ok t, st1).
Proof.
  unfold translate_or_empty, try_except.
  destruct (translate_title_and_comment St complete json_loads _ _ _ _ st)
    as [[t|e] st1]; eauto.
Qed.

Lemma translate_item_returns (item : raw_item) (st : St) :
  exists out st',
    translate_item St complete json_loads item st = (Ok out, st').
Proof.
  unfold translate_item.
  destruct (translate_or_empty_returns item st) as (t & st1 & Ht).
  unfold bind at 1. rewrite Ht.
  destruct (names_of_returns (people_en_list t) (item_people item) st1)
    as (names & st2 & Hn & _).
  destruct (str_eqb (item_category item) BOOK);
    [|destruct (str_eqb (item_category item) MOVIE)];
    unfold bind, ret; rewrite ?Hn; eauto.
Qed.

(** A failed structured call makes the [try] body raise. *)
Lemma structured_attempt_raises (title_zh comment_zh category : str)
      (people : list str) (st st1 : St) :
  structured_call_fails St complete json_loads
                        (payload title_zh comment_zh category people) st st1 ->
  exists e,
    structured_attempt St complete json_loads title_zh comment_zh category
                       people st = (Raise e, st1).
Proof.
  intros H. unfold structured_attempt.
  destruct H as [e st1 Hc | content st1 Hc Hj | content st1 data Hc Hj Hd
                 | content st1 members k v Hc Hj Hk Hg Ht Hv];
    unfold bind at 1; rewrite Hc.
  - eauto.
  - run_monad. rewrite Hj. eauto.
  - run_monad. rewrite Hj.
    destruct data; try (exists AttributeError; reflexivity).
    exfalso. eapply Hd. reflexivity.
  - run_monad. rewrite Hj. cbn [data_get].
    assert (Hraise : or_empty_strip (Some v) = Raise AttributeError).
    { unfold or_empty_strip. rewrite Ht.
      destruct v; try reflexivity. exfalso. eapply Hv. reflexivity. }
    destruct Hk as [-> | ->].
    + rewrite Hg, Hraise. eauto.
    + destruct (or_empty_strip (dict_get TITLE_EN members)); [|eauto].
      rewrite Hg, Hraise. eauto.
Qed.

(** When the [try] body returns, the answer was a JSON object and the names
    are the text entries of its [people_en], trimmed, in its order. *)
Lemma structured_attempt_returns (title_zh comment_zh category : str)
      (people : list str) (st st1 : St) (t : trans) :
  structured_attempt St complete json_loads title_zh comment_zh category
                     people st = (Ok t, st1) ->
  exists content members,
    complete (payload title_zh comment_zh category people) st
    = (Ok content, st1)
    /\ json_loads (strip content) = Some (JObj members)
    /\ or_empty_strip (dict_get TITLE_EN members) = Ok (title_en t)
    /\ or_empty_strip (dict_get COMMENT_EN members) = Ok (comment_en t)
    /\ people_en t = Some (people_of_json (dict_get PEOPLE_EN members)).
Proof.
  unfold structured_attempt. unfold bind at 1.
  destruct (complete (payload title_zh comment_zh category people) st)
    as [[content|e] st0] eqn:Ec; [|discriminate].
  run_monad.
  destruct (json_loads (strip content)) as [data|] eqn:Ej; [|discriminate].
  destruct data as [| | | | | |members]; cbn [data_get]; try discriminate.
  destruct (or_empty_strip (dict_get TITLE_EN members)) as [a|] eqn:Ea;
    [|discriminate].
  destruct (or_empty_strip (dict_get COMMENT_EN members)) as [c|] eqn:Eb;
    [|discriminate].
  intros [= <- <-]. exists content, members. repeat split; assumption.
Qed.

Lemma fallback_on_failure (title_zh comment_zh category : str)
      (people : list str) (st st1 : St) :
  structured_call_fails St complete json_loads
                        (payload title_zh comment_zh category people) st st1 ->
  translate_title_and_comment St complete json_loads title_zh comment_zh
                              category people st
  = free_text_fallback St complete title_zh comment_zh st1.
Proof.
  intros H. destruct (structured_attempt_raises _ _ _ _ _ _ H) as [e He].
  unfold translate_title_and_comment, try_except. rewrite He. reflexivity.
Qed.

(** What the [except] body amounts to. *)
Lemma free_text_fallback_unfold (title_zh comment_zh : str) (st1 : St) :
  free_text_fallback St complete title_zh comment_zh st1
  = match translate_text St complete title_zh st1 with
    | (Ok t, st2) =>
        match translate_text St complete comment_zh st2 with
        | (Ok c, st3) => (Ok (MkTrans t c (Some [])), st3)
        | (Raise e, st3) => (Raise e, st3)
        end
    | (Raise e, st2) => (Raise e, st2)
    end.
Proof.
  unfold free_text_fallback, bind, ret.
  destruct (translate_text St complete title_zh st1) as [[t|e] st2];
    [|reflexivity].
  destruct (translate_text St complete comment_zh st2) as [[c|e] st3];
    reflexivity.
Qed.

(** Only the structured call gives [translate_or_empty] a list of names. *)
Lemma translate_or_empty_people (item : raw_item) (st st1 : St) (t : trans)
      (n : str) (l : list str) :
  translate_or_empty St complete json_loads item st = (Ok t, st1) ->
  people_en t = Some (n :: l) ->
  structured_attempt St complete json_loads (item_title_zh item)
                     (item_comment_zh item) (item_category item)
                     (item_people item) st = (Ok t, st1).
Proof.
  unfold translate_or_empty, translate_title_and_comment, try_except.
  destruct (structured_attempt St complete json_loads _ _ _ _ st)
    as [[t0|e] st0].
  - intros [= <- <-] _. reflexivity.
  - rewrite free_text_fallback_unfold.
    destruct (translate_text St complete (item_title_zh item) st0)
      as [[a|e1] st2].
    + destruct (translate_text St complete (item_comment_zh item) st2)
        as [[c|e2] st3]; intros [= <- <-]; discriminate.
    + intros [= <- <-]; discriminate.
Qed.

Lemma translate_or_empty_no_people (item : raw_item) (st st0 st1 : St)
      (t : trans) (e : exn) :
  structured_attempt St complete json_loads (item_title_zh item)
                     (item_comment_zh item) (item_category item)
                     (item_people item) st = (Raise e, st0) ->
  translate_or_empty St complete json_loads item st = (Ok t, st1) ->
  people_en_list t = [].
Proof.
  unfold translate_or_empty, translate_title_and_comment, try_except.
  intros ->. rewrite free_text_fallback_unfold.
  destruct (translate_text St complete (item_title_zh item) st0)
    as [[a|e1] st2].
  - destruct (translate_text St complete (item_comment_zh item) st2)
      as [[c|e2] st3]; intros [= <- <-]; reflexivity.
  - intros [= <- <-]; reflexivity.
Qed.

(** Whenever the [try] body raises, the structured call failed in one of
    the four ways. *)
Lemma structured_attempt_raises_inv (title_zh comment_zh category : str)
      (people : list str) (st st1 : St) (e : exn) :
  structured_attempt St complete json_loads title_zh comment_zh category
                     people st = (Raise e, st1) ->
  structured_call_fails St complete json_loads
                        (payload title_zh comment_zh category people) st st1.
Proof.
  unfold structured_attempt. unfold bind at 1.
  destruct (complete (payload title_zh comment_zh category people) st)
    as [[content|e0] st0] eqn:Ec.
  2:{ intros [= _ <-]. eapply call_raises. exact Ec. }
  run_monad.
  destruct (json_loads (strip content)) as [data|] eqn:Ej.
  2:{ intros [= _ <-]. eapply content_not_json; eassumption. }
  destruct data as [| | | | | |members]; cbn [data_get];
    try (intros [= _ <-]; eapply json_not_object;
         [exact Ec | exact Ej | discriminate]).
  assert (Hfield : forall k, or_empty_strip (dict_get k members)
                             = Raise AttributeError ->
             exists v, dict_get k members = Some v /\ truthy v = true
                       /\ forall text, v <> JStr text).
  { intros k. unfold or_empty_strip.
    destruct (dict_get k members) as [v|]; [|discriminate].
    destruct (truthy v) eqn:Et; [|discriminate].
    destruct v; try discriminate; intros _; eexists; split;
      try reflexivity; split; try exact Et; discriminate. }
  assert (Hexn : forall k e', or_empty_strip (dict_get k members) = Raise e' ->
                              e' = AttributeError).
  { intros k e'. unfold or_empty_strip.
    destruct (dict_get k members) as [v|]; [|discriminate].
    destruct (truthy v); [|discriminate].
    destruct v; try discriminate; intros [= <-]; reflexivity. }
  destruct (or_empty_strip (dict_get TITLE_EN members)) as [a|e1] eqn:Ea.
  - destruct (or_empty_strip (dict_get COMMENT_EN members)) as [c|e2] eqn:Eb;
      [discriminate|].
    intros [= _ <-]. rewrite (Hexn _ _ Eb) in Eb.
    destruct (Hfield _ Eb) as (v & Hv & Ht & Hn).
    eapply field_not_text with (k := COMMENT_EN) (v := v); eauto.
  - intros [= _ <-]. rewrite (Hexn _ _ Ea) in Ea.
    destruct (Hfield _ Ea) as (v & Hv & Ht & Hn).
    eapply field_not_text with (k := TITLE_EN) (v := v); eauto.
Qed.

(** The fields a record is written with. *)
Lemma translate_item_fields (item : raw_item) (st : St) :
  exists t st1 out st2,
    translate_or_empty St complete json_loads item st = (Ok t, st1)
    /\ translate_item St complete json_loads item st = (Ok out, st2)
    /\ category out = item_category item
    /\ subject_url out = or_empty (r_subject_url item)
    /\ rating out = r_rating item
    /\ comment out = comment_en t
    /\ title out
       = match (if str_eqb (item_category item) MOVIE
                then detect_english_from_title (item_title_zh item)
                else None) with
         | Some d => if nonempty d then d else title_en t
         | None => title_en t
         end
    /\ (author out <> None <-> item_category item = BOOK)
    /\ (director out <> None <-> item_category item = MOVIE).
Proof.
  destruct (translate_or_empty_returns item st) as (t & st1 & Ht).
  destruct (names_of_returns (people_en_list t) (item_people item) st1)
    as (names & st2 & Hn & _).
  unfold translate_item. unfold bind at 1. rewrite Ht.
  unfold str_eqb.
  destruct (decide (item_category item = BOOK)) as [Hb|Hb].
  - rewrite (bool_decide_eq_true_2 _ Hb). unfold bind, ret. rewrite Hn.
    eexists t, st1, _, st2. split; [reflexivity|]. split; [reflexivity|].
    cbn. repeat (split; [reflexivity|]).
    split; [split; [intros _; exact Hb | discriminate]|].
    split; [intros H; contradiction | intros Hm; rewrite Hm in Hb; discriminate].
  - rewrite (bool_decide_eq_false_2 _ Hb).
    destruct (decide (item_category item = MOVIE)) as [Hm|Hm].
    + rewrite (bool_decide_eq_true_2 _ Hm). unfold bind, ret. rewrite Hn.
      eexists t, st1, _, st2. split; [reflexivity|]. split; [reflexivity|].
      cbn. repeat (split; [reflexivity|]).
      split; [split; [intros H; contradiction | intros H; contradiction]|].
      split; [intros _; exact Hm | discriminate].
    + rewrite (bool_decide_eq_false_2 _ Hm). unfold ret.
      eexists t, st1, _, st1. split; [reflexivity|]. split; [reflexivity|].
      cbn. repeat (split; [reflexivity|]).
      split; split; (intros H; contradiction).
Qed.

(** Every list of items has its records. *)
Lemma translated_by_total (items : list raw_item) (st : St) :
  exists outs st', translated_by St complete json_loads items st outs st'.
Proof.
  revert st. induction items as [|item rest IH]; intros st.
  - exists [], st. constructor.
  - destruct (translate_item_returns item st) as (out & st1 & Ho).
    destruct (IH st1) as (outs & st' & Hr).
    exists (out :: outs), st'. econstructor; eassumption.
Qed.

Lemma translated_by_carried (items : list raw_item) (st : St)
      (outs : list out_item) (st' : St) :
  translated_by St complete json_loads items st outs st' ->
  Forall2 carried items outs.
Proof.
  induction 1 as [|item items st out st1 outs st' Ho _ IH]; constructor;
    [|exact IH].
  destruct (translate_item_fields item st)
    as (t & st0 & out' & st2 & _ & Ho' & Hc & Hu & Hr & _).
  rewrite Ho in Ho'. injection Ho' as <- <-.
  split; [exact Hc|]. split; [exact Hu | exact Hr].
Qed.

Lemma translated_by_snoc (items : list raw_item) (item : raw_item)
      (st st1 st2 : St) (outs : list out_item) (out : out_item) :
  translated_by St complete json_loads items st outs st1 ->
  translate_item St complete json_loads item st1 = (Ok out, st2) ->
  translated_by St complete json_loads (items ++ [item]) st (outs ++ [out]) st2.
Proof.
  induction 1 as [|i items st o st0 outs st1 Ho _ IH]; intros Hi; cbn [app].
  - econstructor; [exact Hi | constructor].
  - econstructor; [exact Ho | apply IH, Hi].
Qed.

End Translator.

(** ** The run and its file *)

Section Run.

Variable St : Type.
Variable complete : request -> M St str.
Variable json_loads : str -> option json.
Variable limit : N.
Variable Fs : Type.
Variable open_w : Fs -> bool * Fs.
Variable write_close : list out_item -> Fs -> bool * Fs.

Let write := write_text St limit Fs open_w write_close.
Let loop := translate_from St complete json_loads limit Fs open_w write_close.

Lemma writable_decide (out : out_item) :
  writable limit out
  <-> dumpable limit out && record_encodable out = true.
Proof. unfold writable. rewrite andb_true_iff. reflexivity. Qed.

Lemma Forall_writable (translated : list out_item) :
  Forall (writable limit) translated
  <-> List.forallb (dumpable limit) translated = true
      /\ List.forallb record_encodable translated = true.
Proof.
  rewrite !forallb_forall, List.Forall_forall. unfold writable. split.
  - intros H. split; intros x Hx; apply (H x Hx).
  - intros [H1 H2] x Hx. split; [apply H1 | apply H2]; exact Hx.
Qed.

(** The write raises one of three exceptions, and leaves the service as it
    was. *)
Lemma write_text_raises (translated : list out_item) (s s' : St * Fs)
      (e : exn) :
  write translated s = (Raise e, s') ->
  (e = ValueError \/ e = OSError \/ e = UnicodeEncodeError) /\ fst s' = fst s.
Proof.
  unfold write, write_text. destruct s as [st fs].
  destruct (List.forallb (dumpable limit) translated); cbn [negb].
  2:{ intros [= <- <-]. auto. }
  destruct (open_w fs) as [[|] fs1]; cbn [negb].
  2:{ intros [= <- <-]. auto. }
  destruct (List.forallb record_encodable translated); cbn [negb].
  2:{ intros [= <- <-]. auto. }
  destruct (write_close translated fs1) as [[|] fs2]; [discriminate|].
  intros [= <- <-]. auto.
Qed.

Lemma write_text_returns (translated : list out_item) (s s' : St * Fs) :
  write translated s = (Ok tt, s') ->
  Forall (writable limit) translated /\ fst s' = fst s.
Proof.
  unfold write, write_text. destruct s as [st fs]. rewrite Forall_writable.
  destruct (List.forallb (dumpable limit) translated); cbn [negb];
    [|discriminate].
  destruct (open_w fs) as [[|] fs1]; cbn [negb]; [|discriminate].
  destruct (List.forallb record_encodable translated); cbn [negb];
    [|discriminate].
  destruct (write_close translated fs1) as [[|] fs2]; [|discriminate].
  intros [= <-]. auto.
Qed.

(** On a file system that refuses nothing, the write returns exactly when
    every record is writable. *)
Lemma write_text_decided (translated : list out_item) (st : St) (fs : Fs) :
  never_fails open_w write_close ->
  (Forall (writable limit) translated
   /\ exists fs', write translated (st, fs) = (Ok tt, (st, fs')))
  \/ (~ Forall (writable limit) translated
      /\ exists e fs',
          write translated (st, fs) = (Raise e, (st, fs'))
          /\ (e = ValueError \/ e = UnicodeEncodeError)).
Proof.
  intros [Hopen Hwrite]. unfold write, write_text. rewrite Forall_writable.
  destruct (List.forallb (dumpable limit) translated); cbn [negb].
  2:{ right. split; [intros [H _]; discriminate | eauto]. }
  pose proof (Hopen fs) as Ho. destruct (open_w fs) as [opened fs1].
  cbn [fst] in Ho. subst opened. cbn [negb].
  destruct (List.forallb record_encodable translated); cbn [negb].
  2:{ right. split; [intros [_ H]; discriminate | eauto]. }
  pose proof (Hwrite translated fs1) as Hw.
  destruct (write_close translated fs1) as [written fs2].
  cbn [fst] in Hw. subst written. left. eauto.
Qed.

(** A turn of the loop. *)
Lemma translate_from_step (translated : list out_item) (item : raw_item)
      (rest : list raw_item) (st : St) (fs : Fs) :
  exists out st1,
    translate_item St complete json_loads item st = (Ok out, st1)
    /\ loop translated (item :: rest) (st, fs)
       = match write (translated ++ [out]) (st1, fs) with
         | (Ok _, s2) => loop (translated ++ [out]) rest s2
         | (Raise e, s2) => (Raise e, s2)
         end.
Proof.
  destruct (translate_item_returns St complete json_loads item st)
    as (out & st1 & Ho).
  exists out, st1. split; [exact Ho|].
  unfold loop. cbn [translate_from]. unfold bind at 1, on_service.
  rewrite Ho. unfold bind. reflexivity.
Qed.

(** Only the exceptions of the write leave the loop. *)
Lemma translate_from_raises (items : list raw_item)
      (translated : list out_item) (s s' : St * Fs) (e : exn) :
  loop translated items s = (Raise e, s') ->
  e = ValueError \/ e = OSError \/ e = UnicodeEncodeError.
Proof.
  revert translated s. induction items as [|item rest IH]; intros translated s.
  - discriminate.
  - destruct s as [st fs].
    destruct (translate_from_step translated item rest st fs)
      as (out & st1 & _ & ->).
    destruct (write (translated ++ [out]) (st1, fs)) as [[[]|e0] s2] eqn:Ew.
    + apply IH.
    + intros [= <- <-]. apply (write_text_raises _ _ _ _ Ew).
Qed.

(** When the loop returns, it returns what it had with the records of the
    items after it, each of which the write accepted. *)
Lemma translate_from_returns (items : list raw_item)
      (translated result : list out_item) (st : St) (fs : Fs)
      (s' : St * Fs) :
  loop translated items (st, fs) = (Ok result, s') ->
  exists outs,
    result = translated ++ outs
    /\ translated_by St complete json_loads items st outs (fst s')
    /\ Forall (writable limit) outs.
Proof.
  revert translated st fs.
  induction items as [|item rest IH]; intros translated st fs.
  - intros [= <- <-]. exists []. rewrite app_nil_r.
    split; [reflexivity|]. split; constructor.
  - destruct (translate_from_step translated item rest st fs)
      as (out & st1 & Ho & ->).
    destruct (write (translated ++ [out]) (st1, fs)) as [[[]|e0] [st2 fs2]] eqn:Ew;
      [|discriminate].
    destruct (write_text_returns _ _ _ Ew) as [Hall Hst].
    cbn [fst] in Hst. subst st2.
    intros H. destruct (IH _ _ _ H) as (outs & -> & Hrun & Hw).
    exists (out :: outs). rewrite <- app_assoc.
    split; [reflexivity|]. split; [econstructor; eassumption|].
    constructor; [|exact Hw].
    apply Forall_app in Hall as [_ Hout]. inversion Hout; assumption.
Qed.

(** On a file system that refuses nothing, the loop goes as far as the
    first record that is not writable. *)
Lemma translate_from_decided (items : list raw_item)
      (translated : list out_item) (st : St) (fs : Fs) :
  never_fails open_w write_close ->
  Forall (writable limit) translated ->
  (exists outs st' fs',
      translated_by St complete json_loads items st outs st'
      /\ Forall (writable limit) outs
      /\ loop translated items (st, fs) = (Ok (translated ++ outs), (st', fs')))
  \/ (exists before item after outs out st1 e fs',
         items = before ++ item :: after
         /\ translated_by St complete json_loads (before ++ [item]) st
                          (outs ++ [out]) st1
         /\ Forall (writable limit) outs /\ ~ writable limit out
         /\ loop translated items (st, fs) = (Raise e, (st1, fs'))
         /\ (e = ValueError \/ e = UnicodeEncodeError)).
Proof.
  intros Hfs. revert translated st fs.
  induction items as [|item rest IH]; intros translated st fs Hacc.
  - left. exists [], st, fs. rewrite app_nil_r.
    split; [constructor|]. split; [constructor | reflexivity].
  - destruct (translate_from_step translated item rest st fs)
      as (out & st1 & Ho & ->).
    destruct (write_text_decided (translated ++ [out]) st1 fs Hfs)
      as [[Hall (fs1 & ->)] | [Hbad (e & fs1 & -> & He)]].
    + assert (Hout : writable limit out).
      { apply Forall_app in Hall as [_ H]. inversion H; assumption. }
      destruct (IH (translated ++ [out]) st1 fs1 Hall)
        as [(outs & st' & fs' & Hrun & Hw & ->)
           | (before & i & after & outs & o & st2 & e & fs' & -> & Hrun & Hw
              & Hno & -> & He)].
      * left. exists (out :: outs), st', fs'. rewrite <- app_assoc.
        split; [econstructor; eassumption|].
        split; [constructor; assumption | reflexivity].
      * right. exists (item :: before), i, after, (out :: outs), o, st2, e, fs'.
        split; [reflexivity|].
        split; [cbn [app]; econstructor; eassumption|].
        split; [constructor; assumption|]. auto.
    + right. exists [], item, rest, [], out, st1, e, fs1.
      split; [reflexivity|].
      split; [cbn [app]; econstructor; [exact Ho | constructor]|].
      split; [constructor|].
      split; [|auto].
      intros Hout. apply Hbad. apply Forall_app. split; [exact Hacc|].
      constructor; [exact Hout | constructor].
Qed.

(** The records of a list of items are settled by the items and the state
    of the service, and those of a list in two parts are those of the
    parts. *)
Lemma translated_by_functional (items : list raw_item) (st : St)
      (outs outs2 : list out_item) (st' st2 : St) :
  translated_by St complete json_loads items st outs st' ->
  translated_by St complete json_loads items st outs2 st2 ->
  outs = outs2 /\ st' = st2.
Proof.
  intros H. revert outs2 st2.
  induction H as [|item items st out st1 outs st' Ho _ IH]; intros outs2 st2 H2;
    inversion H2 as [|? ? ? out2 st3 outs3 ? Ho2 Hrest]; subst.
  - auto.
  - rewrite Ho in Ho2. injection Ho2 as <- <-.
    destruct (IH _ _ Hrest) as [-> ->]. auto.
Qed.

Lemma translated_by_parts (a b : list raw_item) (st : St)
      (outs : list out_item) (st' : St) :
  translated_by St complete json_loads (a ++ b) st outs st' ->
  exists o1 o2 st1,
    outs = o1 ++ o2
    /\ translated_by St complete json_loads a st o1 st1
    /\ translated_by St complete json_loads b st1 o2 st'.
Proof.
  revert st outs. induction a as [|item a IH]; intros st outs; cbn [app].
  - intros H. exists [], outs, st. split; [reflexivity|].
    split; [constructor | exact H].
  - intros H. inversion H as [|? ? ? out st0 outs0 ? Ho Hrest]; subst.
    destruct (IH _ _ Hrest) as (o1 & o2 & st1 & -> & H1 & H2).
    exists (out :: o1), o2, st1. split; [reflexivity|].
    split; [econstructor; eassumption | exact H2].
Qed.

(** On a file system that refuses nothing, a run whose records are all
    writable returns them. *)
Lemma translate_from_writable (items : list raw_item) (st : St) (fs : Fs)
      (outs : list out_item) (st' : St) :
  never_fails open_w write_close ->
  translated_by St complete json_loads items st outs st' ->
  Forall (writable limit) outs ->
  exists fs', loop [] items (st, fs) = (Ok outs, (st', fs')).
Proof.
  intros Hfs Hrun Hall.
  destruct (translate_from_decided items [] st fs Hfs)
    as [(outs0 & st0 & fs' & Hrun0 & _ & Hr)
       | (before & item & after & o & out & st1 & e & fs' & -> & Hrun1 & _
          & Hno & _)]; [constructor | |].
  - destruct (translated_by_functional _ _ _ _ _ _ Hrun Hrun0) as [-> ->].
    exists fs'. exact Hr.
  - exfalso. apply Hno.
    change (before ++ item :: after) with (before ++ [item] ++ after) in Hrun.
    rewrite app_assoc in Hrun.
    destruct (translated_by_parts _ _ _ _ _ Hrun) as (o1 & o2 & st2 & -> & H1 & _).
    destruct (translated_by_functional _ _ _ _ _ _ H1 Hrun1) as [-> _].
    apply Forall_app in Hall as [Hall _].
    apply Forall_app in Hall as [_ Hall]. inversion Hall; assumption.
Qed.

End Run.

(** C1 fails on the code: a record without a comment whose structured
    answer carries a comment is written with that comment. *)
Theorem empty_comment_not_guarded :
  r_comment_zh book_without_comment = Some []
  /\ item_comment_zh book_without_comment = []
  /\ exists out st',
      translate_item nat service_structured loads_sample
                     book_without_comment 0%nat = (Ok out, st')
      /\ comment out = lit "Great read"
      /\ comment out <> [].
Proof.
  split; [reflexivity|]. split; [reflexivity|].
  eexists _, _. split; [vm_compute; reflexivity|].
  split; [reflexivity | discriminate].
Qed.

(** C2 (amended). Computing the record of an item never raises, whatever
    the service and [json.loads] do: its comment is the one the attempt
    gave and, unless the title holds an alias, so is its title.  The
    attempt falls back exactly when the structured call raises, its content
    is not JSON, the JSON is not an object, or the title or comment of the
    object is a non-empty value that is no text; the title and the comment
    are then each translated as free text and no name is kept, and if that
    raises too the fields are empty.  In every other case the answer is an
    object, its fields are taken as they are (a missing one as empty) and
    nothing more is asked.  What can leave a run is an exception of the
    write of the file that follows each record, and no other; a run that
    returns returns the records of its items, each computed in turn; and on
    a file system that refuses nothing a run whose records are all writable
    does return. *)
Theorem record_translation_falls_back
        (St : Type) (complete : request -> M St str)
        (json_loads : str -> option json)
        (limit : N) (Fs : Type) (open_w : Fs -> bool * Fs)
        (write_close : list out_item -> Fs -> bool * Fs)
        (item : raw_item) (st : St) :
  (exists t st1 out st2,
      translate_or_empty St complete json_loads item st = (Ok t, st1)
      /\ translate_item St complete json_loads item st = (Ok out, st2)
      /\ comment out = comment_en t
      /\ (detect_english_from_title (item_title_zh item) = None ->
          title out = title_en t))
  /\ (forall st1,
         structured_call_fails St complete json_loads
           (payload (item_title_zh item) (item_comment_zh item)
                    (item_category item) (item_people item)) st st1 ->
         translate_title_and_comment St complete json_loads
           (item_title_zh item) (item_comment_zh item)
           (item_category item) (item_people item) st
         = match translate_text St complete (item_title_zh item) st1 with
           | (Ok t, st2) =>
               match translate_text St complete (item_comment_zh item) st2 with
               | (Ok c, st3) => (Ok (MkTrans t c (Some [])), st3)
               | (Raise e, st3) => (Raise e, st3)
               end
           | (Raise e, st2) => (Raise e, st2)
           end
         /\ translate_or_empty St complete json_loads item st
            = match translate_text St complete (item_title_zh item) st1 with
              | (Ok t, st2) =>
                  match translate_text St complete (item_comment_zh item) st2 with
                  | (Ok c, st3) => (Ok (MkTrans t c (Some [])), st3)
                  | (Raise _, st3) => (Ok (MkTrans [] [] None), st3)
                  end
              | (Raise _, st2) => (Ok (MkTrans [] [] None), st2)
              end)
  /\ ((exists st1,
          structured_call_fails St complete json_loads
            (payload (item_title_zh item) (item_comment_zh item)
                     (item_category item) (item_people item)) st st1)
      \/ exists content members st1 t,
          complete (payload (item_title_zh item) (item_comment_zh item)
                            (item_category item) (item_people item)) st
          = (Ok content, st1)
          /\ json_loads (strip content) = Some (JObj members)
          /\ translate_or_empty St complete json_loads item st = (Ok t, st1)
          /\ or_empty_strip (dict_get TITLE_EN members) = Ok (title_en t)
          /\ or_empty_strip (dict_get COMMENT_EN members) = Ok (comment_en t)
          /\ people_en t = Some (people_of_json (dict_get PEOPLE_EN members)))
  /\ (forall items fs e s',
         translate_all St complete json_loads limit Fs open_w write_close
                       items (st, fs) = (Raise e, s') ->
         e = ValueError \/ e = OSError \/ e = UnicodeEncodeError)
  /\ (forall items fs outs s',
         translate_all St complete json_loads limit Fs open_w write_close
                       items (st, fs) = (Ok outs, s') ->
         translated_by St complete json_loads items st outs (fst s'))
  /\ (forall items fs,
         never_fails open_w write_close ->
         exists outs st',
           translated_by St complete json_loads items st outs st'
           /\ (Forall (writable limit) outs ->
               exists fs',
                 translate_all St complete json_loads limit Fs open_w
                               write_close items (st, fs)
                 = (Ok outs, (st', fs')))).
Proof.
  split.
  { destruct (translate_item_fields St complete json_loads item st)
      as (t & st1 & out & st2 & Ht & Ho & _ & _ & _ & Hc & Htitle & _).
    exists t, st1, out, st2. split; [exact Ht|]. split; [exact Ho|].
    split; [exact Hc|]. intros Hd. rewrite Htitle, Hd.
    destruct (str_eqb (item_category item) MOVIE); reflexivity. }
  split.
  { intros st1 H.
    pose proof (fallback_on_failure St complete json_loads _ _ _ _ _ _ H) as Hf.
    rewrite free_text_fallback_unfold in Hf.
    split; [exact Hf|].
    unfold translate_or_empty, try_except. rewrite Hf.
    destruct (translate_text St complete (item_title_zh item) st1)
      as [[t|e] st2]; [|reflexivity].
    destruct (translate_text St complete (item_comment_zh item) st2)
      as [[c|e] st3]; reflexivity. }
  split.
  { destruct (structured_attempt St complete json_loads (item_title_zh item)
                (item_comment_zh item) (item_category item) (item_people item)
                st) as [[t|e] st1] eqn:Es.
    - right.
      destruct (structured_attempt_returns St complete json_loads
                  _ _ _ _ _ _ _ Es)
        as (content & members & Hc & Hj & Ha & Hb & Hp).
      exists content, members, st1, t.
      split; [exact Hc|]. split; [exact Hj|].
      split; [|split; [exact Ha|]; split; [exact Hb | exact Hp]].
      unfold translate_or_empty, translate_title_and_comment, try_except.
      rewrite Es. reflexivity.
    - left. exists st1.
      eapply structured_attempt_raises_inv. exact Es. }
  split; [intros items fs e s'; apply translate_from_raises|].
  split.
  - intros items fs outs s' H.
    destruct (translate_from_returns _ _ _ _ _ _ _ _ _ _ _ _ _ H)
      as (outs' & -> & Hrun & _).
    exact Hrun.
  - intros items fs Hfs.
    destruct (translated_by_total St complete json_loads items st)
      as (outs & st' & Hrun).
    exists outs, st'. split; [exact Hrun|]. intros Hall.
    eapply translate_from_writable; eassumption.
Qed.

Lemma record_translation_falls_back_witness :
  translate_title_and_comment nat service_prose loads_sample
    (item_title_zh book_with_comment) (item_comment_zh book_with_comment)
    (item_category book_with_comment) (item_people book_with_comment) 0%nat
  = (Ok (MkTrans (lit "A fine book.") (lit "A fine book.") (Some [])), 3%nat).
Proof.
  destruct (record_translation_falls_back nat service_prose loads_sample
              Crawl.default_max_str_digits nat disk_open disk_write
              book_with_comment 0%nat) as (_ & H & _).
  destruct (H 1%nat) as [-> _].
  - eapply content_not_json; reflexivity.
  - reflexivity.
Defined.

(** C2 as stated fails in two places.  The answer [{}] does not parse as an
    object with the expected keys, yet there is no free-text translation:
    the record is left with an empty title and an empty comment after the
    one call, although the free-text path would have translated both.  And
    a record does not always come back without an exception: when the
    answer carries a surrogate, the write that follows the record raises
    [UnicodeEncodeError], and the run ends there. *)
Lemma empty_object_and_surrogate :
  (invalid_response nat service_empty_object loads_more
     (payload (item_title_zh book_with_comment)
              (item_comment_zh book_with_comment)
              (item_category book_with_comment)
              (item_people book_with_comment)) 0%nat 1%nat
   /\ translate_title_and_comment nat service_empty_object loads_more
        (item_title_zh book_with_comment) (item_comment_zh book_with_comment)
        (item_category book_with_comment) (item_people book_with_comment)
        0%nat
      = (Ok (MkTrans [] [] (Some [])), 1%nat)
   /\ free_text_fallback nat service_empty_object
        (item_title_zh book_with_comment) (item_comment_zh book_with_comment)
        1%nat
      = (Ok (MkTrans (lit "A fine book.") (lit "A fine book.") (Some [])),
         3%nat))
  /\ (never_fails disk_open disk_write
      /\ exists fs',
          translate_all nat service_surrogate loads_more
                        Crawl.default_max_str_digits nat disk_open disk_write
                        [book_with_comment] (0%nat, 0%nat)
          = (Raise UnicodeEncodeError, (3%nat, fs'))).
Proof.
  split.
  - split.
    + eapply unexpected_content; [reflexivity|].
      intros data Hd. vm_compute in Hd. injection Hd as <-.
      intros (members & [= <-] & Hk).
      inversion Hk as [|? ? Hk1 _]. apply Hk1. reflexivity.
    + split; vm_compute; reflexivity.
  - split; [split; reflexivity|].
    eexists. vm_compute. reflexivity.
Qed.

(** C9 as stated fails in three places.  The structured call succeeds with
    one name for a record that has two.  And in the per-name path a source
    entry that is blank gets no entry at all, and a name whose call raises
    is kept trimmed, not in its original form. *)
Lemma people_target_length_differs :
  (exists t st1 out,
      structured_attempt nat service_structured loads_sample
        (item_title_zh book_without_comment)
        (item_comment_zh book_without_comment)
        (item_category book_without_comment)
        (item_people book_without_comment) 0%nat = (Ok t, st1)
      /\ people_en t = Some [lit "Zhang San"]
      /\ translate_item nat service_structured loads_sample
                        book_without_comment 0%nat = (Ok out, st1)
      /\ author out = Some (join SLASH_SEP [lit "Zhang San"])
      /\ item_people book_without_comment = [zhang_san; li_si]
      /\ length [lit "Zhang San"]
         <> length (item_people book_without_comment))
  /\ (exists out st2,
         item_people book_untidy_people = [32%N :: zhang_san ++ [32%N]; [32%N]]
         /\ translate_item nat service_prose loads_sample
                           book_untidy_people 0%nat = (Ok out, st2)
         /\ author out = Some (join SLASH_SEP [zhang_san])
         /\ zhang_san <> 32%N :: zhang_san ++ [32%N]).
Proof.
  split.
  - eexists _, _, _. split; [vm_compute; reflexivity|].
    split; [reflexivity|]. split; [vm_compute; reflexivity|].
    split; [reflexivity|]. split; [reflexivity|]. vm_compute. discriminate.
  - eexists _, _. split; [reflexivity|].
    split; [vm_compute; reflexivity|].
    split; [reflexivity | discriminate].
Qed.

(** C9 (amended). The source names of a record are its authors when it is a
    book, its directors when it is a movie, and none otherwise; a record of
    another category is written without a people field and nothing is
    asked for it.  For a book or a movie the people field is the names
    joined by [" / "].  When the structured call succeeds with a non-empty
    list of names, the names are that list (the text entries of the
    answer's [people_en], trimmed, in the answer's order and number, which
    need not be the number of source names) and nothing more is asked.
    When the structured call fails, or gives no name, every source name
    that is not blank is translated on its own, in order, a blank one gives
    no entry, and a call that raises leaves that name in its trimmed source
    form; the record is written all the same. *)
Theorem people_target_sources
        (St : Type) (complete : request -> M St str)
        (json_loads : str -> option json) (item : raw_item) (st : St) :
  exists t st1 out st2,
    translate_or_empty St complete json_loads item st = (Ok t, st1)
    /\ translate_item St complete json_loads item st = (Ok out, st2)
    /\ (item_category item <> BOOK -> item_category item <> MOVIE ->
        item_people item = [] /\ author out = None /\ director out = None
        /\ st2 = st1)
    /\ (item_category item = BOOK \/ item_category item = MOVIE ->
        exists names,
          people_field out = Some (join SLASH_SEP names)
          /\ (forall n l,
                 people_en t = Some (n :: l) ->
                 names = n :: l /\ st2 = st1
                 /\ structured_attempt St complete json_loads
                      (item_title_zh item) (item_comment_zh item)
                      (item_category item) (item_people item) st
                    = (Ok t, st1)
                 /\ exists content members,
                     complete (payload (item_title_zh item)
                                       (item_comment_zh item)
                                       (item_category item)
                                       (item_people item)) st
                     = (Ok content, st1)
                     /\ json_loads (strip content) = Some (JObj members)
                     /\ names = people_of_json (dict_get PEOPLE_EN members))
          /\ (people_en_list t = [] ->
              per_name St complete (item_people item) st1 names st2
              /\ length names = length (stripped_nonempty (item_people item)))
          /\ (forall e st0,
                 structured_attempt St complete json_loads
                   (item_title_zh item) (item_comment_zh item)
                   (item_category item) (item_people item) st
                 = (Raise e, st0) ->
                 people_en_list t = [])).
Proof.
  destruct (translate_or_empty_returns St complete json_loads item st)
    as (t & st1 & Ht).
  destruct (names_of_returns St complete (people_en_list t) (item_people item) st1)
    as (names & st2 & Hn & Hsome & Hnone).
  assert (Hnames : forall out,
             people_field out = Some (join SLASH_SEP names) ->
             exists names0,
               people_field out = Some (join SLASH_SEP names0)
               /\ (forall n l,
                      people_en t = Some (n :: l) ->
                      names0 = n :: l /\ st2 = st1
                      /\ structured_attempt St complete json_loads
                           (item_title_zh item) (item_comment_zh item)
                           (item_category item) (item_people item) st
                         = (Ok t, st1)
                      /\ exists content members,
                          complete (payload (item_title_zh item)
                                            (item_comment_zh item)
                                            (item_category item)
                                            (item_people item)) st
                          = (Ok content, st1)
                          /\ json_loads (strip content) = Some (JObj members)
                          /\ names0
                             = people_of_json (dict_get PEOPLE_EN members))
               /\ (people_en_list t = [] ->
                   per_name St complete (item_people item) st1 names0 st2
                   /\ length names0
                      = length (stripped_nonempty (item_people item)))
               /\ (forall e st0,
                      structured_attempt St complete json_loads
                        (item_title_zh item) (item_comment_zh item)
                        (item_category item) (item_people item) st
                      = (Raise e, st0) ->
                      people_en_list t = [])).
  { intros out Hf. exists names. split; [exact Hf|]. split; [|split].
    - intros n l Hp.
      assert (Hl : people_en_list t = n :: l)
        by (unfold people_en_list; rewrite Hp; reflexivity).
      destruct (Hsome n l Hl) as [-> ->]. split; [exact Hl|].
      split; [reflexivity|].
      pose proof (translate_or_empty_people St complete json_loads
                    item st st1 t n l Ht Hp) as Hs.
      split; [exact Hs|].
      destruct (structured_attempt_returns St complete json_loads
                  _ _ _ _ _ _ _ Hs)
        as (content & members & Hc & Hj & _ & _ & Hpe).
      exists content, members. split; [exact Hc|]. split; [exact Hj|].
      unfold people_en_list. rewrite Hpe. reflexivity.
    - intros Hnil. pose proof (Hnone Hnil) as Hrel.
      split; [exact Hrel | eapply per_name_length; exact Hrel].
    - intros e st0 He. eapply translate_or_empty_no_people; eauto. }
  destruct (decide (item_category item = BOOK)) as [Hb|Hb];
    [|destruct (decide (item_category item = MOVIE)) as [Hm|Hm]].
  - eexists t, st1, _, st2. split; [exact Ht|].
    split.
    { unfold translate_item. unfold bind at 1. rewrite Ht. unfold str_eqb.
      rewrite (bool_decide_eq_true_2 _ Hb). unfold bind, ret. rewrite Hn.
      reflexivity. }
    split; [intros H; contradiction|].
    intros _. apply Hnames. unfold people_field, str_eqb. cbn [category].
    rewrite (bool_decide_eq_true_2 _ Hb). reflexivity.
  - eexists t, st1, _, st2. split; [exact Ht|].
    split.
    { unfold translate_item. unfold bind at 1. rewrite Ht. unfold str_eqb.
      rewrite (bool_decide_eq_false_2 _ Hb), (bool_decide_eq_true_2 _ Hm).
      unfold bind, ret. rewrite Hn. reflexivity. }
    split; [intros _ H; contradiction|].
    intros _. apply Hnames. unfold people_field, str_eqb. cbn [category].
    rewrite (bool_decide_eq_false_2 _ Hb). reflexivity.
  - eexists t, st1, _, st1. split; [exact Ht|].
    split.
    { unfold translate_item. unfold bind at 1. rewrite Ht. unfold str_eqb.
      rewrite (bool_decide_eq_false_2 _ Hb), (bool_decide_eq_false_2 _ Hm).
      reflexivity. }
    split; [|intros [H|H]; contradiction].
    intros _ _. unfold item_people, str_eqb.
    rewrite (bool_decide_eq_false_2 _ Hb), (bool_decide_eq_false_2 _ Hm).
    repeat split; reflexivity.
Qed.

Lemma people_target_sources_witness :
  exists out,
    translate_item nat service_prose loads_sample book_with_comment 0%nat
    = (Ok out, 5%nat)
    /\ people_field out = Some (join SLASH_SEP [zhang_san; li_si]).
Proof.
  destruct (people_target_sources nat service_prose loads_sample
              book_with_comment 0%nat)
    as (t & st1 & out & st2 & Ht & Ho & _ & H).
  destruct (H (or_introl eq_refl)) as (names & Hf & _).
  vm_compute in Ho. injection Ho as <- <-.
  eexists. split; [vm_compute; reflexivity|]. vm_compute. reflexivity.
Defined.

End TranslateFacts.

(* ===================================================================== *)
(** * douban_crawl.py: pagination, enrichment, directors, listing pages   *)
(* ===================================================================== *)

Module CrawlPagesFacts.
Import Py Crawl CrawlPages Notions PyFacts.

Section Pagination.

Variable Net : Type.
Variable fetch_html : str -> Net -> option str * Net.
Variables (A E : Type).
Variable parser : str -> attempt E (list A).
Variable base_url : str.
Variable per_page : Z.

Let url_at (first : Z) (i : nat) : str :=
  page_url base_url per_page (first + Z.of_nat i).

Lemma urls_shift (first : Z) (n : nat) :
  List.map (url_at first) (seq 1 n) = List.map (url_at (first + 1)) (seq 0 n).
Proof.
  rewrite <- seq_shift, List.map_map. apply List.map_ext.
  intros i. unfold url_at. f_equal. lia.
Qed.

Ltac trace_head :=
  do 3 (split; [reflexivity|]); split; [constructor|]; split; [cbn; lia|].

Lemma crawl_from_trace (remaining : nat) (first : Z) (acc : list A)
      (net : Net) (log : list (str * option str)) :
  exists new pages last net',
    snd (crawl_from Net fetch_html A E parser base_url per_page remaining
                    first acc (net, log)) = (net', log ++ new)
    /\ List.map fst new = List.map (url_at first) (seq 0 (length new))
    /\ List.map snd new = List.map Some pages ++ last
    /\ Forall (page_goes_on A E parser) pages
    /\ (length new <= remaining)%nat
    /\ ((fst (crawl_from Net fetch_html A E parser base_url per_page remaining
                         first acc (net, log))
         = Returned (acc ++ List.concat (List.map (page_items A E parser) pages))
         /\ ((last = [] /\ length pages = remaining)
             \/ exists r, last = [r] /\ page_ends A E parser r))
        \/ exists h e,
            last = [Some h] /\ h <> [] /\ parser h = Raised e
            /\ fst (crawl_from Net fetch_html A E parser base_url per_page
                               remaining first acc (net, log)) = Raised e).
Proof.
  revert first acc net log.
  induction remaining as [|n IH]; intros first acc net log.
  - exists [], [], [], net. cbn. rewrite !app_nil_r. trace_head.
    left. split; [reflexivity|]. left. auto.
  - cbn [crawl_from]. unfold fetch_logged.
    set (url := page_url base_url per_page first).
    assert (Hurl : url_at first 0 = url)
      by (unfold url_at, url; f_equal; lia).
    destruct (fetch_html url net) as [html net1].
    destruct html as [h|].
    2:{ exists [(url, None)], [], [None], net1. cbn. rewrite Hurl. trace_head.
        left. split; [rewrite app_nil_r; reflexivity|].
        right. exists None. split; [reflexivity | left; reflexivity]. }
    destruct (nonempty h) eqn:Eh; cbn [negb].
    2:{ apply nonempty_false in Eh. subst h.
        exists [(url, Some [])], [], [Some []], net1. cbn. rewrite Hurl.
        trace_head.
        left. split; [rewrite app_nil_r; reflexivity|].
        right. exists (Some []). split; [reflexivity | right; left; reflexivity]. }
    assert (Hh : h <> []) by (intros ->; discriminate).
    destruct (parser h) as [[|i items]|e] eqn:Ep.
    + exists [(url, Some h)], [], [Some h], net1. cbn. rewrite Hurl.
      trace_head.
      left. split; [rewrite app_nil_r; reflexivity|].
      right. exists (Some h). split; [reflexivity|]. right; right. eauto.
    + destruct (IH (first + 1) (acc ++ i :: items) net1 (log ++ [(url, Some h)]))
        as (new & pages & last & net' & Hs & Hu & Hr & Hp & Hlen & Hres).
      exists ((url, Some h) :: new), (h :: pages), last, net'.
      split; [rewrite Hs, <- app_assoc; reflexivity|].
      split; [cbn [List.map fst length seq]; rewrite Hurl, urls_shift, Hu;
              reflexivity|].
      split; [cbn [List.map snd]; rewrite Hr; reflexivity|].
      split; [constructor; [split; [exact Hh | eauto] | exact Hp]|].
      split; [cbn [length]; lia|].
      destruct Hres as [[Hret Hlast] | (h' & e & Hl & Hne & Hpe & Hret)].
      * left. split.
        -- rewrite Hret. cbn [List.map List.concat]. unfold page_items at 2.
           rewrite Ep, <- app_assoc. reflexivity.
        -- destruct Hlast as [[-> Hn] | Hlast]; [left | right; exact Hlast].
           split; [reflexivity | cbn [length]; lia].
      * right. exists h', e. auto.
    + exists [(url, Some h)], [], [Some h], net1. cbn. rewrite Hurl.
      trace_head.
      right. exists h, e. auto.
Qed.

End Pagination.

(** X1. [crawl_collect_list] asks for the pages at offsets 0, [per_page],
    2 [per_page], ... in order, at most [max_pages] of them, and nothing
    after the first page that could not be fetched, was empty, or held no
    item.  It returns the items of the pages before that one, in order; when
    the parser raises on a page, that exception comes out and the items
    collected so far are lost. *)
Theorem crawl_collect_list_pages
        (Net A E : Type) (fetch_html : str -> Net -> option str * Net)
        (parser : str -> attempt E (list A))
        (base_url : str) (max_pages per_page : Z)
        (net : Net) (log : list (str * option str)) :
  exists new pages last net',
    snd (crawl_collect_list Net fetch_html A E parser base_url max_pages
                            per_page (net, log)) = (net', log ++ new)
    /\ List.map fst new
       = List.map (fun i => page_url base_url per_page (Z.of_nat i))
                  (seq 0 (length new))
    /\ List.map snd new = List.map Some pages ++ last
    /\ Forall (page_goes_on A E parser) pages
    /\ (length new <= Z.to_nat max_pages)%nat
    /\ ((fst (crawl_collect_list Net fetch_html A E parser base_url max_pages
                                 per_page (net, log))
         = Returned (List.concat (List.map (page_items A E parser) pages))
         /\ ((last = [] /\ length pages = Z.to_nat max_pages)
             \/ exists r, last = [r] /\ page_ends A E parser r))
        \/ exists h e,
            last = [Some h] /\ h <> [] /\ parser h = Raised e
            /\ fst (crawl_collect_list Net fetch_html A E parser base_url
                                       max_pages per_page (net, log))
               = Raised e).
Proof.
  unfold crawl_collect_list.
  destruct (crawl_from_trace Net fetch_html A E parser base_url per_page
              (Z.to_nat max_pages) 0 [] net log)
    as (new & pages & last & net' & H1 & H2 & H3 & H4 & H5 & H6).
  exists new, pages, last, net'.
  repeat (split; [assumption|]). exact H6.
Qed.

Section Enrichment.

Variable Net : Type.
Variable fetch_html : str -> Net -> option str * Net.
Variable directed_by_of : str -> list str.
Variable info_text_of : str -> option str.

Let enrich_one := enrich_item Net fetch_html directed_by_of info_text_of.

Lemma same_but_directors_refl (m : movie) : same_but_directors m m.
Proof. destruct m. reflexivity. Qed.

(** A turn of the loop asks for the detail page of an item that has an URL,
    and may change that item's directors only. *)
Lemma enrich_item_cases (item : movie) (net : Net)
      (log : list (str * option str)) :
  (m_subject_url item = []
   /\ enrich_one item (net, log) = (item, (net, log)))
  \/ exists html net' item',
      m_subject_url item <> []
      /\ enrich_one item (net, log)
         = (item', (net', log ++ [(m_subject_url item, html)]))
      /\ same_but_directors item item'
      /\ (no_page html -> item' = item).
Proof.
  unfold enrich_one, enrich_item, fetch_logged.
  destruct (nonempty (m_subject_url item)) eqn:Eu; cbn [negb].
  2:{ left. apply nonempty_false in Eu. split; [exact Eu | reflexivity]. }
  right.
  assert (Hu : m_subject_url item <> []) by (intros Hn; rewrite Hn in Eu; discriminate).
  destruct (fetch_html (m_subject_url item) net) as [[h|] net1].
  - destruct (nonempty h) eqn:Eh; cbn [negb].
    + eexists (Some h), net1, _. split; [exact Hu|]. split; [reflexivity|].
      split; [reflexivity|].
      intros [Hn|Hn]; [discriminate|]. injection Hn as ->. discriminate.
    + exists (Some h), net1, item. split; [exact Hu|]. split; [reflexivity|].
      split; [apply same_but_directors_refl | reflexivity].
  - exists None, net1, item. split; [exact Hu|]. split; [reflexivity|].
    split; [apply same_but_directors_refl | reflexivity].
Qed.

(** X2. [enrich_movie_directors] asks for the detail page of every movie
    that has an URL, in list order and of no other; it returns one record
    per movie, in order, changing nothing but directors; a movie without an
    URL is returned as it was, and so is every movie when no page could be
    read. *)
Theorem enrich_changes_directors_only (movies : list movie) (net : Net)
      (log : list (str * option str)) :
  exists new net',
    snd (enrich_movie_directors Net fetch_html directed_by_of info_text_of
                                movies (net, log)) = (net', log ++ new)
    /\ List.map fst new = List.filter nonempty (List.map m_subject_url movies)
    /\ Forall2 same_but_directors movies
               (fst (enrich_movie_directors Net fetch_html directed_by_of
                                            info_text_of movies (net, log)))
    /\ Forall2 (fun m m' => m_subject_url m = [] -> m' = m) movies
               (fst (enrich_movie_directors Net fetch_html directed_by_of
                                            info_text_of movies (net, log)))
    /\ (Forall (fun r => no_page (snd r)) new ->
        fst (enrich_movie_directors Net fetch_html directed_by_of
                                    info_text_of movies (net, log)) = movies).
Proof.
  revert net log. induction movies as [|item rest IH]; intros net log.
  - exists [], net. cbn. rewrite app_nil_r.
    repeat (split; [reflexivity || constructor|]). reflexivity.
  - cbn [enrich_movie_directors].
    fold enrich_one.
    destruct (enrich_item_cases item net log)
      as [(Hu & ->) | (html & net1 & item' & Hu & -> & Hsame & Hno)].
    + destruct (IH net log) as (new & net' & Hs & Hf & Hd & Hk & Hn).
      destruct (enrich_movie_directors Net fetch_html directed_by_of
                  info_text_of rest (net, log)) as [rest' s2].
      cbn [fst snd] in *.
      exists new, net'. split; [exact Hs|].
      split; [cbn [List.map List.filter]; rewrite Hu; exact Hf|].
      split; [constructor; [apply same_but_directors_refl | exact Hd]|].
      split; [constructor; [reflexivity | exact Hk]|].
      intros Hall. rewrite (Hn Hall). reflexivity.
    + destruct (IH net1 (log ++ [(m_subject_url item, html)]))
        as (new & net' & Hs & Hf & Hd & Hk & Hn).
      destruct (enrich_movie_directors Net fetch_html directed_by_of
                  info_text_of rest
                  (net1, log ++ [(m_subject_url item, html)])) as [rest' s2].
      cbn [fst snd] in *.
      exists ((m_subject_url item, html) :: new), net'.
      split; [rewrite Hs, <- app_assoc; reflexivity|].
      split; [cbn [List.map List.filter fst];
              rewrite (nonempty_true _ Hu), Hf; reflexivity|].
      split; [constructor; [exact Hsame | exact Hd]|].
      split; [constructor; [intros Hc; contradiction | exact Hk]|].
      intros Hall. inversion Hall as [|? ? Hr Hrest]; subst.
      rewrite (Hn Hrest), (Hno Hr). reflexivity.
Qed.

End Enrichment.

Lemma enrich_changes_directors_only_witness :
  fst (enrich_movie_directors nat MoreSamples.net_down MoreSamples.no_anchor
                              MoreSamples.no_info [MoreSamples.movie_hero]
                              (0%nat, []))
  = [MoreSamples.movie_hero].
Proof.
  destruct (enrich_changes_directors_only nat MoreSamples.net_down
              MoreSamples.no_anchor MoreSamples.no_info
              [MoreSamples.movie_hero] 0%nat [])
    as (new & net' & Hs & _ & _ & _ & Hall).
  apply Hall. vm_compute in Hs. injection Hs as _ <-.
  repeat constructor.
Defined.

(** ** Contiguous parts *)

Lemma infix_refl (s : str) : infix s s.
Proof. exists [], []. rewrite app_nil_r. reflexivity. Qed.

Lemma infix_trans (a b c : str) : infix a b -> infix b c -> infix a c.
Proof.
  intros (x & y & ->) (u & v & ->). exists (u ++ x), (y ++ v).
  rewrite <- !app_assoc. reflexivity.
Qed.

Lemma infix_cons (t s : str) (c : N) : infix t s -> infix t (c :: s).
Proof. intros (a & b & ->). exists (c :: a), b. reflexivity. Qed.

Lemma infix_prefix (p b : str) : infix p (p ++ b).
Proof. exists [], b. reflexivity. Qed.

Lemma infix_Forall (P : N -> Prop) (t s : str) :
  infix t s -> Forall P s -> Forall P t.
Proof.
  intros (a & b & ->) H.
  apply Forall_app in H as [_ H]. apply Forall_app in H as [H _]. exact H.
Qed.

Lemma strip_is_infix (s : str) : infix (strip s) s.
Proof. destruct (strip_infix s) as (a & b & H). exists a, b. exact H. Qed.

(** The first segment is a prefix of the text, the others lie inside it. *)
Lemma split_on_parts (sep : char -> bool) (s : str) :
  exists p ps,
    split_on sep s = p :: ps
    /\ (exists b, s = p ++ b)
    /\ Forall (fun q => infix q s) ps.
Proof.
  induction s as [|c s (p & ps & E & (b & Hb) & Hps)]; cbn [split_on].
  - exists [], []. split; [reflexivity|]. split; [exists []; reflexivity | constructor].
  - destruct (sep c).
    + exists [], (split_on sep s). split; [reflexivity|].
      split; [exists (c :: s); reflexivity|].
      rewrite E. constructor.
      * apply infix_cons. rewrite Hb. apply infix_prefix.
      * eapply List.Forall_impl; [|exact Hps]. intros q. apply infix_cons.
    + rewrite E. exists (c :: p), ps. split; [reflexivity|].
      split; [exists b; rewrite Hb at 1; reflexivity|].
      eapply List.Forall_impl; [|exact Hps]. intros q. apply infix_cons.
Qed.

Lemma split_on_infix (sep : char -> bool) (s : str) :
  Forall (fun q => infix q s) (split_on sep s).
Proof.
  destruct (split_on_parts sep s) as (p & ps & -> & (b & Hb) & Hps).
  constructor; [rewrite Hb; apply infix_prefix | exact Hps].
Qed.

Lemma stripped_nonempty_infix (parts : list str) (s : str) :
  Forall (fun q => infix q s) parts ->
  Forall (fun q => infix q s) (stripped_nonempty parts).
Proof.
  induction 1 as [|q l Hq _ IH]; [constructor|].
  rewrite stripped_nonempty_cons.
  destruct (nonempty (strip q)); [|exact IH].
  constructor; [|exact IH].
  eapply infix_trans; [apply strip_is_infix | exact Hq].
Qed.

(** Every name [split_people] returns is clean and lies inside the text. *)
Lemma split_people_names (text : str) :
  Forall (fun p => clean_name is_people_sep p /\ infix p text)
         (split_people text).
Proof.
  rewrite CrawlFacts.split_people_split_on.
  pose proof (CrawlFacts.stripped_nonempty_elems is_people_sep text) as H1.
  pose proof (stripped_nonempty_infix _ _ (split_on_infix is_people_sep text)) as H2.
  revert H1 H2. generalize (stripped_nonempty (split_on is_people_sep text)).
  induction l as [|p l IH]; intros H1 H2; [constructor|].
  inversion H1; inversion H2; subst. constructor; [split; assumption | auto].
Qed.

Lemma before_slash_prefix (s : str) : exists b, s = before_slash s ++ b.
Proof.
  induction s as [|c s [b IH]]; cbn [before_slash].
  - exists []. reflexivity.
  - destruct (c =? 47)%N; [exists (c :: s); reflexivity|].
    exists b. cbn. rewrite <- IH. reflexivity.
Qed.

(** What follows the first slash plays no part. *)
Lemma before_slash_app (x y : str) :
  Forall (fun c => c <> 0x2F%N) x -> before_slash (x ++ 0x2F%N :: y) = x.
Proof.
  induction 1 as [|c x Hc _ IH]; cbn [before_slash app].
  - reflexivity.
  - destruct (N.eqb_spec c 47) as [->|_]; [contradiction|].
    rewrite IH. reflexivity.
Qed.

(** ** [str.find] *)

Lemma find_from_unfold (tok s : str) (k : nat) :
  find_from tok s k
  = match strip_prefix tok s with
    | Some _ => Some k
    | None =>
        match s with
        | [] => None
        | _ :: s' => find_from tok s' (S k)
        end
    end.
Proof. destruct s; reflexivity. Qed.

Lemma find_from_first (tok a b : str) (k : nat) :
  exists i, find_from tok (a ++ tok ++ b) k = Some i /\ (i <= k + length a)%nat.
Proof.
  revert k. induction a as [|c a IH]; intros k; rewrite find_from_unfold.
  - assert (P : strip_prefix tok (tok ++ b) = Some b)
      by (apply strip_prefix_app; reflexivity).
    cbn [app]. rewrite P. exists k. split; [reflexivity | lia].
  - cbn [app].
    destruct (strip_prefix tok (c :: a ++ tok ++ b)).
    + exists k. split; [reflexivity | cbn; lia].
    + destruct (IH (S k)) as (i & Hi & Hle). exists i.
      split; [exact Hi | cbn; lia].
Qed.

Lemma stop_fold_bound (rest : str) (toks : list str) (start : nat) :
  let stop :=
    fold_left (fun stop_idx tok =>
                 match find tok rest with
                 | Some idx => if (idx <? stop_idx)%nat then idx else stop_idx
                 | None => stop_idx
                 end) toks start in
  (stop <= start)%nat
  /\ forall tok i, In tok toks -> find tok rest = Some i -> (stop <= i)%nat.
Proof.
  revert start. induction toks as [|t ts IH]; intros start; cbn [fold_left].
  - split; [lia | intros tok i []].
  - set (start' := match find t rest with
                   | Some idx => if (idx <? start)%nat then idx else start
                   | None => start
                   end).
    assert (Hs : (start' <= start)%nat).
    { unfold start'. destruct (find t rest) as [idx|]; [|lia].
      destruct (Nat.ltb_spec idx start); lia. }
    destruct (IH start') as [H1 H2]. cbv zeta in *. split; [lia|].
    intros tok i [<-|Hin] Hf; [|eauto].
    assert (Hi : (start' <= i)%nat).
    { unfold start'. rewrite Hf. destruct (Nat.ltb_spec i start); lia. }
    lia.
Qed.

Lemma stop_index_bound (rest : str) :
  (stop_index rest <= length rest)%nat
  /\ forall tok i, In tok stop_tokens -> find tok rest = Some i ->
                   (stop_index rest <= i)%nat.
Proof. apply (stop_fold_bound rest stop_tokens (length rest)). Qed.

(** The segment kept for the names holds no stop token. *)
Lemma segment_without_stop_token (rest tok : str) :
  In tok stop_tokens -> ~ infix tok (firstn (stop_index rest) rest).
Proof.
  intros Hin (a & b & Hseg).
  assert (Htok : tok <> []).
  { assert (Hall : forallb nonempty stop_tokens = true) by (vm_compute; reflexivity).
    rewrite forallb_forall in Hall. intros ->.
    specialize (Hall [] Hin). discriminate. }
  pose proof (firstn_skipn (stop_index rest) rest) as Hrest.
  rewrite Hseg, <- !app_assoc in Hrest.
  destruct (find_from_first tok a (b ++ skipn (stop_index rest) rest) 0)
    as (i & Hi & Hle).
  rewrite Hrest in Hi.
  destruct (stop_index_bound rest) as [_ Hb].
  pose proof (Hb tok i Hin Hi) as Hstop.
  pose proof (length_firstn (stop_index rest) rest) as Hlen.
  rewrite Hseg, !length_app in Hlen.
  destruct tok as [|t tok]; [contradiction|]. cbn [length] in Hlen. lia.
Qed.

(** X3. [extract_directors_from_detail] returns the tagged director
    anchors as they are whenever there is one.  Otherwise every name it
    returns is not empty, trimmed, free of the separators (the slash
    included), holds none of the stop tokens, and stands in the text of the
    info block; without an info block, or without a director label in it,
    it returns no name.  ["导演: 张艺谋 主演: 某某"] gives [["张艺谋"]]. *)
Theorem directors_two_tiers (directed_by : list str) (info_text : option str) :
  (directed_by <> [] ->
   extract_directors_from_detail directed_by info_text = directed_by)
  /\ Forall (fun p =>
               clean_name is_people_sep p
               /\ (forall tok, In tok stop_tokens -> ~ infix tok p)
               /\ exists text, info_text = Some text /\ infix p text)
            (extract_directors_from_detail [] info_text)
  /\ (info_text = None -> extract_directors_from_detail [] info_text = [])
  /\ (forall text, info_text = Some text -> label_search text = None ->
                   extract_directors_from_detail [] info_text = [])
  /\ extract_directors_from_detail [] (Some info_zhang_yimou) = [zhang_yimou].
Proof.
  split; [destruct directed_by; [contradiction | reflexivity]|].
  split; [|split; [intros ->; reflexivity|split; [|reflexivity]]].
  - cbn [extract_directors_from_detail].
    destruct info_text as [text|]; [|constructor].
    unfold directors_from_info.
    destruct (label_search text) as [rest|] eqn:El; [|constructor].
    assert (Hrest : infix rest text).
    { clear -El. induction text as [|c text IH].
      - cbn in El. discriminate.
      - cbn [label_search] in El.
        destruct (match_label (c :: text)) as [r|] eqn:Em.
        + injection El as ->. clear IH.
          unfold match_label in Em.
          assert (Hcol : forall u v, colon_and_space u = Some v -> infix v u).
          { intros u v. unfold colon_and_space. destruct u as [|d u]; [discriminate|].
            destruct ((d =? 58)%N || (d =? 65306)%N); [|discriminate].
            intros [= <-]. apply infix_cons.
            destruct (lstrip_suffix u) as [sp Hsp]. exists sp, [].
            rewrite app_nil_r. exact Hsp. }
          assert (Hci : forall pat u v, match_ci pat u = Some v -> infix v u).
          { induction pat as [|p pat IHp]; intros u v; cbn [match_ci].
            - intros [= ->]. apply infix_refl.
            - destruct u as [|d u]; [discriminate|].
              destruct (ci_letter p d); [|discriminate].
              intros H. apply infix_cons. eauto. }
          destruct (strip_prefix DAOYAN (c :: text)) as [r0|] eqn:Ep.
          * apply strip_prefix_app in Ep. rewrite Ep.
            eapply infix_trans; [apply Hcol; exact Em|].
            exists DAOYAN, []. rewrite app_nil_r. reflexivity.
          * destruct (match_ci DIRECTOR (c :: text)) as [r1|] eqn:Ec;
              [|discriminate].
            eapply infix_trans; [|eapply Hci; exact Ec].
            destruct r1 as [|d r1]; [discriminate|].
            destruct (ci_letter 115 d).
            -- destruct (colon_and_space r1) as [x|] eqn:E1.
               ++ injection Em as ->. apply infix_cons. eauto.
               ++ eauto.
            -- eauto.
        + apply infix_cons. eauto. }
    set (seg := firstn (stop_index rest) rest).
    pose proof (split_people_names (before_slash seg)) as Hn.
    eapply List.Forall_impl; [|exact Hn]. cbv beta.
    intros p [Hclean Hin].
    assert (Hseg : infix p seg).
    { eapply infix_trans; [exact Hin|].
      destruct (before_slash_prefix seg) as [b Hb]. rewrite Hb at 2.
      apply infix_prefix. }
    split; [exact Hclean|]. split.
    + intros tok Htok Hocc.
      apply (segment_without_stop_token rest tok Htok).
      eapply infix_trans; [exact Hocc | exact Hseg].
    + exists text. split; [reflexivity|].
      eapply infix_trans; [exact Hseg|].
      eapply infix_trans; [|exact Hrest].
      exists [], (skipn (stop_index rest) rest). unfold seg. cbn [app].
      symmetry. apply firstn_skipn.
  - intros text -> Hl. cbn. unfold directors_from_info. rewrite Hl. reflexivity.
Qed.

Lemma directors_two_tiers_witness :
  extract_directors_from_detail [zhang_yimou] (Some info_zhang_yimou)
  = [zhang_yimou]
  /\ extract_directors_from_detail [] (Some (lit "Cast: nobody")) = [].
Proof.
  destruct (directors_two_tiers [zhang_yimou] (Some info_zhang_yimou))
    as (H1 & _).
  destruct (directors_two_tiers [] (Some (lit "Cast: nobody")))
    as (_ & _ & _ & H4 & _).
  split; [apply H1; discriminate | apply (H4 _ eq_refl); reflexivity].
Defined.

(** ** Listing pages *)

Lemma lstrip_nil_iff (s : str) :
  lstrip s = [] <-> Forall (fun c => isspace c = true) s.
Proof.
  induction s as [|c s IH]; cbn [lstrip].
  - split; [constructor | reflexivity].
  - destruct (isspace c) eqn:E.
    + rewrite IH. split; [constructor; assumption | inversion 1; assumption].
    + split; [discriminate|]. inversion 1; congruence.
Qed.

Lemma first_word_none (s : str) :
  first_word s = None <-> Forall (fun c => isspace c = true) s.
Proof.
  rewrite <- lstrip_nil_iff. unfold first_word.
  destruct (lstrip s); split; (reflexivity || discriminate).
Qed.

Lemma take_word_clean (s : str) :
  Forall (fun c => isspace c = false) (take_word s)
  /\ exists b, s = take_word s ++ b.
Proof.
  induction s as [|c s [IH1 [b IH2]]]; cbn [take_word].
  - split; [constructor | exists []; reflexivity].
  - destruct (isspace c) eqn:E.
    + split; [constructor | exists (c :: s); reflexivity].
    + split; [constructor; assumption|]. exists b. cbn. rewrite <- IH2. reflexivity.
Qed.

Lemma lstrip_spaces (s : str) :
  exists sp, s = sp ++ lstrip s /\ Forall (fun c => isspace c = true) sp.
Proof.
  induction s as [|c s (sp & IH & Hsp)]; cbn [lstrip].
  - exists []. split; [reflexivity | constructor].
  - destruct (isspace c) eqn:E.
    + exists (c :: sp). split; [cbn; congruence | constructor; assumption].
    + exists []. split; [reflexivity | constructor].
Qed.

(** The date kept is the first word of the date text. *)
Lemma first_word_some (s w : str) :
  first_word s = Some w ->
  w <> [] /\ Forall (fun c => isspace c = false) w
  /\ exists a b, s = a ++ w ++ b /\ Forall (fun c => isspace c = true) a.
Proof.
  unfold first_word. destruct (lstrip_spaces s) as (sp & Hs & Hsp).
  destruct (lstrip s) as [|c u] eqn:E; [discriminate|].
  intros [= <-].
  pose proof (lstrip_head _ _ _ E) as Hc.
  destruct (take_word_clean (c :: u)) as [Hw [b Hb]].
  split; [cbn [take_word]; rewrite Hc; discriminate|].
  split; [exact Hw|].
  exists sp, b. split; [|exact Hsp].
  rewrite Hs. f_equal. exact Hb.
Qed.

Lemma take_word_rest (s : str) :
  exists rest,
    s = take_word s ++ rest
    /\ match rest with [] => True | c :: _ => isspace c = true end.
Proof.
  induction s as [|c s (rest & IH & Hr)]; cbn [take_word].
  - exists []. split; [reflexivity | exact I].
  - destruct (isspace c) eqn:E.
    + exists (c :: s). split; [reflexivity | exact E].
    + exists rest. split; [cbn; rewrite <- IH; reflexivity | exact Hr].
Qed.

Lemma first_word_is_first (s w : str) :
  first_word s = Some w -> first_word_of s w.
Proof.
  intros H. destruct (first_word_some _ _ H) as (Hne & Hw & _).
  split; [exact Hne|]. split; [exact Hw|].
  unfold first_word in H. destruct (lstrip_spaces s) as (sp & Hs & Hsp).
  destruct (lstrip s) as [|c u]; [discriminate|].
  injection H as <-.
  destruct (take_word_rest (c :: u)) as (rest & Hrest & Hr).
  exists sp, rest. split; [|split; [exact Hsp | exact Hr]].
  rewrite Hs at 1. f_equal. exact Hrest.
Qed.

Lemma before_slash_spec (text : str) : up_to_slash text (before_slash text).
Proof.
  induction text as [|c text [IH1 IH2]]; cbn [before_slash].
  - split; [constructor | left; reflexivity].
  - destruct (N.eqb_spec c 47) as [->|Hc].
    + split; [constructor | right; exists text; reflexivity].
    + split; [constructor; assumption|].
      destruct IH2 as [IH2|[y IH2]].
      * left. congruence.
      * right. exists y. cbn [app]. congruence.
Qed.

Section Books.

Variable decimal : char -> option N.
Variable limit : N.

Lemma parse_book_item_raises (it : element) :
  parse_book_item decimal limit it = Raised IndexError <-> blank_date it.
Proof.
  unfold parse_book_item, blank_date.
  destruct (e_link it) as [[title href]|].
  2:{ split; [discriminate | intros [H _]; contradiction]. }
  destruct (e_date it) as [raw|].
  2:{ split; [discriminate | intros (_ & raw & Hr & _); discriminate]. }
  destruct (first_word raw) as [w|] eqn:Ew.
  - split; [discriminate|]. intros (_ & raw' & [= <-] & Hb).
    apply first_word_none in Hb. congruence.
  - split; [|reflexivity]. intros _. split; [discriminate|].
    exists raw. split; [reflexivity | apply first_word_none, Ew].
Qed.

Lemma parse_book_item_returns (it : element) (o : option book) :
  parse_book_item decimal limit it = Returned o ->
  option_map b_title_zh o = linked_title it
  /\ match o with
     | Some b => has_link it = true /\ book_of decimal limit it b
     | None => has_link it = false
     end.
Proof.
  unfold parse_book_item, linked_title, has_link, book_of.
  destruct (e_link it) as [[title href]|];
    [|intros [= <-]; split; reflexivity].
  pose proof (CrawlFacts.item_rating_app decimal limit (e_rating_classes it)
                              (e_classes it)) as Hrating.
  pose proof (CrawlFacts.extract_first_reading decimal limit
                (match e_rating_classes it with
                 | Some classes => classes
                 | None => []
                 end ++ e_classes it)) as Hfirst.
  rewrite <- Hrating in Hfirst.
  assert (Hauth : forall authors,
             authors = match e_pub it with
                       | Some pub_text => split_people (before_slash pub_text)
                       | None => []
                       end ->
             match e_pub it with
             | Some pub =>
                 exists x, up_to_slash pub x /\ authors = split_people x
             | None => authors = []
             end).
  { intros authors ->. destruct (e_pub it) as [pub|]; [|reflexivity].
    exists (before_slash pub). split; [apply before_slash_spec | reflexivity]. }
  destruct (e_date it) as [raw|].
  - destruct (first_word raw) as [w|] eqn:Ew; [|discriminate].
    intros [= <-]. split; [reflexivity|]. split; [reflexivity|].
    exists title, href. cbn.
    repeat (split; [reflexivity || exact Hfirst|]).
    split; [apply first_word_is_first, Ew | apply Hauth; reflexivity].
  - intros [= <-]. split; [reflexivity|]. split; [reflexivity|].
    exists title, href. cbn.
    repeat (split; [reflexivity || exact Hfirst|]).
    apply Hauth; reflexivity.
Qed.

Lemma parse_book_page_cases (items : list element) :
  (parse_book_collect_page decimal limit items = Raised IndexError
   /\ Exists blank_date items)
  \/ exists result,
      parse_book_collect_page decimal limit items = Returned result
      /\ ~ Exists blank_date items
      /\ List.map b_title_zh result = omap linked_title items
      /\ Forall2 (book_of decimal limit) (List.filter has_link items) result.
Proof.
  induction items as [|it rest IH]; cbn [parse_book_collect_page].
  - right. exists []. split; [reflexivity|]. split; [inversion 1|].
    split; [reflexivity | constructor].
  - destruct (parse_book_item decimal limit it) as [o|[]] eqn:Ei.
    2:{ left. split; [reflexivity|]. left. apply parse_book_item_raises, Ei. }
    assert (Hnb : ~ blank_date it).
    { intros Hb. apply parse_book_item_raises in Hb. congruence. }
    destruct (parse_book_item_returns it o Ei) as [Ht Hf].
    destruct IH as [[-> Hex] | (result & -> & Hno & Hmap & Hall)].
    + left. split; [reflexivity | right; exact Hex].
    + right. eexists. split; [reflexivity|].
      split; [inversion 1; subst; contradiction|].
      split.
      * cbn [omap list_omap]. rewrite <- Ht.
        destruct o as [b|]; cbn; rewrite Hmap; reflexivity.
      * cbn [List.filter].
        destruct o as [b|]; [destruct Hf as [-> Hf] | rewrite Hf];
          [constructor; assumption | exact Hall].
Qed.

End Books.

(** X4. [parse_book_collect_page] raises [IndexError], and returns no
    record at all, exactly when some item with a title link has a date
    element that holds no word.  Otherwise it returns one record per item
    that has a title link, in page order, and passes over the items that
    have none. *)
Theorem book_page_blank_date_raises
        (decimal : char -> option N) (limit : N) (items : list element) :
  (parse_book_collect_page decimal limit items = Raised IndexError
   <-> Exists blank_date items)
  /\ (~ Exists blank_date items ->
      exists result,
        parse_book_collect_page decimal limit items = Returned result
        /\ List.map b_title_zh result = omap linked_title items).
Proof.
  destruct (parse_book_page_cases decimal limit items)
    as [[Hr Hex] | (result & Hr & Hno & Hmap & _)].
  - split; [split; auto|]. intros H. contradiction.
  - split.
    + split; [rewrite Hr; discriminate | intros H; contradiction].
    + intros _. exists result. split; assumption.
Qed.

Lemma book_page_blank_date_raises_witness :
  parse_book_collect_page ascii_decimal default_max_str_digits
                          [MoreSamples.book_element;
                           MoreSamples.book_element_blank_date]
  = Raised IndexError.
Proof.
  apply (proj1 (book_page_blank_date_raises ascii_decimal
                  default_max_str_digits
                  [MoreSamples.book_element;
                   MoreSamples.book_element_blank_date])).
  right. left. split; [discriminate|].
  exists []. split; [reflexivity | constructor].
Defined.

(** X5. When no item with a title link has a wordless date,
    [parse_book_collect_page] returns one record for each item that has a
    title link, in page order, and every field of a record is settled by
    its item: the category is [book]; the title is that of the link and the
    URL its [href], trimmed (empty without one); the rating is the first
    reading among the class tokens of the selected rating element followed
    by the item's own; the comment is the text of the comment element; the
    date is the first word of the date text, and empty without a date
    element; the authors are the split of what precedes the first slash of
    the publication line, none without one. *)
Theorem book_record_fields
        (decimal : char -> option N) (limit : N) (items : list element) :
  ~ Exists blank_date items ->
  exists result,
    parse_book_collect_page decimal limit items = Returned result
    /\ Forall2 (book_of decimal limit) (List.filter has_link items) result.
Proof.
  intros Hno.
  destruct (parse_book_page_cases decimal limit items)
    as [[_ Hex] | (result & Hr & _ & _ & Hall)]; [contradiction|].
  exists result. split; assumption.
Qed.

Lemma book_record_fields_witness :
  parse_book_collect_page ascii_decimal default_max_str_digits
                          [MoreSamples.book_element]
  = Returned [MoreSamples.book_parsed].
Proof.
  destruct (book_record_fields ascii_decimal default_max_str_digits
              [MoreSamples.book_element]) as (result & Hr & _).
  - intros H. apply Exists_cons in H as [(_ & raw & Hraw & Hb)|H].
    + injection Hraw as <-. inversion Hb as [|? ? Hc _]. discriminate Hc.
    + inversion H.
  - rewrite Hr. vm_compute in Hr. injection Hr as <-. reflexivity.
Defined.

End CrawlPagesFacts.

(* ===================================================================== *)
(** * douban_translate.py: aliases, carried fields, a failing service     *)
(* ===================================================================== *)

Module TranslateMoreFacts.
Import Py Translate Spec Notions PyFacts.

(** ** Aliases in titles *)

Lemma letter_not_space (c : N) : is_ascii_letter c = true -> isspace c = false.
Proof.
  unfold is_ascii_letter, isspace, in_range. intros H.
  apply not_true_is_false. intros Hs. revert H Hs.
  rewrite !orb_true_iff, !andb_true_iff, !N.leb_le, !N.eqb_eq. lia.
Qed.

Lemma letter_not_sep (c : N) : is_ascii_letter c = true -> is_title_sep c = false.
Proof.
  unfold is_ascii_letter, is_title_sep, in_range. intros H.
  apply not_true_is_false. intros Hs. revert H Hs.
  rewrite !orb_true_iff, !andb_true_iff, !N.leb_le, !N.eqb_eq. lia.
Qed.

Lemma lstrip_keeps (s : str) (c : N) :
  In c s -> isspace c = false -> In c (lstrip s).
Proof.
  intros Hin Hc. induction s as [|d s IH]; [contradiction|].
  cbn [lstrip]. destruct (isspace d) eqn:Ed; [|exact Hin].
  destruct Hin as [->|Hin]; [congruence | auto].
Qed.

Lemma strip_keeps (s : str) (c : N) :
  In c s -> isspace c = false -> In c (strip s).
Proof.
  intros Hin Hc. unfold strip, rstrip.
  apply in_rev. rewrite rev_involutive.
  apply lstrip_keeps; [|exact Hc].
  apply -> in_rev. apply lstrip_keeps; assumption.
Qed.

Lemma split_on_keeps (sep : char -> bool) (s : str) (c : N) :
  In c s -> sep c = false -> exists q, In q (split_on sep s) /\ In c q.
Proof.
  intros Hin Hc. induction s as [|d s IH]; [contradiction|].
  cbn [split_on].
  destruct (split_on_cons_shape sep s) as (p & ps & E).
  destruct (sep d) eqn:Ed.
  - destruct Hin as [->|Hin]; [congruence|].
    destruct (IH Hin) as (q & Hq & Hcq). exists q. split; [right; exact Hq | exact Hcq].
  - rewrite E in *. destruct Hin as [->|Hin].
    + exists (c :: p). split; [left; reflexivity | left; reflexivity].
    + destruct (IH Hin) as (q & [<-|Hq] & Hcq).
      * exists (d :: p). split; [left; reflexivity | right; exact Hcq].
      * exists q. split; [right; exact Hq | exact Hcq].
Qed.

Lemma infix_existsb (f : N -> bool) (t s : str) :
  infix t s -> existsb f t = true -> existsb f s = true.
Proof.
  intros (a & b & ->) H. rewrite !existsb_app, H, orb_true_r. reflexivity.
Qed.

Lemma stripped_nonempty_In (parts : list str) (q : str) :
  In q parts -> strip q <> [] -> In (strip q) (stripped_nonempty parts).
Proof.
  intros Hin Hne. induction parts as [|x l IH]; [contradiction|].
  rewrite stripped_nonempty_cons. apply in_or_app.
  destruct Hin as [->|Hin]; [left | right; auto].
  rewrite (nonempty_true _ Hne). left. reflexivity.
Qed.

Lemma find_first (f : str -> bool) (l : list str) (p : str) :
  List.find f l = Some p ->
  f p = true
  /\ exists before after,
      l = before ++ p :: after /\ Forall (fun q => f q = false) before.
Proof.
  induction l as [|x l IH]; cbn [List.find]; [discriminate|].
  destruct (f x) eqn:E.
  - intros [= <-]. split; [exact E|]. exists [], l. split; [reflexivity | constructor].
  - intros H. destruct (IH H) as (Hp & before & after & -> & Hb).
    split; [exact Hp|]. exists (x :: before), after.
    split; [reflexivity | constructor; assumption].
Qed.

Lemma detect_alias_some (raw_title p : str) :
  detect_english_from_title raw_title = Some p ->
  clean_name is_title_sep p
  /\ existsb is_ascii_letter p = true
  /\ infix p raw_title
  /\ exists before after,
      stripped_nonempty (split_on is_title_sep raw_title)
      = before ++ p :: after
      /\ Forall (fun q => existsb is_ascii_letter q = false) before.
Proof.
  unfold detect_english_from_title.
  destruct (nonempty raw_title); [|discriminate].
  intros H. destruct (find_first _ _ _ H) as (Hp & before & after & Hl & Hb).
  pose proof (CrawlFacts.stripped_nonempty_elems is_title_sep raw_title) as Hc.
  pose proof (CrawlPagesFacts.stripped_nonempty_infix _ _
                (CrawlPagesFacts.split_on_infix is_title_sep raw_title)) as Hi.
  rewrite Hl in Hc, Hi.
  apply Forall_app in Hc as [_ Hc]. apply Forall_app in Hi as [_ Hi].
  inversion Hc; inversion Hi; subst.
  split; [assumption|]. split; [exact Hp|]. split; [assumption|].
  exists before, after. split; [exact Hl | exact Hb].
Qed.

Lemma detect_alias_none (raw_title : str) :
  detect_english_from_title raw_title = None
  <-> existsb is_ascii_letter raw_title = false.
Proof.
  split.
  - intros Hnone. apply not_true_is_false. intros Hex.
    apply existsb_exists in Hex as (c & Hin & Hc).
    destruct (split_on_keeps is_title_sep raw_title c Hin (letter_not_sep c Hc))
      as (q & Hq & Hcq).
    pose proof (strip_keeps q c Hcq (letter_not_space c Hc)) as Hs.
    assert (Hne : strip q <> []) by (intros Hn; rewrite Hn in Hs; contradiction).
    pose proof (stripped_nonempty_In _ _ Hq Hne) as Hmem.
    unfold detect_english_from_title in Hnone.
    destruct raw_title as [|d t]; [contradiction|]. cbn [nonempty] in Hnone.
    pose proof (find_none _ _ Hnone _ Hmem) as Hf.
    assert (Ht : existsb is_ascii_letter (strip q) = true)
      by (apply existsb_exists; exists c; split; assumption).
    congruence.
  - intros Hno. destruct (detect_english_from_title raw_title) as [p|] eqn:E;
      [|reflexivity].
    destruct (detect_alias_some _ _ E) as (_ & Hp & Hi & _).
    rewrite (infix_existsb _ _ _ Hi Hp) in Hno. discriminate.
Qed.

(** X6. [detect_english_from_title] finds an alias exactly when the title
    holds an ASCII letter.  The alias is the first part of the title,
    between the separators [／], [/] and [|] and trimmed, that holds such a
    letter; it is not empty and holds no separator. *)
Theorem alias_when_title_has_letter (raw_title : str) :
  (detect_english_from_title raw_title = None
   <-> existsb is_ascii_letter raw_title = false)
  /\ forall p,
      detect_english_from_title raw_title = Some p ->
      clean_name is_title_sep p
      /\ existsb is_ascii_letter p = true
      /\ infix p raw_title
      /\ exists before after,
          stripped_nonempty (split_on is_title_sep raw_title)
          = before ++ p :: after
          /\ Forall (fun q => existsb is_ascii_letter q = false) before.
Proof.
  split; [apply detect_alias_none | intros p; apply detect_alias_some].
Qed.

Lemma alias_when_title_has_letter_witness :
  detect_english_from_title MoreSamples.hero_title = Some (lit "Hero")
  /\ existsb is_ascii_letter (lit "Hero") = true
  /\ detect_english_from_title Samples.zhang_li_wang = None.
Proof.
  destruct (alias_when_title_has_letter MoreSamples.hero_title) as [_ H].
  destruct (H (lit "Hero")) as (_ & Hl & _); [vm_compute; reflexivity|].
  destruct (alias_when_title_has_letter Samples.zhang_li_wang) as [Hn _].
  split; [vm_compute; reflexivity|]. split; [exact Hl|].
  apply Hn. vm_compute. reflexivity.
Defined.

(** X7. For a movie whose title holds an alias, the record is written with
    that alias as its title, whatever the service answers; the structured
    call is made all the same, and the comment is the one it gave.  For any
    other category the alias is not looked for. *)
Theorem movie_alias_overrides_title
        (St : Type) (complete : request -> M St str)
        (json_loads : str -> option json) (item : raw_item) (st : St) :
  exists t st1 out st2,
    translate_or_empty St complete json_loads item st = (Ok t, st1)
    /\ translate_item St complete json_loads item st = (Ok out, st2)
    /\ comment out = comment_en t
    /\ (forall d, item_category item = MOVIE ->
                  detect_english_from_title (item_title_zh item) = Some d ->
                  title out = d)
    /\ (item_category item = MOVIE ->
        detect_english_from_title (item_title_zh item) = None ->
        title out = title_en t)
    /\ (item_category item <> MOVIE -> title out = title_en t).
Proof.
  destruct (TranslateFacts.translate_item_fields St complete json_loads item st)
    as (t & st1 & out & st2 & Ht & Ho & _ & _ & _ & Hc & Htitle & _).
  exists t, st1, out, st2. split; [exact Ht|]. split; [exact Ho|].
  split; [exact Hc|]. rewrite Htitle. unfold str_eqb.
  split; [|split].
  - intros d Hm Hd. rewrite (bool_decide_eq_true_2 _ Hm), Hd.
    destruct (detect_alias_some _ _ Hd) as ((Hne & _) & _).
    rewrite (nonempty_true _ Hne). reflexivity.
  - intros Hm Hd. rewrite (bool_decide_eq_true_2 _ Hm), Hd. reflexivity.
  - intros Hm. rewrite (bool_decide_eq_false_2 _ Hm). reflexivity.
Qed.

(** X8. A run of [translate_all] that returns has written one record for
    each raw record, in order: the record of its item, with the item's
    [subject_url] (empty when absent), its rating and its trimmed category,
    and one that the write of the file accepted.  On a file system that
    refuses nothing, the run returns exactly when every record is
    writable; otherwise it raises at the first record that is not (a rating
    of more digits than the interpreter converts gives [ValueError], a
    surrogate in a field [UnicodeEncodeError]), and the items after that
    one are never sent to the service. *)
Theorem translate_all_keeps_identity
        (St : Type) (complete : request -> M St str)
        (json_loads : str -> option json)
        (limit : N) (Fs : Type) (open_w : Fs -> bool * Fs)
        (write_close : list out_item -> Fs -> bool * Fs)
        (items : list raw_item) (st : St) (fs : Fs) :
  (forall outs s',
      translate_all St complete json_loads limit Fs open_w write_close
                    items (st, fs) = (Ok outs, s') ->
      translated_by St complete json_loads items st outs (fst s')
      /\ Forall2 carried items outs
      /\ Forall (writable limit) outs)
  /\ (never_fails open_w write_close ->
      (exists outs st' fs',
          translated_by St complete json_loads items st outs st'
          /\ Forall2 carried items outs
          /\ Forall (writable limit) outs
          /\ translate_all St complete json_loads limit Fs open_w write_close
                           items (st, fs) = (Ok outs, (st', fs')))
      \/ (exists before item after outs out st1 e fs',
             items = before ++ item :: after
             /\ translated_by St complete json_loads (before ++ [item]) st
                              (outs ++ [out]) st1
             /\ Forall (writable limit) outs /\ ~ writable limit out
             /\ translate_all St complete json_loads limit Fs open_w
                              write_close items (st, fs)
                = (Raise e, (st1, fs'))
             /\ (e = ValueError \/ e = UnicodeEncodeError))).
Proof.
  split.
  - intros outs s' H.
    destruct (TranslateFacts.translate_from_returns
                _ _ _ _ _ _ _ _ _ _ _ _ _ H) as (outs' & -> & Hrun & Hw).
    cbn [app]. split; [exact Hrun|].
    split; [eapply TranslateFacts.translated_by_carried; exact Hrun | exact Hw].
  - intros Hfs.
    destruct (TranslateFacts.translate_from_decided St complete json_loads
                limit Fs open_w write_close items [] st fs Hfs)
      as [(outs & st' & fs' & Hrun & Hw & Hr) | Hbad];
      [constructor | left | right; exact Hbad].
    exists outs, st', fs'. split; [exact Hrun|].
    split; [eapply TranslateFacts.translated_by_carried; exact Hrun|].
    split; [exact Hw | exact Hr].
Qed.

Lemma translate_all_keeps_identity_witness :
  exists out,
    translate_all nat Samples.service_structured Samples.loads_sample
                  Crawl.default_max_str_digits nat Samples.disk_open
                  Samples.disk_write [Samples.book_without_comment]
                  (0%nat, 0%nat)
    = (Ok [out], (1%nat, 1%nat))
    /\ subject_url out = lit "douban/1".
Proof.
  assert (Hfs : never_fails Samples.disk_open Samples.disk_write)
    by (split; reflexivity).
  destruct (proj2 (translate_all_keeps_identity nat Samples.service_structured
                     Samples.loads_sample Crawl.default_max_str_digits nat
                     Samples.disk_open Samples.disk_write
                     [Samples.book_without_comment] 0%nat 0%nat) Hfs)
    as [(outs & st' & fs' & _ & _ & _ & Hr)
       | (before & item & after & outs & out & st1 & e & fs' & _ & _
          & _ & _ & Hr & _)].
  - eexists. split; [cbv; reflexivity | reflexivity].
  - vm_compute in Hr. discriminate Hr.
Defined.

Section Carried.

Variable St : Type.
Variable complete : request -> M St str.
Variable json_loads : str -> option json.

(** When every call raises. *)
Hypothesis down : forall r st, exists e st', complete r st = (Raise e, st').

Lemma people_list_when_down (people : list str) (st : St) :
  exists st',
    translate_people_list St complete people st
    = (Ok (stripped_nonempty people), st').
Proof.
  revert st. induction people as [|p ps IH]; intros st.
  - exists st. reflexivity.
  - cbn [translate_people_list]. rewrite stripped_nonempty_cons.
    destruct (nonempty (strip p)).
    + unfold bind, try_except, ret.
      destruct (down (PersonRequest (strip p)) st) as (e & st1 & ->).
      destruct (IH st1) as (st' & ->). exists st'. reflexivity.
    + apply IH.
Qed.

Lemma translate_text_when_down (text : str) (st : St) :
  (strip text = [] /\ translate_text St complete text st = (Ok [], st))
  \/ exists e st', translate_text St complete text st = (Raise e, st').
Proof.
  unfold translate_text. destruct (nonempty (strip text)) eqn:E.
  - right. unfold bind. destruct (down (ReviewRequest text) st) as (e & st' & ->).
    eauto.
  - left. apply nonempty_false in E. auto.
Qed.

Lemma translate_or_empty_when_down (item : raw_item) (st : St) :
  exists t st1,
    translate_or_empty St complete json_loads item st = (Ok t, st1)
    /\ title_en t = [] /\ comment_en t = [] /\ people_en_list t = [].
Proof.
  unfold translate_or_empty, translate_title_and_comment, try_except,
    structured_attempt.
  unfold bind at 1.
  destruct (down (payload (item_title_zh item) (item_comment_zh item)
                          (item_category item) (item_people item)) st)
    as (e & st0 & ->).
  rewrite TranslateFacts.free_text_fallback_unfold.
  destruct (translate_text_when_down (item_title_zh item) st0)
    as [[_ ->] | (e1 & st2 & ->)].
  - destruct (translate_text_when_down (item_comment_zh item) st0)
      as [[_ ->] | (e2 & st3 & ->)].
    + eexists _, _. repeat split; reflexivity.
    + eexists _, _. unfold ret. repeat split; reflexivity.
  - eexists _, _. unfold ret. repeat split; reflexivity.
Qed.

End Carried.

Lemma movie_alias_overrides_title_witness :
  exists out st',
    translate_item nat Samples.service_prose Samples.loads_sample
                   MoreSamples.raw_movie_hero 0%nat = (Ok out, st')
    /\ title out = lit "Hero".
Proof.
  destruct (movie_alias_overrides_title nat Samples.service_prose
              Samples.loads_sample MoreSamples.raw_movie_hero 0%nat)
    as (t & st1 & out & st2 & _ & Ho & _ & Halias & _).
  exists out, st2. split; [exact Ho|].
  apply Halias; vm_compute; reflexivity.
Defined.

(** X9. When every call to the service raises, a record is still written:
    its comment is empty, its title is the alias found in a movie title and
    empty otherwise, and for a book or a movie its people are the source
    names that are not blank, trimmed, in order. *)
Theorem record_when_service_is_down
        (St : Type) (complete : request -> M St str)
        (json_loads : str -> option json) (item : raw_item) (st : St) :
  (forall r s, exists e s', complete r s = (Raise e, s')) ->
  exists out st',
    translate_item St complete json_loads item st = (Ok out, st')
    /\ comment out = []
    /\ title out
       = match (if str_eqb (item_category item) MOVIE
                then detect_english_from_title (item_title_zh item)
                else None) with
         | Some d => d
         | None => []
         end
    /\ (item_category item = BOOK \/ item_category item = MOVIE ->
        people_field out
        = Some (join SLASH_SEP (stripped_nonempty (item_people item)))).
Proof.
  intros down.
  destruct (translate_or_empty_when_down St complete json_loads down item st)
    as (t & st1 & Ht & Htitle & Hcomment & Hpeople).
  destruct (people_list_when_down St complete down (item_people item) st1)
    as (st2 & Hnames).
  assert (Halias : match (if str_eqb (item_category item) MOVIE
                          then detect_english_from_title (item_title_zh item)
                          else None) with
                   | Some d => if nonempty d then d else title_en t
                   | None => title_en t
                   end
                   = match (if str_eqb (item_category item) MOVIE
                            then detect_english_from_title (item_title_zh item)
                            else None) with
                     | Some d => d
                     | None => []
                     end).
  { destruct (str_eqb (item_category item) MOVIE); [|exact Htitle].
    destruct (detect_english_from_title (item_title_zh item)) as [d|] eqn:Ed;
      [|exact Htitle].
    destruct (detect_alias_some _ _ Ed) as ((Hne & _) & _).
    rewrite (nonempty_true _ Hne). reflexivity. }
  unfold translate_item. unfold bind at 1. rewrite Ht, Hpeople, Hcomment, Halias.
  unfold people_field, str_eqb. cbn [names_of].
  destruct (decide (item_category item = BOOK)) as [Hb|Hb].
  - rewrite (bool_decide_eq_true_2 _ Hb). unfold bind, ret. rewrite Hnames.
    eexists _, _. split; [reflexivity|]. cbn [comment title category author].
    split; [reflexivity|]. split; [reflexivity|].
    intros _. rewrite (bool_decide_eq_true_2 _ Hb). reflexivity.
  - rewrite (bool_decide_eq_false_2 _ Hb).
    destruct (decide (item_category item = MOVIE)) as [Hm|Hm].
    + rewrite (bool_decide_eq_true_2 _ Hm). unfold bind, ret. rewrite Hnames.
      eexists _, _. split; [reflexivity|].
      cbn [comment title category author director].
      split; [reflexivity|]. split; [reflexivity|].
      intros _. rewrite (bool_decide_eq_false_2 _ Hb). reflexivity.
    + rewrite (bool_decide_eq_false_2 _ Hm). unfold ret.
      eexists _, _. split; [reflexivity|]. cbn [comment title].
      split; [reflexivity|]. split; [reflexivity|].
      intros [H|H]; contradiction.
Qed.

Lemma record_when_service_is_down_witness :
  exists out st',
    translate_item nat MoreSamples.service_down Samples.loads_sample
                   Samples.book_with_comment 0%nat = (Ok out, st')
    /\ comment out = []
    /\ people_field out
       = Some (join SLASH_SEP [Samples.zhang_san; Samples.li_si]).
Proof.
  destruct (record_when_service_is_down nat MoreSamples.service_down
              Samples.loads_sample Samples.book_with_comment 0%nat)
    as (out & st' & Ho & Hc & _ & Hp).
  - intros r s. eexists _, _. reflexivity.
  - exists out, st'. split; [exact Ho|]. split; [exact Hc|].
    rewrite Hp by (left; reflexivity). reflexivity.
Defined.

(** How [(v or "").strip()] reads a member of the answer. *)
Lemma or_empty_strip_ok (v : option json) (s : str) :
  or_empty_strip v = Ok s <-> reads_as v s.
Proof.
  unfold or_empty_strip, reads_as. split.
  - destruct v as [j|].
    + destruct (truthy j) eqn:Et.
      * destruct j; try discriminate. intros [= <-].
        right; right. exists s0. split; [reflexivity|].
        split; [intros ->; discriminate | reflexivity].
      * intros [= <-]. right; left. exists j. auto.
    + intros [= <-]. left. auto.
  - intros [[-> ->] | [(j & -> & Ht & ->) | (text & -> & Hne & ->)]].
    + reflexivity.
    + rewrite Ht. reflexivity.
    + cbn [truthy]. rewrite (nonempty_true _ Hne). reflexivity.
Qed.

(** X10. The structured answer is accepted exactly when it is a JSON
    object whose [title_en] and [comment_en] are each absent, a falsy value
    (null, false, zero, an empty string, list or object) or a text.  The
    field is then the trimmed text, empty in the first two cases, and the
    names are the text entries of [people_en], trimmed, when that is a
    list, none otherwise. *)
Theorem structured_answer_accepted
        (St : Type) (complete : request -> M St str)
        (json_loads : str -> option json)
        (title_zh comment_zh category : str) (people : list str)
        (st st1 : St) (t : trans) :
  structured_attempt St complete json_loads title_zh comment_zh category
                     people st = (Ok t, st1)
  <-> exists content members,
      complete (payload title_zh comment_zh category people) st
      = (Ok content, st1)
      /\ json_loads (strip content) = Some (JObj members)
      /\ reads_as (dict_get TITLE_EN members) (title_en t)
      /\ reads_as (dict_get COMMENT_EN members) (comment_en t)
      /\ people_en t = Some (people_of_json (dict_get PEOPLE_EN members)).
Proof.
  split.
  - intros H.
    destruct (TranslateFacts.structured_attempt_returns _ _ _ _ _ _ _ _ _ _ H)
      as (content & members & Hc & Hj & Ht & Hm & Hp).
    exists content, members. rewrite <- !or_empty_strip_ok. auto.
  - intros (content & members & Hc & Hj & Ht & Hm & Hp).
    apply or_empty_strip_ok in Ht, Hm.
    unfold structured_attempt. unfold bind at 1. rewrite Hc.
    unfold bind, lift, ret. rewrite Hj. cbn [data_get]. rewrite Ht, Hm.
    destruct t as [a c p]. cbn in *. rewrite Hp. reflexivity.
Qed.

End TranslateMoreFacts.

(* ===================================================================== *)
(** * search.py: the searches of a run, the site results, the file        *)
(* ===================================================================== *)

Module SearchSiteFacts.
Import Py Search SearchSite Spec Notions PyFacts.

Section Run.

Variable W : Type.
Variable people_of : item -> option str.
Variable search : str -> str -> W -> option str * W.
Variable overwrite : bool.

Let step := resolve_item W people_of search overwrite.

(** A turn of the loop either does nothing, or issues the search of the
    item and stores what it found. *)
Lemma resolve_item_query (mapping : gmap str str) (w : W) (log : list query)
      (it : item) :
  step (mapping, w, log) it = (mapping, w, log)
  \/ exists q w',
      query_of people_of it q
      /\ search (q_title q) (q_people q) w = (q_target q, w')
      /\ step (mapping, w, log) it
         = (stored (q_src q) (q_target q) mapping, w', log ++ [q]).
Proof.
  unfold step, resolve_item.
  destruct (subject_url it) as [src|] eqn:Eu; [|left; reflexivity].
  destruct (nonempty src) eqn:Es; cbn [negb]; [|left; reflexivity].
  destruct (bool_decide (is_Some (mapping !! src)) && negb overwrite);
    [left; reflexivity|].
  right.
  destruct (search (first_truthy [title it; title_en it])
                   (first_truthy [people_of it]) w) as [target w'] eqn:E.
  exists (MkQuery src (first_truthy [title it; title_en it])
                  (first_truthy [people_of it]) target), w'.
  split; [|split; [exact E | reflexivity]].
  split; [exact Eu|]. cbn [q_src q_title q_people].
  split; [intros Hn; rewrite Hn in Es; discriminate|].
  split; reflexivity.
Qed.

Lemma stored_lookup (src k : str) (target : option str)
      (mapping : gmap str str) (p t : str) :
  stored src target mapping !! k
  = match (if bool_decide (src = k)
           then found (MkQuery src p t target) else None) with
    | Some v => Some v
    | None => mapping !! k
    end.
Proof.
  unfold stored, found. cbn [q_target].
  destruct target as [v|]; [|destruct (bool_decide (src = k)); reflexivity].
  destruct (nonempty v); [|destruct (bool_decide (src = k)); reflexivity].
  rewrite lookup_insert. destruct (decide (src = k)) as [He|Hne].
  - rewrite (bool_decide_eq_true_2 _ He). reflexivity.
  - rewrite (bool_decide_eq_false_2 _ Hne). reflexivity.
Qed.

Lemma fold_run (items : list item) (m : gmap str str) (w : W)
      (log : list query) :
  exists new,
    (fold_left step items (m, w, log)).2 = log ++ new
    /\ searched people_of items new
    /\ (forall k,
           (fold_left step items (m, w, log)).1.1 !! k
           = match last_found k new with
             | Some t => Some t
             | None => m !! k
             end)
    /\ (well_formed m -> well_formed (fold_left step items (m, w, log)).1.1).
Proof.
  revert m w log. induction items as [|it items IH]; intros m w log.
  - exists []. split; [symmetry; apply app_nil_r|].
    split; [constructor|]. split; [reflexivity | auto].
  - cbn [fold_left].
    destruct (resolve_item_query m w log it) as [-> | (q & w' & Hq & _ & ->)].
    + destruct (IH m w log) as (new & Hl & Hs & Hk & Hw).
      exists new. split; [exact Hl|]. split; [constructor; exact Hs|].
      split; assumption.
    + destruct (IH (stored (q_src q) (q_target q) m) w' (log ++ [q]))
        as (new & Hl & Hs & Hk & Hw).
      exists (q :: new). split; [rewrite Hl, <- app_assoc; reflexivity|].
      split; [constructor; assumption|]. split.
      * intros k. rewrite Hk. cbn [last_found].
        destruct (last_found k new); [reflexivity|].
        rewrite (stored_lookup _ _ _ _ (q_title q) (q_people q)).
        destruct q; reflexivity.
      * intros Hm. apply Hw. intros k v.
        rewrite (stored_lookup _ _ _ _ (q_title q) (q_people q)).
        destruct (bool_decide (q_src q = k)) eqn:Ek; [|apply Hm].
        apply bool_decide_eq_true in Ek. subst k.
        unfold found. cbn [q_target].
        destruct (q_target q) as [t|]; [|apply Hm].
        destruct (nonempty t) eqn:Et; [|apply Hm].
        intros [= <-]. destruct Hq as (_ & Hne & _).
        split; [exact Hne | intros ->; discriminate].
Qed.

End Run.

(** X11. After a run, the entry of every key is the target of the last
    search for that key that found something, and the existing entry when
    there was none; this holds with the overwrite flag on or off, for both
    destinations. *)
Theorem mapping_is_last_result
        (W : Type) (search_goodreads search_imdb : str -> str -> W -> option str * W)
        (items : list item) (existing : gmap str str) (overwrite : bool)
        (w : W) (k : str) :
  (build_goodreads_mapping W search_goodreads items existing overwrite w).1.1 !! k
  = match last_found k
            (build_goodreads_mapping W search_goodreads items existing
                                     overwrite w).2 with
    | Some t => Some t
    | None => existing !! k
    end
  /\ (build_imdb_mapping W search_imdb items existing overwrite w).1.1 !! k
     = match last_found k
               (build_imdb_mapping W search_imdb items existing overwrite w).2
       with
       | Some t => Some t
       | None => existing !! k
       end.
Proof.
  unfold build_goodreads_mapping, build_imdb_mapping. split.
  - destruct (fold_run W author search_goodreads overwrite items existing w [])
      as (new & -> & _ & Hk & _). apply Hk.
  - destruct (fold_run W director search_imdb overwrite items existing w [])
      as (new & -> & _ & Hk & _). apply Hk.
Qed.

(** X12. The searches of a run are for items of the list, in list order,
    at most one for each item and none for an item without [subject_url];
    each is made with the item's title ([title], else [title_en]) and its
    author, or director for the other destination. *)
Theorem searches_follow_items
        (W : Type) (search_goodreads search_imdb : str -> str -> W -> option str * W)
        (items : list item) (existing : gmap str str) (overwrite : bool)
        (w : W) :
  searched author items
           (build_goodreads_mapping W search_goodreads items existing
                                    overwrite w).2
  /\ searched director items
              (build_imdb_mapping W search_imdb items existing overwrite w).2.
Proof.
  unfold build_goodreads_mapping, build_imdb_mapping. split.
  - destruct (fold_run W author search_goodreads overwrite items existing w [])
      as (new & -> & Hs & _). exact Hs.
  - destruct (fold_run W director search_imdb overwrite items existing w [])
      as (new & -> & Hs & _). exact Hs.
Qed.

(** X13. A run keeps the mapping free of empty keys and empty targets: if
    the existing mapping has none, the returned one has none, whatever the
    searches return. *)
Theorem run_keeps_mapping_well_formed
        (W : Type) (search_goodreads search_imdb : str -> str -> W -> option str * W)
        (items : list item) (existing : gmap str str) (overwrite : bool)
        (w : W) :
  well_formed existing ->
  well_formed (build_goodreads_mapping W search_goodreads items existing
                                       overwrite w).1.1
  /\ well_formed (build_imdb_mapping W search_imdb items existing
                                     overwrite w).1.1.
Proof.
  intros H. unfold build_goodreads_mapping, build_imdb_mapping. split.
  - destruct (fold_run W author search_goodreads overwrite items existing w [])
      as (new & _ & _ & _ & Hw). exact (Hw H).
  - destruct (fold_run W director search_imdb overwrite items existing w [])
      as (new & _ & _ & _ & Hw). exact (Hw H).
Qed.

(** ** The sites *)

Lemma before_query_clean (s : str) :
  ~ In 0x3F%N (before_query s)
  /\ is_relative (before_query s) = is_relative s.
Proof.
  split.
  - induction s as [|c s IH]; cbn [before_query]; [intros []|].
    destruct (N.eqb_spec c 63) as [->|Hc]; [intros []|].
    intros [H|H]; [congruence | auto].
  - destruct s as [|c s]; [reflexivity|]. cbn [before_query].
    destruct (N.eqb_spec c 63) as [->|Hc]; reflexivity.
Qed.

Lemma search_query_no_space (title people : str) :
  ~ In 0x20%N (search_query title people).
Proof.
  unfold search_query, spaces_to_plus. intros H.
  apply in_map_iff in H as (c & Hc & _).
  destruct (N.eqb_spec c 32); [discriminate | congruence].
Qed.

Lemma run_keeps_mapping_well_formed_witness :
  well_formed (build_goodreads_mapping nat Samples.site_always_new
                 [Samples.translated_1; Samples.translated_2]
                 Samples.existing_one true 0%nat).1.1.
Proof.
  apply (run_keeps_mapping_well_formed nat Samples.site_always_new
           Samples.site_always_new [Samples.translated_1; Samples.translated_2]
           Samples.existing_one true 0%nat).
  intros k v H. unfold Samples.existing_one in H.
  apply lookup_singleton_Some in H as [<- <-].
  split; discriminate.
Defined.

(** X14. A search makes exactly one request, for the search page of the
    query, in which no space is left.  What [search_goodreads] returns is
    never the empty string and never a site-relative path; what
    [search_imdb] returns is never a site-relative path and holds no
    question mark.  A failed request gives [None]. *)
Theorem site_search_results
        (W : Type) (fetch_html : str -> W -> option str * W)
        (select_one : str -> str -> option (option str))
        (title people : str) (w : W) :
  ~ In 0x20%N (search_query title people)
  /\ snd (search_goodreads W fetch_html select_one title people w)
     = snd (fetch_html (goodreads_search_url title people) w)
  /\ snd (search_imdb W fetch_html select_one title people w)
     = snd (fetch_html (imdb_search_url title people) w)
  /\ (forall u,
         fst (search_goodreads W fetch_html select_one title people w) = Some u ->
         u <> [] /\ is_relative u = false)
  /\ (forall u,
         fst (search_imdb W fetch_html select_one title people w) = Some u ->
         is_relative u = false /\ ~ In 0x3F%N u)
  /\ (fst (fetch_html (goodreads_search_url title people) w) = None ->
      fst (search_goodreads W fetch_html select_one title people w) = None)
  /\ (fst (fetch_html (imdb_search_url title people) w) = None ->
      fst (search_imdb W fetch_html select_one title people w) = None).
Proof.
  split; [apply search_query_no_space|].
  unfold search_goodreads, search_imdb.
  destruct (fetch_html (goodreads_search_url title people) w) as [hg wg].
  destruct (fetch_html (imdb_search_url title people) w) as [hi wi].
  assert (Hhref : forall a href, truthy_href a = Some href -> href <> []).
  { intros a href. unfold truthy_href. destruct a as [[h|]|]; try discriminate.
    destruct (nonempty h) eqn:E; [|discriminate].
    intros [= <-] ->. discriminate. }
  split.
  { destruct hg as [h|]; [|reflexivity].
    destruct (negb (nonempty h)); [reflexivity|].
    destruct (truthy_href _) as [href|]; [|reflexivity].
    destruct (is_relative href); reflexivity. }
  split.
  { destruct hi as [h|]; [|reflexivity].
    destruct (negb (nonempty h)); [reflexivity|].
    destruct (truthy_href _) as [href|]; [|reflexivity].
    destruct (is_relative href); reflexivity. }
  split.
  { intros u. destruct hg as [h|]; [|discriminate].
    destruct (negb (nonempty h)); [discriminate|].
    destruct (truthy_href _) as [href|] eqn:Eh; [|discriminate].
    destruct (is_relative href) eqn:Er; intros [= <-].
    - split; [discriminate | reflexivity].
    - split; [eapply Hhref; exact Eh | exact Er]. }
  split.
  { intros u. destruct hi as [h|]; [|discriminate].
    destruct (negb (nonempty h)); [discriminate|].
    destruct (truthy_href _) as [href|] eqn:Eh; [|discriminate].
    destruct (before_query_clean href) as [Hq Hr].
    destruct (is_relative href) eqn:Er; intros [= <-].
    - split; [reflexivity|]. intros Hin.
      repeat (destruct Hin as [Hin|Hin]; [discriminate Hin|]).
      exact (Hq Hin).
    - split; [rewrite Hr; reflexivity | exact Hq]. }
  split; cbn [fst]; intros ->; reflexivity.
Qed.

(** ** The mapping file *)

Lemma load_mapping_from_lookup (rows : list ImportData.row)
      (acc : gmap str str) (k : str) :
  ImportData.load_mapping_from acc rows !! k
  = match last_entry k rows with
    | Some v => Some v
    | None => acc !! k
    end.
Proof.
  revert acc. induction rows as [|r rest IH]; intros acc; [reflexivity|].
  cbn [ImportData.load_mapping_from last_entry]. unfold row_entry.
  destruct (ImportData.py_or (ImportData.row_subject_url r)
                             (ImportData.row_source r)) as [src|];
    [|rewrite IH; destruct (last_entry k rest); reflexivity].
  destruct (ImportData.py_or (ImportData.row_target_url r)
                             (ImportData.row_target r)) as [dst|];
    [|rewrite IH; destruct (last_entry k rest); reflexivity].
  destruct (nonempty src && nonempty dst);
    [|rewrite IH; destruct (last_entry k rest); reflexivity].
  rewrite IH. destruct (last_entry k rest); [reflexivity|].
  rewrite lookup_insert. destruct (decide (src = k)) as [He|Hne].
  - rewrite (bool_decide_eq_true_2 _ He). reflexivity.
  - rewrite (bool_decide_eq_false_2 _ Hne). reflexivity.
Qed.

Lemma last_entry_app (k : str) (pre post : list ImportData.row) :
  last_entry k (pre ++ post)
  = match last_entry k post with
    | Some v => Some v
    | None => last_entry k pre
    end.
Proof.
  induction pre as [|r pre IH]; cbn [app last_entry].
  - destruct (last_entry k post); reflexivity.
  - rewrite IH. destruct (last_entry k post); reflexivity.
Qed.

Lemma last_entry_none (k : str) (rows : list ImportData.row) :
  (forall r v, In r rows -> row_entry r <> Some (k, v)) ->
  last_entry k rows = None.
Proof.
  induction rows as [|r rows IH]; intros H; [reflexivity|].
  cbn [last_entry]. rewrite IH by (intros r' v Hin; apply H; right; exact Hin).
  destruct (row_entry r) as [[s d]|] eqn:E; [|reflexivity].
  destruct (bool_decide (s = k)) eqn:Ek; [|reflexivity].
  apply bool_decide_eq_true in Ek. subst s.
  exfalso. apply (H r d (or_introl eq_refl)). exact E.
Qed.

Lemma last_entry_some (k v : str) (rows : list ImportData.row) :
  last_entry k rows = Some v -> exists r, In r rows /\ row_entry r = Some (k, v).
Proof.
  induction rows as [|r rows IH]; cbn [last_entry]; [discriminate|].
  destruct (last_entry k rows) as [v'|].
  - intros [= ->]. destruct (IH eq_refl) as (r' & Hin & Hr).
    exists r'. split; [right; exact Hin | exact Hr].
  - destruct (row_entry r) as [[s d]|] eqn:E; [|discriminate].
    destruct (bool_decide (s = k)) eqn:Ek; [|discriminate].
    apply bool_decide_eq_true in Ek. subst s. intros [= ->].
    exists r. split; [left; reflexivity | exact E].
Qed.

(** X15. In a mapping file the last row for a key wins: [load_mapping]
    gives a key the target of the last row that has both a non-empty source
    ([subject_url], else [source]) and a non-empty target ([target_url],
    else [target]) and whose source is that key; a key without such a row
    has no entry.  Every entry has a non-empty key and target. *)
Theorem load_mapping_last_row_wins (rows : list ImportData.row) (k : str) :
  (forall pre r post v,
      rows = pre ++ r :: post ->
      row_entry r = Some (k, v) ->
      (forall r' v', In r' post -> row_entry r' <> Some (k, v')) ->
      ImportData.load_mapping rows !! k = Some v)
  /\ ((forall r v, In r rows -> row_entry r <> Some (k, v)) ->
      ImportData.load_mapping rows !! k = None)
  /\ (forall v, ImportData.load_mapping rows !! k = Some v ->
                k <> [] /\ v <> []
                /\ exists r, In r rows /\ row_entry r = Some (k, v)).
Proof.
  unfold ImportData.load_mapping. split; [|split].
  - intros pre r post v -> Hr Hpost.
    rewrite load_mapping_from_lookup, last_entry_app. cbn [last_entry].
    rewrite (last_entry_none k post Hpost), Hr.
    rewrite bool_decide_eq_true_2 by reflexivity. reflexivity.
  - intros H. rewrite load_mapping_from_lookup, (last_entry_none k rows H).
    apply lookup_empty.
  - intros v. rewrite load_mapping_from_lookup.
    destruct (last_entry k rows) as [v'|] eqn:E;
      [|rewrite lookup_empty; discriminate].
    intros [= ->]. destruct (last_entry_some _ _ _ E) as (r & Hin & Hr).
    assert (Hne : k <> [] /\ v <> []).
    { unfold row_entry in Hr.
      destruct (ImportData.py_or _ _) as [s|]; [|discriminate].
      destruct (ImportData.py_or _ _) as [d|]; [|discriminate].
      destruct (nonempty s) eqn:Es; [|discriminate].
      destruct (nonempty d) eqn:Ed; [|discriminate].
      cbn in Hr. injection Hr as -> ->.
      split; intros ->; discriminate. }
    destruct Hne as [Hk Hv]. split; [exact Hk|]. split; [exact Hv|].
    exists r. split; assumption.
Qed.

Lemma load_mapping_last_row_wins_witness :
  ImportData.load_mapping MoreSamples.rows_twice !! lit "douban/1"
  = Some (lit "site/b")
  /\ ImportData.load_mapping MoreSamples.rows_twice !! lit "douban/2" = None.
Proof.
  destruct (load_mapping_last_row_wins MoreSamples.rows_twice (lit "douban/1"))
    as (H1 & _).
  destruct (load_mapping_last_row_wins MoreSamples.rows_twice (lit "douban/2"))
    as (_ & H2 & _).
  split.
  - apply (H1 [ImportData.MkRow (Some (lit "douban/1")) None
                                (Some (lit "site/a")) None]
              (ImportData.MkRow None (Some (lit "douban/1")) None
                                (Some (lit "site/b")))
              [ImportData.MkRow (Some (lit "douban/2")) None None None]).
    + reflexivity.
    + reflexivity.
    + intros r' v' [<-|[]]. discriminate.
  - apply H2. intros r v [<-|[<-|[<-|[]]]]; vm_compute; discriminate.
Defined.

Lemma save_row_entry (k v : str) :
  row_entry (ImportData.MkRow (Some k) None (Some v) None)
  = if nonempty k && nonempty v then Some (k, v) else None.
Proof.
  destruct k, v; reflexivity.
Qed.

(** What loading the saved rows gives for a key. *)
Lemma save_load_lookup (mapping : gmap str str) (rows : list ImportData.row)
      (k : str) :
  Permutation rows (save_rows mapping) ->
  load_mapping rows !! k
  = match mapping !! k with
    | Some v => if nonempty k && nonempty v then Some v else None
    | None => None
    end.
Proof.
  intros Hperm. unfold load_mapping, ImportData.load_mapping.
  rewrite load_mapping_from_lookup, lookup_empty.
  assert (Hin : forall r, In r rows <->
                          exists k' v', mapping !! k' = Some v'
                                        /\ r = ImportData.MkRow (Some k') None (Some v') None).
  { intros r. rewrite (Permutation_in' (eq_refl r) Hperm).
    unfold save_rows. rewrite in_map_iff. split.
    - intros ([k' v'] & <- & Hkv). exists k', v'. split; [|reflexivity].
      apply elem_of_map_to_list. apply list_elem_of_In. exact Hkv.
    - intros (k' & v' & Hm & ->). exists (k', v'). split; [reflexivity|].
      apply list_elem_of_In. apply elem_of_map_to_list. exact Hm. }
  destruct (last_entry k rows) as [v|] eqn:E.
  - destruct (last_entry_some _ _ _ E) as (r & Hr & He).
    apply Hin in Hr as (k' & v' & Hm & ->).
    rewrite save_row_entry in He.
    destruct (nonempty k' && nonempty v') eqn:En; [|discriminate].
    injection He as -> ->. rewrite Hm, En. reflexivity.
  - destruct (mapping !! k) as [v|] eqn:Em; [|reflexivity].
    destruct (nonempty k && nonempty v) eqn:En; [|reflexivity].
    exfalso.
    assert (Hr : In (ImportData.MkRow (Some k) None (Some v) None) rows)
      by (apply Hin; eauto).
    apply in_split in Hr as (pre & post & ->).
    rewrite last_entry_app in E. cbn [last_entry] in E.
    rewrite save_row_entry, En in E.
    rewrite bool_decide_eq_true_2 in E by reflexivity.
    destruct (last_entry k post); discriminate.
Qed.

Lemma well_formed_lookup (mapping : gmap str str) (k : str) :
  well_formed mapping ->
  match mapping !! k with
  | Some v => if nonempty k && nonempty v then Some v else None
  | None => None
  end = mapping !! k.
Proof.
  intros Hwf. destruct (mapping !! k) as [v|] eqn:E; [|reflexivity].
  destruct (Hwf _ _ E) as [Hk Hv].
  rewrite (nonempty_true _ Hk), (nonempty_true _ Hv). reflexivity.
Qed.

(** X16. What [save_mapping] writes, [load_mapping] reads back, but for
    the entries with an empty key or an empty target, which are lost: the
    saved rows, loaded in any order, give every key with a non-empty target
    its entry and nothing else.  For a mapping without empty keys and
    targets the round trip gives the mapping again. *)
Theorem save_then_load (mapping : gmap str str) (rows : list ImportData.row) :
  Permutation rows (save_rows mapping) ->
  (forall k,
      load_mapping rows !! k
      = match mapping !! k with
        | Some v => if nonempty k && nonempty v then Some v else None
        | None => None
        end)
  /\ (well_formed mapping -> load_mapping rows = mapping).
Proof.
  intros Hperm. split.
  - intros k. apply save_load_lookup, Hperm.
  - intros Hwf. apply map_eq. intros k.
    rewrite (save_load_lookup mapping rows k Hperm).
    apply well_formed_lookup, Hwf.
Qed.

Lemma save_then_load_witness :
  load_mapping (save_rows Samples.existing_one) = Samples.existing_one.
Proof.
  apply (save_then_load Samples.existing_one (save_rows Samples.existing_one)).
  - apply Permutation_refl.
  - intros k v H. unfold Samples.existing_one in H.
    apply lookup_singleton_Some in H as [<- <-].
    split; discriminate.
Defined.

(** X21. The cycle of a resolution run: the mapping built from a mapping
    file, saved, and loaded again (by the Resolver on its next run, or by
    the Publisher) is the mapping that was built, for both destinations and
    whatever the searches returned. *)
Theorem built_mapping_survives_the_file
        (W : Type) (search_goodreads search_imdb : str -> str -> W -> option str * W)
        (items : list item) (file : list ImportData.row) (overwrite : bool)
        (w : W) :
  ImportData.load_mapping
    (save_rows (build_goodreads_mapping W search_goodreads items
                                        (load_mapping file) overwrite w).1.1)
  = (build_goodreads_mapping W search_goodreads items
                             (load_mapping file) overwrite w).1.1
  /\ ImportData.load_mapping
       (save_rows (build_imdb_mapping W search_imdb items
                                      (load_mapping file) overwrite w).1.1)
     = (build_imdb_mapping W search_imdb items
                           (load_mapping file) overwrite w).1.1.
Proof.
  assert (Hfile : well_formed (load_mapping file)).
  { intros k v. apply ImportFacts.load_mapping_nonempty. }
  unfold build_goodreads_mapping, build_imdb_mapping. split.
  - destruct (fold_run W author search_goodreads overwrite items
                       (load_mapping file) w []) as (new & _ & _ & _ & Hw).
    apply map_eq. intros k.
    rewrite (save_load_lookup _ _ k (Permutation_refl _)).
    apply well_formed_lookup, Hw, Hfile.
  - destruct (fold_run W director search_imdb overwrite items
                       (load_mapping file) w []) as (new & _ & _ & _ & Hw).
    apply map_eq. intros k.
    rewrite (save_load_lookup _ _ k (Permutation_refl _)).
    apply well_formed_lookup, Hw, Hfile.
Qed.

End SearchSiteFacts.

(* ===================================================================== *)
(** * import_data.py: how a posting ends                                  *)
(* ===================================================================== *)

Module PublisherFacts.
Import Py ImportData Spec Notions PyFacts.

Section Page.

Variable Pg : Type.
Variable perform : action -> Pg -> bool * Pg.

(** When the navigation fails, nothing else is asked of the page. *)
Lemma goto_fails (target : str) (pg pg' : Pg) (log : list (action * bool)) :
  perform (Goto target) pg = (false, pg') ->
  page_do Pg perform (Goto target) (pg, log)
  = (Raise PageError, (pg', log ++ [(Goto target, false)])).
Proof.
  intros H. unfold page_do, bind, page_try, raise. rewrite H. reflexivity.
Qed.

Section Pure.

(** A page on which what a call finds does not depend on what was done
    before. *)
Variable ok : action -> bool.
Hypothesis pure : forall a pg, fst (perform a pg) = ok a.

Lemma page_try_pure (a : action) (s : session Pg) :
  exists s', page_try Pg perform a s = (Ok (ok a), s').
Proof.
  destruct s as [pg log]. unfold page_try.
  specialize (pure a pg). destruct (perform a pg) as [b pg'].
  cbn [fst] in pure. subst b. eexists. reflexivity.
Qed.

Lemma page_do_pure (a : action) (s : session Pg) :
  exists s',
    page_do Pg perform a s
    = (if ok a then Ok tt else Raise PageError, s').
Proof.
  unfold page_do, bind. destruct (page_try_pure a s) as (s' & ->).
  exists s'. destruct (ok a); reflexivity.
Qed.

Lemma click_pure (selectors : list str) (s : session Pg) :
  exists s',
    click_first_available Pg perform selectors s
    = (Ok (existsb (fun sel => ok (Click sel)) selectors), s').
Proof.
  revert s. induction selectors as [|sel rest IH]; intros s.
  - exists s. reflexivity.
  - cbn [click_first_available existsb]. unfold bind.
    destruct (page_try_pure (Click sel) s) as (s1 & ->).
    destruct (ok (Click sel)); [exists s1; reflexivity | apply IH].
Qed.

Lemma fill_pure (selectors : list str) (text : str) (s : session Pg) :
  exists s',
    fill_first_available Pg perform selectors text s
    = (Ok (existsb (fun sel => ok (Fill sel text)) selectors), s').
Proof.
  revert s. induction selectors as [|sel rest IH]; intros s.
  - exists s. reflexivity.
  - cbn [fill_first_available existsb]. unfold bind.
    destruct (page_try_pure (Fill sel text) s) as (s1 & ->).
    destruct (ok (Fill sel text)); [exists s1; reflexivity | apply IH].
Qed.

Lemma rating_click_pure (rating : option Z) (sels : Z -> list str)
      (s : session Pg) :
  exists b s',
    match rating_given rating with
    | Some r => click_first_available Pg perform (sels r)
    | None => ret false
    end s = (Ok b, s').
Proof.
  destruct (rating_given rating) as [r|].
  - destruct (click_pure (sels r) s) as (s' & ->). eauto.
  - eexists _, _. reflexivity.
Qed.

Lemma post_goodreads_pure (target : str) (rating : option Z) (comment : str)
      (s : session Pg) :
  fst (post_goodreads_review Pg perform target rating comment s)
  = post_decision ok target comment goodreads_comment_boxes
                  goodreads_submit_buttons 2000
                  "找不到 Goodreads 评论输入框，需手动调整选择器"
                  "找不到 Goodreads 提交按钮，需手动调整选择器".
Proof.
  unfold post_goodreads_review, open_goodreads_editor, post_decision.
  unfold bind at 1. unfold bind at 1.
  destruct (page_do_pure (Goto target) s) as (s1 & ->).
  destruct (ok (Goto target)); [|reflexivity]. cbn [negb].
  unfold bind at 1.
  destruct (click_pure [lit "a[href*='/review/new']"; lit "a.writeReviewLink";
                        lit "button[data-analytics-id='new_review']";
                        lit "a[data-analytics-id='new_review']"] s1) as (s2 & ->).
  unfold ret at 1. unfold bind at 1.
  match goal with
  | |- context [match rating_given rating with
                | Some r => click_first_available Pg perform (@?f r)
                | None => _ end s2] =>
      destruct (rating_click_pure rating f s2) as (b & s3 & ->)
  end.
  unfold bind at 1.
  destruct (fill_pure goodreads_comment_boxes comment s3) as (s4 & Hf).
  unfold goodreads_comment_boxes in Hf at 1. rewrite Hf. clear Hf.
  destruct (existsb _ goodreads_comment_boxes); [|reflexivity]. cbn [negb].
  unfold bind at 1.
  destruct (click_pure goodreads_submit_buttons s4) as (s5 & Hc).
  unfold goodreads_submit_buttons in Hc at 1. rewrite Hc. clear Hc.
  destruct (existsb _ goodreads_submit_buttons); [|reflexivity]. cbn [negb].
  destruct (page_do_pure (WaitForTimeout 2000) s5) as (s6 & ->).
  destruct (ok (WaitForTimeout 2000)); reflexivity.
Qed.

Lemma post_imdb_pure (target : str) (rating : option Z) (comment : str)
      (s : session Pg) :
  fst (post_imdb_review Pg perform target rating comment s)
  = post_decision ok target comment imdb_comment_boxes imdb_submit_buttons 1500
                  "找不到 IMDb 评论输入框，需手动调整选择器"
                  "找不到 IMDb 提交按钮，需手动调整选择器".
Proof.
  unfold post_imdb_review, post_decision.
  unfold bind at 1.
  destruct (page_do_pure (Goto target) s) as (s1 & ->).
  destruct (ok (Goto target)); [|reflexivity]. cbn [negb].
  unfold bind at 1.
  match goal with
  | |- context [match rating_given rating with
                | Some r => click_first_available Pg perform (@?f r)
                | None => _ end s1] =>
      destruct (rating_click_pure rating f s1) as (b & s3 & ->)
  end.
  unfold bind at 1.
  destruct (fill_pure imdb_comment_boxes comment s3) as (s4 & Hf).
  unfold imdb_comment_boxes in Hf at 1. rewrite Hf. clear Hf.
  destruct (existsb _ imdb_comment_boxes); [|reflexivity]. cbn [negb].
  unfold bind at 1.
  destruct (click_pure imdb_submit_buttons s4) as (s5 & Hc).
  unfold imdb_submit_buttons in Hc at 1. rewrite Hc. clear Hc.
  destruct (existsb _ imdb_submit_buttons); [|reflexivity]. cbn [negb].
  destruct (page_do_pure (WaitForTimeout 1500) s5) as (s6 & ->).
  destruct (ok (WaitForTimeout 1500)); reflexivity.
Qed.

End Pure.

(** ** Traces on any page *)

Lemma click_trace (selectors : list str) (pg : Pg)
      (log : list (action * bool)) :
  exists result pg' tried,
    click_first_available Pg perform selectors (pg, log)
    = (Ok result, (pg', log ++ tried)).
Proof.
  destruct (ImportFacts.first_available_trace Pg perform Click
              (click_first_available Pg perform)
              (fun s => eq_refl)
              (fun sel rest pg0 log0 =>
                 ImportFacts.click_first_available_cons Pg perform sel rest pg0 log0)
              selectors pg log) as (r & pg' & tried & H & _).
  eauto.
Qed.

Lemma fill_trace (selectors : list str) (text : str) (pg : Pg)
      (log : list (action * bool)) :
  exists result pg' tried,
    fill_first_available Pg perform selectors text (pg, log)
    = (Ok result, (pg', log ++ tried))
    /\ (result = false ->
        tried = List.map (fun sel => (Fill sel text, false)) selectors).
Proof.
  destruct (ImportFacts.first_available_trace Pg perform (fun sel => Fill sel text)
              (fun l => fill_first_available Pg perform l text)
              (fun s => eq_refl)
              (fun sel rest pg0 log0 =>
                 ImportFacts.fill_first_available_cons Pg perform text sel rest
                                                       pg0 log0)
              selectors pg log) as (r & pg' & tried & H & Htr & _).
  exists r, pg', tried. split; [exact H|].
  intros ->. destruct Htr as [[Hc _] | [_ Ht]]; [discriminate | exact Ht].
Qed.

Lemma rating_click_trace (rating : option Z) (sels : Z -> list str)
      (pg : Pg) (log : list (action * bool)) :
  exists b pg' tried,
    match rating_given rating with
    | Some r => click_first_available Pg perform (sels r)
    | None => ret false
    end (pg, log) = (Ok b, (pg', log ++ tried)).
Proof.
  destruct (rating_given rating) as [r|].
  - apply click_trace.
  - exists false, pg, []. rewrite app_nil_r. reflexivity.
Qed.

Lemma page_do_trace (a : action) (pg : Pg) (log : list (action * bool)) :
  exists r pg' tried,
    page_do Pg perform a (pg, log) = (r, (pg', log ++ tried))
    /\ forall e, r = Raise e -> e = PageError.
Proof.
  unfold page_do, bind, page_try, ret, raise.
  destruct (perform a pg) as [[|] pg'].
  - eexists _, pg', [_]. split; [reflexivity|]. intros e. discriminate.
  - eexists _, pg', [_]. split; [reflexivity|]. intros e [= <-]. reflexivity.
Qed.

(** X20. When posting to the first destination ends because no comment box
    was found, every candidate box was tried, in order, and failed, and
    nothing was asked of the page afterwards: the submit button is never
    clicked without a comment. *)
Theorem no_comment_box_no_submit (target : str) (rating : option Z)
      (comment : str) (pg pg' : Pg) (log log' : list (action * bool)) :
  post_goodreads_review Pg perform target rating comment (pg, log)
  = (Raise (RuntimeError no_box_goodreads), (pg', log')) ->
  exists before,
    log' = log ++ before
           ++ List.map (fun sel => (Fill sel comment, false))
                       goodreads_comment_boxes.
Proof.
  unfold post_goodreads_review, open_goodreads_editor.
  unfold bind at 1. unfold bind at 1.
  destruct (page_do_trace (Goto target) pg log) as (r1 & pg1 & t1 & -> & He1).
  destruct r1 as [[]|e1]; [|intros [= He _]; specialize (He1 _ eq_refl);
                            rewrite He1 in He; discriminate].
  unfold bind at 1.
  destruct (click_trace [lit "a[href*='/review/new']"; lit "a.writeReviewLink";
                         lit "button[data-analytics-id='new_review']";
                         lit "a[data-analytics-id='new_review']"] pg1 (log ++ t1))
    as (b2 & pg2 & t2 & ->).
  unfold ret at 1. unfold bind at 1.
  match goal with
  | |- context [match rating_given rating with
                | Some r => click_first_available Pg perform (@?f r)
                | None => _ end _] =>
      destruct (rating_click_trace rating f pg2 ((log ++ t1) ++ t2))
        as (b3 & pg3 & t3 & ->)
  end.
  unfold bind at 1.
  destruct (fill_trace goodreads_comment_boxes comment pg3
                       (((log ++ t1) ++ t2) ++ t3))
    as (b4 & pg4 & t4 & Hf & Hfail).
  unfold goodreads_comment_boxes in Hf at 1. rewrite Hf. clear Hf.
  destruct b4; cbn [negb].
  - unfold bind at 1.
    destruct (click_trace [lit "#review_submit";
                           lit "input[type='submit'][value*='Save']";
                           lit "button[type='submit']"; lit "input[name='commit']";
                           lit "button[name='commit']"] pg4
                          ((((log ++ t1) ++ t2) ++ t3) ++ t4))
      as (b5 & pg5 & t5 & ->).
    destruct b5; cbn [negb].
    + destruct (page_do_trace (WaitForTimeout 2000) pg5
                  (((((log ++ t1) ++ t2) ++ t3) ++ t4) ++ t5))
        as (r6 & pg6 & t6 & -> & He6).
      intros [= -> _ _]. specialize (He6 _ eq_refl). discriminate.
    + unfold raise, no_box_goodreads. intros H. discriminate H.
  - unfold raise. intros [= <- <-].
    rewrite (Hfail eq_refl). exists (t1 ++ t2 ++ t3).
    rewrite <- !app_assoc. reflexivity.
Qed.

End Page.

Section Run.

Variable Pg : Type.
Variable perform : action -> Pg -> bool * Pg.

Lemma replays_app (pg pg1 pg2 : Pg) (t1 t2 : call_log) :
  replays perform pg t1 pg1 -> replays perform pg1 t2 pg2 ->
  replays perform pg (t1 ++ t2) pg2.
Proof.
  revert pg. induction t1 as [|[a ok] t1 IH]; intros pg; cbn [replays app].
  - intros ->. auto.
  - intros [H1 H2] H3. split; [exact H1 | eapply IH; eassumption].
Qed.

Lemma runs_weaken {A : Type} (m : M (session Pg) A) (P Q : ending A) :
  runs perform m P -> (forall r new, P r new -> Q r new) -> runs perform m Q.
Proof.
  intros Hm HPQ pg log. destruct (Hm pg log) as (r & pg' & new & H1 & H2 & H3).
  exists r, pg', new. auto.
Qed.

Lemma runs_ret {A : Type} (x : A) :
  runs perform (ret x) (fun r new => r = Ok x /\ new = []).
Proof.
  intros pg log. exists (Ok x), pg, []. rewrite app_nil_r.
  split; [reflexivity|]. split; [reflexivity | auto].
Qed.

Lemma runs_page_try (a : action) :
  runs perform (page_try Pg perform a)
       (fun r new => exists ok, r = Ok ok /\ new = [(a, ok)]).
Proof.
  intros pg log. unfold page_try.
  destruct (perform a pg) as [ok pg'] eqn:E.
  exists (Ok ok), pg', [(a, ok)]. split; [reflexivity|].
  split; [cbn [replays]; rewrite E; auto | eauto].
Qed.

Lemma runs_outside (a : action) (e : exn) (m : M (session Pg) unit) :
  (forall s, m s = let '(r, s') := page_try Pg perform a s in
                   match r with
                   | Ok true => (Ok tt, s')
                   | Ok false => (Raise e, s')
                   | Raise e' => (Raise e', s')
                   end) ->
  runs perform m (outside a e).
Proof.
  intros Hm pg log. rewrite Hm.
  destruct (runs_page_try a pg log) as (r & pg' & new & -> & Hre & ok & -> & ->).
  destruct ok.
  - exists (Ok tt), pg', [(a, true)]. split; [reflexivity|].
    split; [exact Hre | left; auto].
  - exists (Raise e), pg', [(a, false)]. split; [reflexivity|].
    split; [exact Hre | right; auto].
Qed.

Lemma runs_page_do (a : action) :
  runs perform (page_do Pg perform a) (outside a PageError).
Proof.
  apply runs_outside. intros s. unfold page_do, bind.
  destruct (page_try Pg perform a s) as [[[|]|e] s']; reflexivity.
Qed.

Lemma runs_terminal_do (a : action) :
  runs perform (terminal_do Pg perform a) (outside a TerminalError).
Proof.
  apply runs_outside. intros s. unfold terminal_do, bind.
  destruct (page_try Pg perform a s) as [[[|]|e] s']; reflexivity.
Qed.

Lemma runs_bind {A B : Type} (m : M (session Pg) A)
      (k : A -> M (session Pg) B) (P : ending A) (Q : ending B) :
  runs perform m P -> (forall x, runs perform (k x) Q) -> runs perform (bind m k) (and_then P Q).
Proof.
  intros Hm Hk pg log. unfold bind.
  destruct (Hm pg log) as ([x|e] & pg1 & new1 & -> & Hre1 & HP).
  - destruct (Hk x pg1 (log ++ new1)) as (r & pg2 & new2 & -> & Hre2 & HQ).
    exists r, pg2, (new1 ++ new2). rewrite <- app_assoc.
    split; [reflexivity|]. split; [eapply replays_app; eassumption|].
    right. exists x, new1, new2. auto.
  - exists (Raise e), pg1, new1. split; [reflexivity|].
    split; [exact Hre1|]. left. eauto.
Qed.

(** ** The calls of a posting *)

Lemma on_page_bind {A B : Type} (m : M (session Pg) A)
      (k : A -> M (session Pg) B) :
  runs perform m on_page -> (forall x, runs perform (k x) on_page) -> runs perform (bind m k) on_page.
Proof.
  intros Hm Hk. eapply runs_weaken; [apply (runs_bind _ _ _ _ Hm Hk)|].
  intros r new [(e & _ & H) | (x & new1 & new2 & H1 & H2 & ->)];
    [exact H | apply Forall_app; split; assumption].
Qed.

Lemma on_page_ret {A : Type} (x : A) : runs perform (ret x) (@on_page A).
Proof.
  eapply runs_weaken; [apply runs_ret|]. intros r new [_ ->]. constructor.
Qed.

Lemma on_page_raise {A : Type} (e : exn) :
  runs perform (raise e : M (session Pg) A) on_page.
Proof.
  intros pg log. exists (Raise e), pg, []. rewrite app_nil_r.
  split; [reflexivity|]. split; [reflexivity | constructor].
Qed.

Lemma on_page_try (a : action) :
  page_call (a, true) -> runs perform (page_try Pg perform a) on_page.
Proof.
  intros Ha. eapply runs_weaken; [apply runs_page_try|].
  intros r new (ok & _ & ->). constructor; [exact Ha | constructor].
Qed.

Lemma on_page_do (a : action) :
  page_call (a, true) -> runs perform (page_do Pg perform a) on_page.
Proof.
  intros Ha. unfold page_do. apply on_page_bind; [apply on_page_try, Ha|].
  intros [|]; [apply on_page_ret | apply on_page_raise].
Qed.

Lemma on_page_click (selectors : list str) :
  runs perform (click_first_available Pg perform selectors) on_page.
Proof.
  induction selectors as [|sel rest IH]; cbn [click_first_available].
  - apply on_page_ret.
  - apply on_page_bind; [apply on_page_try; exact I|].
    intros [|]; [apply on_page_ret | exact IH].
Qed.

Lemma on_page_fill (selectors : list str) (text : str) :
  runs perform (fill_first_available Pg perform selectors text) on_page.
Proof.
  induction selectors as [|sel rest IH]; cbn [fill_first_available].
  - apply on_page_ret.
  - apply on_page_bind; [apply on_page_try; exact I|].
    intros [|]; [apply on_page_ret | exact IH].
Qed.

Lemma on_page_rating (rating : option Z) (sels : Z -> list str) :
  runs perform (match rating_given rating with
        | Some r => click_first_available Pg perform (sels r)
        | None => ret false
        end) on_page.
Proof.
  destruct (rating_given rating); [apply on_page_click | apply on_page_ret].
Qed.

(** A computation that starts with the navigation to the target and stays
    on the page makes the calls of a posting. *)
Lemma posting_from_goto {B : Type} (target : str)
      (k : unit -> M (session Pg) B) :
  (forall x, runs perform (k x) on_page) ->
  runs perform (bind (page_do Pg perform (Goto target)) k)
       (fun _ new => posting_calls target new).
Proof.
  intros Hk. eapply runs_weaken; [apply (runs_bind _ _ _ _ (runs_page_do _) Hk)|].
  intros r new [(e & _ & [[H _] | [_ ->]])
               | (x & new1 & new2 & [[_ ->] | [H _]] & H2 & ->)];
    try discriminate.
  - exists false, []. split; [reflexivity | constructor].
  - exists true, new2. split; [reflexivity | exact H2].
Qed.

Lemma bind_assoc {A B C : Type} (m : M (session Pg) A)
      (k : A -> M (session Pg) B) (h : B -> M (session Pg) C)
      (s : session Pg) :
  bind (bind m k) h s = bind m (fun x => bind (k x) h) s.
Proof.
  unfold bind. destruct (m s) as [[x|e] s1]; reflexivity.
Qed.

Lemma runs_ext {A : Type} (m m' : M (session Pg) A) (P : ending A) :
  (forall s, m s = m' s) -> runs perform m' P -> runs perform m P.
Proof. intros H Hm pg log. rewrite H. apply Hm. Qed.

Lemma post_goodreads_calls (target : str) (rating : option Z) (comment : str) :
  runs perform (post_goodreads_review Pg perform target rating comment)
       (fun _ new => posting_calls target new).
Proof.
  unfold post_goodreads_review, open_goodreads_editor.
  eapply runs_ext; [intros s; rewrite bind_assoc; reflexivity|].
  apply posting_from_goto. intros _.
  apply on_page_bind.
  { apply on_page_bind; [apply on_page_click | intros _; apply on_page_ret]. }
  intros _. apply on_page_bind; [apply on_page_rating|].
  intros _. apply on_page_bind; [apply on_page_fill|].
  intros [|]; cbn [negb]; [|apply on_page_raise].
  apply on_page_bind; [apply on_page_click|].
  intros [|]; cbn [negb]; [apply on_page_do; exact I | apply on_page_raise].
Qed.

Lemma post_imdb_calls (target : str) (rating : option Z) (comment : str) :
  runs perform (post_imdb_review Pg perform target rating comment)
       (fun _ new => posting_calls target new).
Proof.
  unfold post_imdb_review.
  apply posting_from_goto. intros _.
  apply on_page_bind; [apply on_page_rating|].
  intros _. apply on_page_bind; [apply on_page_fill|].
  intros [|]; cbn [negb]; [|apply on_page_raise].
  apply on_page_bind; [apply on_page_click|].
  intros [|]; cbn [negb]; [apply on_page_do; exact I | apply on_page_raise].
Qed.

(** ** A turn, the loop, a run *)

Lemma process_item_ending (label : str) (convert : option Z -> option Z)
      (post : str -> option Z -> str -> M (session Pg) unit)
      (mapping : gmap str str) (it : item) :
  (forall target rating comment,
      runs perform (post target rating comment)
           (fun _ new => posting_calls target new)) ->
  runs perform (process_item Pg perform label convert post mapping it)
       (record_ending label mapping it).
Proof.
  intros Hpost. unfold process_item, record_ending, postable, comment_text.
  destruct (get_target_url mapping it) as [target|].
  2:{ eapply runs_weaken; [apply runs_ret|]. intros r new [-> ->]. auto. }
  destruct (nonempty target); cbn [negb andb].
  2:{ eapply runs_weaken; [apply runs_ret|]. intros r new [-> ->]. auto. }
  destruct (nonempty (strip (first_truthy [comment it; comment_en it])));
    cbn [negb].
  2:{ eapply runs_weaken; [apply runs_ret|]. intros r new [-> ->]. auto. }
  set (said := Print (Announced (announce label it target))).
  intros pg log. unfold bind at 1.
  destruct (runs_terminal_do said pg log)
    as (r0 & pg1 & new0 & -> & Hre0 & [[-> ->] | [-> ->]]).
  2:{ exists (Raise TerminalError), pg1, [(said, false)].
      split; [reflexivity|]. split; [exact Hre0 | left; auto]. }
  unfold try_except, bind at 1.
  destruct (Hpost target (convert (rating it))
                  (strip (first_truthy [comment it; comment_en it]))
                  pg1 (log ++ [(said, true)]))
    as (r1 & pg2 & body & -> & Hre1 & Hbody).
  destruct r1 as [[]|e].
  - exists (Ok Posted), pg2, ((said, true) :: body).
    split; [unfold ret; rewrite <- app_assoc; reflexivity|].
    split; [apply (replays_app _ _ _ [_] body Hre0 Hre1)|].
    right. exists body. split; [exact Hbody | left; auto].
  - unfold bind.
    destruct (runs_terminal_do (Print (Warned target e)) pg2
                               ((log ++ [(said, true)]) ++ body))
      as (r2 & pg3 & new2 & -> & Hre2 & Hw).
    assert (Hre : forall ok, new2 = [(Print (Warned target e), ok)] ->
                  replays perform pg
                          ((said, true) :: body
                           ++ [(Print (Warned target e), ok)]) pg3).
    { intros ok <-.
      apply (replays_app _ _ _ [_] (body ++ new2) Hre0).
      eapply replays_app; eassumption. }
    destruct Hw as [[-> ->] | [-> ->]].
    + exists (Ok (Failed e)), pg3,
        ((said, true) :: body ++ [(Print (Warned target e), true)]).
      split; [unfold ret; rewrite <- !app_assoc; reflexivity|].
      split; [apply Hre; reflexivity|].
      right. exists body. split; [exact Hbody|]. right.
      exists e, true. auto.
    + exists (Raise TerminalError), pg3,
        ((said, true) :: body ++ [(Print (Warned target e), false)]).
      split; [rewrite <- !app_assoc; reflexivity|].
      split; [apply Hre; reflexivity|].
      right. exists body. split; [exact Hbody|]. right.
      exists e, false. auto.
Qed.

Lemma process_items_ending (label : str) (mapping : gmap str str)
      (step : item -> M (session Pg) outcome) (items : list item) :
  (forall it, runs perform (step it) (record_ending label mapping it)) ->
  runs perform (process_items Pg step items) (loop_ending label mapping items).
Proof.
  intros Hstep. induction items as [|it rest IH];
    cbn [process_items loop_ending].
  - apply runs_ret.
  - apply runs_bind; [apply Hstep | intros _; exact IH].
Qed.

Lemma prompt_login_ending (wait_for_login : bool) (home name : str) :
  runs perform (prompt_login Pg perform wait_for_login home name)
       (if wait_for_login
        then and_then (inside (Goto home))
                      (outside (Input (login_prompt name)) TerminalError)
        else nothing).
Proof.
  unfold prompt_login. destruct wait_for_login; [|apply runs_ret].
  eapply runs_weaken.
  - apply runs_bind; [apply runs_page_try|].
    intros _. apply runs_terminal_do.
  - intros r new [(e & _ & ok & H & _) | (x & new1 & new2 & (ok & _ & ->) & H2 & ->)];
      [discriminate|].
    right. exists tt, [(Goto home, ok)], new2.
    split; [split; [reflexivity | eauto]|]. auto.
Qed.

Lemma run_ending_holds (profile home name label : str)
      (headless wait_for_login : bool) (mapping : gmap str str)
      (step : item -> M (session Pg) outcome) (items : list item) :
  (forall it, runs perform (step it) (record_ending label mapping it)) ->
  runs perform (let! _ := page_do Pg perform (Launch profile headless) in
        let! _ := page_do Pg perform NewPage in
        let! _ := prompt_login Pg perform wait_for_login home name in
        let! _ := process_items Pg step items in
        page_do Pg perform Close)%py
       (run_ending profile home name label headless wait_for_login mapping
                   items).
Proof.
  intros Hstep. unfold run_ending.
  apply runs_bind; [apply runs_page_do | intros _].
  apply runs_bind; [apply runs_page_do | intros _].
  apply runs_bind; [apply prompt_login_ending | intros _].
  apply runs_bind; [apply process_items_ending, Hstep | intros _].
  apply runs_page_do.
Qed.

End Run.

(** ** Announcements *)

Lemma announced_app (a b : call_log) :
  announced (a ++ b) = announced a ++ announced b.
Proof. apply omap_app. Qed.

Lemma announced_page_calls (new : call_log) :
  Forall page_call new -> announced new = [].
Proof.
  induction 1 as [|[a ok] new Ha _ IH]; [reflexivity|].
  unfold announced in *. cbn [omap list_omap]. rewrite IH.
  destruct a; try contradiction; reflexivity.
Qed.

Lemma announced_posting (target : str) (body : call_log) :
  posting_calls target body -> announced body = [].
Proof.
  intros (ok & rest & -> & Hrest).
  apply announced_page_calls. constructor; [exact I | exact Hrest].
Qed.

(** What a turn announces: its record, when the record is postable and the
    print returned. *)
Lemma record_announced (label : str) (mapping : gmap str str) (it : item)
      (r : res outcome) (new : call_log) :
  record_ending label mapping it r new ->
  (forall o, r = Ok o -> announced new = announcements label mapping [it])
  /\ (announced new = [] \/ announced new = announcements label mapping [it]).
Proof.
  unfold record_ending, announcements. cbn [omap list_omap].
  destruct (postable mapping it) as [[target c]|].
  2:{ intros [_ ->]. split; [reflexivity | left; reflexivity]. }
  cbn [option_bind]. intros [[-> ->] | (body & Hbody & H)].
  { split; [discriminate | left; reflexivity]. }
  pose proof (announced_posting _ _ Hbody) as Hb.
  assert (Hsaid : forall tail, announced tail = [] ->
            announced ((Print (Announced (announce label it target)), true)
                         :: body ++ tail)
            = [announce label it target]).
  { intros tail Ht.
    change (announced ([(Print (Announced (announce label it target)), true)]
                         ++ body ++ tail) = [announce label it target]).
    rewrite !announced_app, Hb, Ht. reflexivity. }
  destruct H as [[-> ->] | (e & ok & -> & ->)].
  - rewrite <- (app_nil_r body), Hsaid by reflexivity. auto.
  - rewrite Hsaid by (destruct ok; reflexivity). auto.
Qed.

Lemma loop_announced (label : str) (mapping : gmap str str)
      (items : list item) (r : res unit) (new : call_log) :
  loop_ending label mapping items r new ->
  (r = Ok tt -> announced new = announcements label mapping items)
  /\ exists rest, announcements label mapping items = announced new ++ rest.
Proof.
  revert r new. induction items as [|it items IH]; intros r new;
    cbn [loop_ending].
  - intros [_ ->]. split; [reflexivity | exists []; reflexivity].
  - assert (Hcons : announcements label mapping (it :: items)
                    = announcements label mapping [it]
                      ++ announcements label mapping items).
    { unfold announcements. cbn [omap list_omap].
      destruct (postable mapping it) as [[t c]|]; reflexivity. }
    intros [(e & -> & H) | (o & new1 & new2 & H1 & H2 & ->)].
    + split; [discriminate|].
      destruct (record_announced _ _ _ _ _ H) as [_ [-> | ->]].
      * eexists. reflexivity.
      * rewrite Hcons. eexists. reflexivity.
    + destruct (record_announced _ _ _ _ _ H1) as [Ha _].
      destruct (IH _ _ H2) as [Hok [rest Hrest]].
      rewrite announced_app, (Ha o eq_refl), Hcons. split.
      * intros Hr. rewrite (Hok Hr). reflexivity.
      * exists rest. rewrite Hrest, <- app_assoc. reflexivity.
Qed.

(** In a run the announcements printed are those of the records, in list
    order, as far as the run went: all of them when it returned. *)
Lemma run_announced (profile home name label : str)
      (headless wait_for_login : bool) (mapping : gmap str str)
      (items : list item) (r : res unit) (new : call_log) :
  run_ending profile home name label headless wait_for_login mapping items
             r new ->
  (r = Ok tt -> announced new = announcements label mapping items)
  /\ exists rest, announcements label mapping items = announced new ++ rest.
Proof.
  assert (Hout : forall a e r0 new0,
             outside a e r0 new0 ->
             (forall l, a <> Print l) -> announced new0 = []).
  { intros a e r0 new0 [[_ ->] | [_ ->]] Ha; destruct a; try reflexivity;
      exfalso; eapply Ha; reflexivity. }
  assert (Hnone : forall r0 new0 (P : ending unit),
             (forall r1 new1, P r1 new1 -> announced new1 = []) ->
             forall Q : ending unit,
             and_then P Q r0 new0 ->
             (exists e, r0 = Raise e /\ announced new0 = [])
             \/ exists new2, Q r0 new2 /\ announced new0 = announced new2).
  { intros r0 new0 P HP Q [(e & -> & H) | (x & new1 & new2 & H1 & H2 & ->)].
    - left. exists e. split; [reflexivity | eapply HP; exact H].
    - right. exists new2. split; [exact H2|].
      rewrite announced_app, (HP _ _ H1). reflexivity. }
  assert (Hlogin : forall r1 new1,
             (if wait_for_login
              then and_then (inside (Goto home))
                            (outside (Input (login_prompt name)) TerminalError)
              else nothing) r1 new1 -> announced new1 = []).
  { intros r1 new1. destruct wait_for_login.
    - intros [(e & _ & H & _) | (x & n1 & n2 & (_ & ok & ->) & H2 & ->)];
        [discriminate|].
      rewrite announced_app, (Hout _ _ _ _ H2) by discriminate. reflexivity.
    - intros [_ ->]. reflexivity. }
  unfold run_ending. intros H.
  assert (Hstop : forall e (new0 : call_log),
             announced new0 = [] ->
             (Raise e = Ok tt -> announced new0 = announcements label mapping items)
             /\ exists rest,
                 announcements label mapping items = announced new0 ++ rest).
  { intros e new0 ->. split; [discriminate | eexists; reflexivity]. }
  apply Hnone in H as [(e & -> & Ha) | (n2 & H & ->)];
    [apply Hstop, Ha | | intros; eapply Hout; [eassumption | discriminate]].
  apply Hnone in H as [(e & -> & Ha) | (n3 & H & ->)];
    [apply Hstop, Ha | | intros; eapply Hout; [eassumption | discriminate]].
  apply Hnone in H as [(e & -> & Ha) | (n4 & H & ->)];
    [apply Hstop, Ha | | exact Hlogin].
  destruct H as [(e & -> & H) | (x & new1 & new2 & H1 & H2 & ->)].
  - split; [discriminate|]. apply (loop_announced _ _ _ _ _ H).
  - destruct x. destruct (loop_announced _ _ _ _ _ H1) as [Hok Hrest].
    rewrite announced_app, (Hout _ _ _ _ H2) by discriminate.
    rewrite app_nil_r. split; [intros _; apply Hok; reflexivity | exact Hrest].
Qed.

(** X17. A run of the Publisher for either destination launches the
    browser, opens a page, waits for the operator when that is asked, takes
    the records in list order and closes the browser; every call it makes
    is answered by the browser or the terminal in the state the call before
    left.  A record without target or comment asks nothing.  Any other
    record is announced, and posted to its own target; whether the posting
    returns or raises, at any step, the run goes on with the next record,
    after a warning when it raised.  The run ends with an exception only on
    a call outside the posting (the launch, the new page, the operator's
    input, a print, the close); and the announcements printed are those of
    the postable records in list order, as far as the run went: all of
    them when it returned. *)
Theorem publisher_run_in_order
        (Pg : Type) (perform : action -> Pg -> bool * Pg)
        (headless wait_for_login : bool) (items : list item)
        (mapping : gmap str str) (pg : Pg) (log : call_log) :
  (exists r pg' new,
      process_goodreads Pg perform headless wait_for_login items mapping
                        (pg, log) = (r, (pg', log ++ new))
      /\ replays perform pg new pg'
      /\ run_ending (lit ".pw_goodreads_profile")
                    (lit "https://www.goodreads.com/") (lit "Goodreads")
                    (lit "[GOODREADS]") headless wait_for_login mapping items
                    r new
      /\ (r = Ok tt ->
          announced new = announcements (lit "[GOODREADS]") mapping items)
      /\ exists rest,
          announcements (lit "[GOODREADS]") mapping items
          = announced new ++ rest)
  /\ (exists r pg' new,
         process_imdb Pg perform headless wait_for_login items mapping
                      (pg, log) = (r, (pg', log ++ new))
         /\ replays perform pg new pg'
         /\ run_ending (lit ".pw_imdb_profile") (lit "https://www.imdb.com/")
                       (lit "IMDb") (lit "[IMDb]") headless wait_for_login
                       mapping items r new
         /\ (r = Ok tt ->
             announced new = announcements (lit "[IMDb]") mapping items)
         /\ exists rest,
             announcements (lit "[IMDb]") mapping items
             = announced new ++ rest).
Proof.
  split.
  - destruct (run_ending_holds Pg perform (lit ".pw_goodreads_profile")
                (lit "https://www.goodreads.com/") (lit "Goodreads")
                (lit "[GOODREADS]") headless wait_for_login mapping
                (process_goodreads_item Pg perform mapping) items) with
      (pg := pg) (log := log) as (r & pg' & new & Hr & Hre & He).
    { intros it. apply process_item_ending. apply post_goodreads_calls. }
    exists r, pg', new. split; [exact Hr|]. split; [exact Hre|].
    split; [exact He | exact (run_announced _ _ _ _ _ _ _ _ _ _ He)].
  - destruct (run_ending_holds Pg perform (lit ".pw_imdb_profile")
                (lit "https://www.imdb.com/") (lit "IMDb") (lit "[IMDb]")
                headless wait_for_login mapping
                (process_imdb_item Pg perform mapping) items) with
      (pg := pg) (log := log) as (r & pg' & new & Hr & Hre & He).
    { intros it. apply process_item_ending. apply post_imdb_calls. }
    exists r, pg', new. split; [exact Hr|]. split; [exact Hre|].
    split; [exact He | exact (run_announced _ _ _ _ _ _ _ _ _ _ He)].
Qed.

Lemma publisher_run_in_order_witness :
  exists pg' new,
    process_goodreads nat Samples.page_only_c false false
                      [Samples.record_unmapped] (load_mapping Samples.one_row)
                      (0%nat, []) = (Ok tt, (pg', [] ++ new))
    /\ announced new = [].
Proof.
  destruct (publisher_run_in_order nat Samples.page_only_c false false
              [Samples.record_unmapped] (load_mapping Samples.one_row)
              0%nat []) as [(r & pg' & new & Hr & _ & _ & Ha & _) _].
  pose proof Hr as Hc. vm_compute in Hc. injection Hc as Hc _ _.
  subst r. exists pg', new. split; [exact Hr | apply Ha; reflexivity].
Defined.

(** X18. On a page where what a call finds does not depend on what was
    done before, a posting succeeds exactly when the navigation, one of the
    comment boxes, one of the submit buttons and the final wait succeed;
    the first of these that fails gives the reason.  The rating given, and
    whether a rating control or the editor link was found, plays no part. *)
Theorem posting_decided_by_four_steps
        (Pg : Type) (perform : action -> Pg -> bool * Pg) (ok : action -> bool)
        (target : str) (rating : option Z) (comment : str) (s : session Pg) :
  (forall a pg, fst (perform a pg) = ok a) ->
  fst (post_goodreads_review Pg perform target rating comment s)
  = post_decision ok target comment goodreads_comment_boxes
                  goodreads_submit_buttons 2000
                  "找不到 Goodreads 评论输入框，需手动调整选择器"
                  "找不到 Goodreads 提交按钮，需手动调整选择器"
  /\ fst (post_imdb_review Pg perform target rating comment s)
     = post_decision ok target comment imdb_comment_boxes imdb_submit_buttons
                     1500
                     "找不到 IMDb 评论输入框，需手动调整选择器"
                     "找不到 IMDb 提交按钮，需手动调整选择器".
Proof.
  intros pure. split.
  - apply post_goodreads_pure. exact pure.
  - apply post_imdb_pure. exact pure.
Qed.

Lemma posting_decided_by_four_steps_witness :
  fst (post_goodreads_review nat Samples.page_only_c (lit "site/old") (Some 4)
                             (lit "fine") (0%nat, []))
  = Raise (RuntimeError "找不到 Goodreads 评论输入框，需手动调整选择器").
Proof.
  destruct (posting_decided_by_four_steps nat Samples.page_only_c
              (fun a => fst (Samples.page_only_c a 0%nat))
              (lit "site/old") (Some 4) (lit "fine") (0%nat, [])) as [H _].
  - intros a pg. reflexivity.
  - rewrite H. reflexivity.
Defined.

(** X19. When the navigation to the target fails, the record ends as
    failed with the page's error and nothing else is asked of the page: no
    click, no fill. *)
Theorem failed_navigation_stops_posting
        (Pg : Type) (perform : action -> Pg -> bool * Pg)
        (target : str) (rating : option Z) (comment : str)
        (pg pg' : Pg) (log : list (action * bool)) :
  perform (Goto target) pg = (false, pg') ->
  post_goodreads_review Pg perform target rating comment (pg, log)
  = (Raise PageError, (pg', log ++ [(Goto target, false)]))
  /\ post_imdb_review Pg perform target rating comment (pg, log)
     = (Raise PageError, (pg', log ++ [(Goto target, false)])).
Proof.
  intros H. unfold post_goodreads_review, post_imdb_review, open_goodreads_editor.
  split.
  - unfold bind at 1. unfold bind at 1.
    rewrite (goto_fails Pg perform target pg pg' log H). reflexivity.
  - unfold bind at 1.
    rewrite (goto_fails Pg perform target pg pg' log H). reflexivity.
Qed.

Lemma failed_navigation_stops_posting_witness :
  post_goodreads_review nat MoreSamples.page_offline (lit "site/old") (Some 4)
                        (lit "fine") (0%nat, [])
  = (Raise PageError, (1%nat, [] ++ [(Goto (lit "site/old"), false)])).
Proof.
  apply (failed_navigation_stops_posting nat MoreSamples.page_offline
           (lit "site/old") (Some 4) (lit "fine") 0%nat 1%nat []).
  reflexivity.
Defined.

Lemma no_comment_box_no_submit_witness :
  exists before,
    snd (snd (post_goodreads_review nat MoreSamples.page_blank (lit "site/old")
                                    (Some 4) (lit "fine") (0%nat, [])))
    = [] ++ before
         ++ List.map (fun sel => (Fill sel (lit "fine"), false))
                     goodreads_comment_boxes.
Proof.
  apply (no_comment_box_no_submit nat MoreSamples.page_blank (lit "site/old")
           (Some 4) (lit "fine") 0%nat
           (fst (snd (post_goodreads_review nat MoreSamples.page_blank
                        (lit "site/old") (Some 4) (lit "fine") (0%nat, []))))
           []).
  vm_compute. reflexivity.
Defined.

End PublisherFacts.
